(** * Retrieval and ranking core of the mental-health chatbot

    A shallow embedding of [backend/layers/rag_precision.py] (BM25 index,
    multi-query generation, hybrid search, reranking, retrieval orchestrator,
    citations, semantic chunker) and of the sentence chunker, the embedding
    generator and the summarizer of [backend/load_kb_enhanced.py], followed
    by the properties the specification states about them and by further
    properties of the code.

    Conventions of the embedding.
    - A Python [float] is a real number ([R]): scores are exact; rounding,
      infinities and NaN are not modelled. The product
      [len * overlap_percentage] is an exact rational.
    - A Python [int] that the caller supplies is a [Z]; lengths and positions
      produced by [len], [range] and [enumerate] are [nat].
    - A Python [str] is a [string]; the character classes of [re] and of
      [str.strip] / [str.lower] are the ASCII ones, every other character
      being a letter that has no upper-case form. Lengths and offsets count
      the characters of the [string], one per byte outside ASCII.
    - A raised exception is [None] in an [option] result.
    - A [dict] whose iteration order is observed is an association list in
      insertion order; a [dict] or [Counter] that is only looked up is a
      [gmap]. *)

From Stdlib Require Import Reals Lra ZArith List String Ascii Lia QArith Qround.
From Stdlib Require Import Sorting.Sorted Sorting.Permutation.
From stdpp Require Import gmap strings list pretty.

Set Default Proof Using "Type".
Set Warnings "-register-all".

(** ** Python sequences *)

Module Py.

(** [l[:k]] for an integer [k]: a negative [k] counts from the end. *)
Definition take {A : Type} (k : Z) (l : list A) : list A :=
  if (0 <=? k)%Z then firstn (Z.to_nat k) l
  else firstn (length l - Z.to_nat (- k)) l.

(** [l[i]] for an integer [i]: a negative [i] counts from the end, an index
    out of range raises [IndexError]. *)
Definition index {A : Type} (l : list A) (i : Z) : option A :=
  if (0 <=? i)%Z then l !! Z.to_nat i
  else if (- Z.of_nat (length l) <=? i)%Z
       then l !! Z.to_nat (Z.of_nat (length l) + i)
       else None.

(** Truth value of a number: non-zero. *)
Definition truthy (x : R) : bool := if Req_dec_T x 0 then false else true.

Section StableSort.
Context {A : Type} (key : A -> R).

(** [x] goes in front of the first element whose key does not exceed its
    own: among equal keys the element met first stays first. *)
Fixpoint insert_desc (x : A) (l : list A) : list A :=
  match l with
  | [] => [x]
  | y :: l' =>
      if Rlt_dec (key x) (key y) then y :: insert_desc x l' else x :: l
  end.

(** [l.sort(key=key, reverse=True)]: the stable sort by decreasing key. *)
Definition sort_desc (l : list A) : list A := foldr insert_desc [] l.

(** [x] may stand before [y] in a sorted result whose input was ordered by
    [before]. *)
Definition precedes (before : A -> A -> Prop) (x y : A) : Prop :=
  (key y < key x)%R \/ (key x = key y /\ before x y).
End StableSort.

(** A [dict] keyed by strings that remembers the order of insertion. *)
Definition dict (V : Type) : Type := list (string * V).

(** [d.get(key)] *)
Fixpoint dict_get {V : Type} (key : string) (d : dict V) : option V :=
  match d with
  | [] => None
  | (k, v) :: d' => if String.eqb k key then Some v else dict_get key d'
  end.

(** [d[key] = v]: a known key keeps its place, a new key goes last. *)
Fixpoint dict_set {V : Type} (key : string) (v : V) (d : dict V) : dict V :=
  match d with
  | [] => [(key, v)]
  | (k, w) :: d' =>
      if String.eqb k key then (k, v) :: d' else (k, w) :: dict_set key v d'
  end.

(** [list(d.values())] *)
Definition dict_values {V : Type} (d : dict V) : list V := map snd d.

(** [enumerate(l)] *)
Definition enumerate {A : Type} (l : list A) : list (nat * A) :=
  combine (seq 0 (length l)) l.

(** The values [json.loads] produces. *)
Inductive json : Type :=
  | JNull
  | JBool (b : bool)
  | JNum (x : R)
  | JStr (s : string)
  | JArr (l : list json)
  | JObj (o : list (string * json)).

(** [data.get(key, default)]: only a [dict] has the method. *)
Definition json_get (data : json) (key : string) (fallback : json)
  : option json :=
  match data with
  | JObj o => Some (default fallback (dict_get key o))
  | _ => None
  end.

(** The characters of a string, as [for c in s] yields them. *)
Fixpoint chars (s : string) : list string :=
  match s with
  | EmptyString => []
  | String c s' => String c EmptyString :: chars s'
  end.

(** What iterating over a value yields (as [list.extend] consumes it);
    numbers, booleans and [None] are not iterable. *)
Definition json_iter (v : json) : option (list json) :=
  match v with
  | JArr l => Some l
  | JStr s => Some (map JStr (chars s))
  | JObj o => Some (map (fun kv => JStr (fst kv)) o)
  | _ => None
  end.

(** [x + v] for a float [x]: defined for numbers and booleans. *)
Definition json_number (v : json) : option R :=
  match v with
  | JNum x => Some x
  | JBool true => Some 1%R
  | JBool false => Some 0%R
  | _ => None
  end.

End Py.

(** ** Strings *)

Module Str.

Definition code (c : ascii) : nat := nat_of_ascii c.

(** [\s] and [str.isspace] on ASCII: tab, line feed, vertical tab, form feed,
    carriage return, the four separators 28-31 and the space. *)
Definition is_space (c : ascii) : bool :=
  let n := code c in
  ((9 <=? n) && (n <=? 13)) || ((28 <=? n) && (n <=? 32)).

Definition is_upper (c : ascii) : bool :=
  let n := code c in (65 <=? n) && (n <=? 90).

Definition is_digit (c : ascii) : bool :=
  let n := code c in (48 <=? n) && (n <=? 57).

(** [\w]: letters, digits and the underscore; a character outside ASCII
    counts as a letter. *)
Definition is_word (c : ascii) : bool :=
  let n := code c in
  is_digit c || is_upper c || ((97 <=? n) && (n <=? 122)) || (n =? 95)
  || (128 <=? n).

Definition lower_char (c : ascii) : ascii :=
  if is_upper c then ascii_of_nat (code c + 32) else c.

(** [s.lower()] *)
Fixpoint lower (s : string) : string :=
  match s with
  | EmptyString => EmptyString
  | String c s' => String (lower_char c) (lower s')
  end.

(** [s[:n]] and [s[n:]] for [0 <= n]. *)
Fixpoint take (n : nat) (s : string) : string :=
  match n, s with
  | S n', String c s' => String c (take n' s')
  | _, _ => EmptyString
  end.

Fixpoint drop (n : nat) (s : string) : string :=
  match n, s with
  | S n', String _ s' => drop n' s'
  | _, _ => s
  end.

(** [s[a:b]] for [0 <= a] and [0 <= b]. *)
Definition slice (a b : nat) (s : string) : string := take (b - a) (drop a s).

(** [s[-n:]] for [0 < n]. *)
Definition last_n (n : nat) (s : string) : string :=
  drop (String.length s - n) s.

Fixpoint lstrip (s : string) : string :=
  match s with
  | String c s' => if is_space c then lstrip s' else s
  | EmptyString => EmptyString
  end.

Fixpoint rstrip (s : string) : string :=
  match s with
  | EmptyString => EmptyString
  | String c s' =>
      match rstrip s' with
      | EmptyString => if is_space c then EmptyString else String c EmptyString
      | r => String c r
      end
  end.

(** [s.strip()] *)
Definition strip (s : string) : string := rstrip (lstrip s).

(** Truth value of a string: non-empty. *)
Definition nonempty (s : string) : bool :=
  match s with EmptyString => false | _ => true end.

(** [sep.join(l)] *)
Fixpoint join (sep : string) (l : list string) : string :=
  match l with
  | [] => EmptyString
  | [x] => x
  | x :: l' => x +:+ sep +:+ join sep l'
  end.

(** Position of the first occurrence of the non-empty [pat] in [s]. *)
Fixpoint find (pat s : string) : option nat :=
  if String.prefix pat s then Some 0
  else match s with
       | EmptyString => None
       | String _ s' => S <$> find pat s'
       end.

(** [pat in s] *)
Definition contains (pat s : string) : bool :=
  match find pat s with Some _ => true | None => false end.

(** [s.split(sep)[0]]: the text in front of the first [sep]. *)
Definition before (sep s : string) : string :=
  match find sep s with
  | Some i => take i s
  | None => s
  end.

(** [s.split(sep)[1]], given that [sep] occurs in [s]: the text between the
    first and the second [sep]. *)
Definition between (sep s : string) : string :=
  match find sep s with
  | Some i => before sep (drop (i + String.length sep) s)
  | None => EmptyString
  end.

(** [s.replace(old, new)] for a non-empty [old]: the occurrences are taken
    from the left and do not overlap. [skip] counts the characters of the
    occurrence under replacement that are still to be dropped. *)
Fixpoint replace_from (old new : string) (skip : nat) (s : string) : string :=
  match s with
  | EmptyString => EmptyString
  | String c s' =>
      match skip with
      | S k => replace_from old new k s'
      | O =>
          if String.prefix old s
          then new +:+ replace_from old new (String.length old - 1) s'
          else String c (replace_from old new 0 s')
      end
  end.

Definition replace (old new s : string) : string := replace_from old new 0 s.

(** [re.findall(r'\b\w+\b', s)]: the maximal runs of word characters. *)
Fixpoint words (s : string) : list string :=
  match s with
  | EmptyString => []
  | String c s' =>
      if is_word c then
        match s' with
        | String c' _ =>
            if is_word c' then
              match words s' with
              | w :: ws => String c w :: ws
              | [] => [String c EmptyString]
              end
            else String c EmptyString :: words s'
        | EmptyString => [String c EmptyString]
        end
      else words s'
  end.

(** [s.split()]: the maximal runs of characters that are not white space. *)
Fixpoint fields (s : string) : list string :=
  match s with
  | EmptyString => []
  | String c s' =>
      if is_space c then fields s'
      else
        match s' with
        | String c' _ =>
            if is_space c' then String c EmptyString :: fields s'
            else
              match fields s' with
              | w :: ws => String c w :: ws
              | [] => [String c EmptyString]
              end
        | EmptyString => [String c EmptyString]
        end
  end.

End Str.

(** ** BM25 lexical index ([class BM25]) *)

Module BM25.

Record t : Type := mk {
  k1 : R;
  b : R;
  doc_len : list nat;
  avgdl : R;
  doc_freqs : list (gmap string nat);
  idf : gmap string R;
  doc_count : nat;
  _initialized : bool
}.

(** [BM25(k1, b)] *)
Definition new (k1 b : R) : t :=
  {| k1 := k1; b := b; doc_len := []; avgdl := 0; doc_freqs := [];
     idf := ∅; doc_count := 0; _initialized := false |}.

(** [BM25()] *)
Definition create : t := new 1.5 0.75.

(** [_tokenize] *)
Definition _tokenize (text : string) : list string :=
  Str.words (Str.lower text).

(** [c[token] += 1] on a [Counter] *)
Definition incr (token : string) (c : gmap string nat) : gmap string nat :=
  <[token := S (default 0%nat (c !! token))]> c.

(** [Counter(tokens)] *)
Definition Counter (tokens : list string) : gmap string nat :=
  foldr incr ∅ tokens.

(** [for token in set(tokens): df[token] += 1]; the order in which the set is
    walked does not show in the result. *)
Definition count_doc (df : gmap string nat) (tokens : list string)
  : gmap string nat :=
  foldr incr df (remove_dups tokens).

(** The value stored for a token found in [freq] of the [n] documents. *)
Definition idf_value (n freq : nat) : R :=
  ln ((INR n - INR freq + 0.5) / (INR freq + 0.5) + 1).

(** [sum(doc_len)] *)
Definition total_len (doc_len : list nat) : nat := foldr Nat.add 0%nat doc_len.

(** [fit]: the lengths and frequency tables are rebuilt, the [idf] table is
    updated in place (entries of tokens absent from [documents] stay). *)
Definition fit (self : t) (documents : list string) : t :=
  let doc_count := length documents in
  let tokenized := map _tokenize documents in
  let doc_len := map (@length string) tokenized in
  let df := foldl count_doc ∅ tokenized in
  {| k1 := k1 self;
     b := b self;
     doc_len := doc_len;
     avgdl := match doc_count with
              | O => 0
              | _ => INR (total_len doc_len) / INR doc_count
              end;
     doc_freqs := map Counter tokenized;
     idf := (idf_value doc_count <$> df) ∪ idf self;
     doc_count := doc_count;
     _initialized := true |}.

(** One turn of the loop of [score] over the query tokens; a division by
    zero raises. *)
Definition score_step (self : t) (freqs : gmap string nat) (len : nat)
    (acc : option R) (token : string) : option R :=
  score ← acc;
  match freqs !! token with
  | None => Some score
  | Some freq =>
      let idf := default 0%R (idf self !! token) in
      let numerator := (INR freq * (k1 self + 1))%R in
      if Req_dec_T (avgdl self) 0 then None else
      let denominator :=
        (INR freq
         + k1 self * (1 - b self + b self * INR len / avgdl self))%R in
      if Req_dec_T denominator 0 then None else
      Some (score + idf * numerator / denominator)%R
  end.

(** [score] *)
Definition score (self : t) (query : string) (doc_index : Z) : option R :=
  if negb (_initialized self) then Some 0%R else
  let query_tokens := _tokenize query in
  freqs ← Py.index (doc_freqs self) doc_index;
  len ← Py.index (doc_len self) doc_index;
  foldl (score_step self freqs len) (Some 0%R) query_tokens.

(** [[(i, self.score(query, i)) for i in range(self.doc_count)]] *)
Definition scores (self : t) (query : string) : option (list (nat * R)) :=
  mapM (fun i => s ← score self query (Z.of_nat i); Some (i, s))
       (seq 0 (doc_count self)).

(** [search] *)
Definition search (self : t) (query : string) (top_k : Z)
  : option (list (nat * R)) :=
  if negb (_initialized self) then Some [] else
  scores ← scores self query;
  Some (Py.take top_k (Py.sort_desc snd scores)).

End BM25.

(** ** Retrieval with precision boost ([class RAGPrecisionBoost]) *)

Module Rag.

Import Py.

(** [@dataclass RetrievalResult] *)
Record RetrievalResult : Type := mkResult {
  content : string;
  source : string;
  page : option Z;
  book_title : string;
  relevance_score : R;
  retrieval_method : string
}.

(** A document [dict], read through the four keys the retrieval code looks
    up; a key may be absent. *)
Record Document : Type := mkDoc {
  doc_content : option string;
  doc_source_file : option string;
  doc_page : option Z;
  doc_book_title : option string
}.

(** [{}] *)
Definition no_metadata : Document := mkDoc None None None None.

(** An item returned by [rag_system.retrieve_relevant_context]: a [dict] or
    a bare string. *)
Inductive SemResult : Type :=
  | SemDict (d : Document)
  | SemText (s : string).

(** [result.get('content', '') if isinstance(result, dict) else result] *)
Definition sem_content (result : SemResult) : string :=
  match result with
  | SemDict d => default EmptyString (doc_content d)
  | SemText s => s
  end.

(** [result if isinstance(result, dict) else {}] *)
Definition sem_metadata (result : SemResult) : Document :=
  match result with
  | SemDict d => d
  | SemText _ => no_metadata
  end.

(** The object state: [self.bm25], [self._documents_cache] and
    [self._documents_metadata]. *)
Record t : Type := mk {
  bm25 : BM25.t;
  _documents_cache : list string;
  _documents_metadata : list Document
}.

(** [RAGPrecisionBoost(model, rag_system)], the two collaborators being kept
    apart from the state. *)
Definition new : t :=
  {| bm25 := BM25.create; _documents_cache := []; _documents_metadata := [] |}.

(** [initialize_bm25] *)
Definition initialize_bm25 (self : t) (documents : list Document) : t :=
  let contents := map (fun doc => default EmptyString (doc_content doc)) documents in
  {| bm25 := BM25.fit (bm25 self) contents;
     _documents_cache := contents;
     _documents_metadata := documents |}.

(** The states an object goes through. *)
Inductive reachable : t -> Prop :=
  | reachable_new : reachable new
  | reachable_init self documents :
      reachable self -> reachable (initialize_bm25 self documents).

Definition dq : string := String (ascii_of_nat 34) EmptyString.

(** [MULTI_QUERY_PROMPT.format(query=query)] *)
Definition MULTI_QUERY_PROMPT (query : string) : string :=
  "Bạn là trợ lý tìm kiếm thông tin tâm lý học.
Với câu hỏi gốc sau, hãy tạo ra 3-5 câu hỏi/truy vấn phụ khác nhau 
để tìm kiếm thông tin đầy đủ hơn.

CÂU HỎI GỐC: " +:+ query +:+ "

Tạo các truy vấn đa dạng:
- Một số bằng tiếng Việt
- Một số có thể bằng tiếng Anh (thuật ngữ chuyên môn)
- Một số dùng từ đồng nghĩa
- Một số cụ thể hơn về triệu chứng
- Một số về phương pháp điều trị/giải pháp

Trả về JSON:
{" +:+ dq +:+ "queries" +:+ dq +:+ ": [" +:+ dq +:+ "query1" +:+ dq +:+ ", "
  +:+ dq +:+ "query2" +:+ dq +:+ ", " +:+ dq +:+ "query3" +:+ dq +:+ ", ...]}".

(** [RERANK_PROMPT.format(query=query, passage=passage)] *)
Definition RERANK_PROMPT (query passage : string) : string :=
  "Đánh giá mức độ liên quan của đoạn văn sau với câu hỏi.

CÂU HỎI: " +:+ query +:+ "

ĐOẠN VĂN:
" +:+ passage +:+ "

Trả về JSON:
{" +:+ dq +:+ "relevance_score" +:+ dq +:+ ": <0.0-1.0>, " +:+ dq +:+ "reason"
  +:+ dq +:+ ": " +:+ dq +:+ "<lý do ngắn gọn>" +:+ dq +:+ "}

Tiêu chí đánh giá:
- 0.9-1.0: Trực tiếp trả lời câu hỏi
- 0.7-0.9: Rất liên quan, cung cấp thông tin hữu ích
- 0.5-0.7: Liên quan một phần
- 0.3-0.5: Liên quan gián tiếp
- 0.0-0.3: Không liên quan".

(** [synonym_map], in the order its keys are written. *)
Definition synonym_map : list (string * list string) :=
  [ ("lo âu", ["anxiety"; "lo lắng"; "bất an"; "hoang mang"]);
    ("stress", ["căng thẳng"; "áp lực"; "mệt mỏi"]);
    ("buồn", ["sad"; "depression"; "trầm cảm"; "đau khổ"]);
    ("tức giận", ["angry"; "bực bội"; "khó chịu"]);
    ("sợ", ["fear"; "lo sợ"; "hoảng sợ"]);
    ("ngủ", ["sleep"; "mất ngủ"; "insomnia"]);
    ("CBT", ["liệu pháp nhận thức hành vi"; "cognitive behavioral therapy"]);
    ("mindfulness", ["chánh niệm"; "thiền"; "meditation"]) ].

(** [_simple_query_expansion] *)
Definition _simple_query_expansion (query : string) : list string :=
  let query_lower := Str.lower query in
  let expansions :=
    flat_map
      (fun '(term, synonyms) =>
         if Str.contains term query_lower
         then map (fun syn => Str.replace term syn query_lower)
                  (firstn 2 synonyms)
         else [])
      synonym_map in
  firstn 3 expansions.

Section Collaborators.

(** [json.loads]; [None] when it raises. *)
Variable json_loads : string -> option json.

(** [self.model]: absent, or the text of the reply to a prompt; the first
    argument counts the calls made before, so that two calls with one
    prompt may differ. [None] when the call or reading the reply raises. *)
Variable model : option (nat -> string -> option string).

(** [self.rag_system]: absent, or [retrieve_relevant_context(db, query, k)]
    on the database of the call; [None] when it raises. *)
Variable rag_system : option (json -> Z -> option (list SemResult)).

(** The [try] block of [generate_multi_queries]: the queries the model
    proposes, [None] when anything in it raises. *)
Definition model_queries (generate_content : nat -> string -> option string)
    (call : nat) (original_query : string) : option (list json) :=
  let prompt := MULTI_QUERY_PROMPT original_query in
  text ← generate_content call prompt;
  let response_text := Str.strip text in
  let response_text :=
    if Str.contains "```json" response_text
    then Str.before "```" (Str.between "```json" response_text)
    else if Str.contains "```" response_text
    then Str.before "```" (Str.between "```" response_text)
    else response_text in
  data ← json_loads (Str.strip response_text);
  additional_queries ← json_get data "queries" (JArr []);
  json_iter additional_queries.

(** [generate_multi_queries]; [call] is the number of model calls made
    before. *)
Definition generate_multi_queries (call : nat) (original_query : string)
  : list json :=
  let queries := [JStr original_query] in
  match model with
  | None =>
      firstn 5 (queries ++ map JStr (_simple_query_expansion original_query))
  | Some generate_content =>
      match model_queries generate_content call original_query with
      | Some additional_queries => firstn 6 (queries ++ additional_queries)
      | None =>
          firstn 6
            (queries ++ map JStr (_simple_query_expansion original_query))
      end
  end.

(** An entry of the [results] dict of [hybrid_search]. *)
Record Entry : Type := mkEntry {
  entry_content : string;
  semantic_score : R;
  keyword_score : R;
  metadata : Document
}.

(** One turn of the loop over [enumerate(semantic_results)]. *)
Definition semantic_step (total : nat) (semantic_weight : R)
    (results : dict Entry) (item : nat * SemResult) : dict Entry :=
  let '(i, result) := item in
  let content := sem_content result in
  let score := (1 - INR i / INR total)%R in
  match dict_get content results with
  | None =>
      dict_set content
        {| entry_content := content;
           semantic_score := score * semantic_weight;
           keyword_score := 0;
           metadata := sem_metadata result |} results
  | Some e =>
      dict_set content
        {| entry_content := entry_content e;
           semantic_score := score * semantic_weight;
           keyword_score := keyword_score e;
           metadata := metadata e |} results
  end.

(** [self.bm25.search(query, top_k)] for a query of any type: tokenizing a
    value that is not a string raises as soon as one document is scored. *)
Definition bm25_search (self : t) (query : json) (top_k : Z)
  : option (list (nat * R)) :=
  match query with
  | JStr q => BM25.search (bm25 self) q top_k
  | _ =>
      if negb (BM25._initialized (bm25 self)) then Some []
      else match BM25.doc_count (bm25 self) with
           | O => Some (Py.take top_k [])
           | S _ => None
           end
  end.

(** [max(r[1] for r in bm25_results) if bm25_results else 1] *)
Definition max_score (bm25_results : list (nat * R)) : R :=
  match bm25_results with
  | [] => 1
  | r :: rest => foldl (fun m r' => Rmax m (snd r')) (snd r) rest
  end.

(** One turn of the loop over [bm25_results]. *)
Definition keyword_step (self : t) (max_bm25_score keyword_weight : R)
    (results : dict Entry) (item : nat * R) : dict Entry :=
  let '(doc_idx, bm25_score) := item in
  match _documents_cache self !! doc_idx with
  | None => results
  | Some content =>
      let normalized_score :=
        if truthy max_bm25_score then (bm25_score / max_bm25_score)%R
        else 0%R in
      match dict_get content results with
      | None =>
          dict_set content
            {| entry_content := content;
               semantic_score := 0;
               keyword_score := normalized_score * keyword_weight;
               metadata :=
                 default no_metadata (_documents_metadata self !! doc_idx) |}
            results
      | Some e =>
          dict_set content
            {| entry_content := entry_content e;
               semantic_score := semantic_score e;
               keyword_score := normalized_score * keyword_weight;
               metadata := metadata e |} results
      end
  end.

(** Step 1 of [hybrid_search]: the entries after the semantic search. *)
Definition semantic_entries (query : json) (k : Z) (semantic_weight : R)
  : dict Entry :=
  match rag_system with
  | None => []
  | Some retrieve_relevant_context =>
      match retrieve_relevant_context query (k * 2)%Z with
      | None => []
      | Some semantic_results =>
          foldl (semantic_step (length semantic_results) semantic_weight)
                [] (enumerate semantic_results)
      end
  end.

(** Step 2 of [hybrid_search]: the entries after the keyword search. *)
Definition keyword_entries (self : t) (query : json) (k : Z)
    (keyword_weight : R) (results : dict Entry) : dict Entry :=
  if BM25._initialized (bm25 self) then
    match bm25_search self query (k * 2)%Z with
    | None => results
    | Some bm25_results =>
        foldl (keyword_step self (max_score bm25_results) keyword_weight)
              results bm25_results
    end
  else results.

(** Step 3 of [hybrid_search]: one result per entry. *)
Definition combine_entry (item : string * Entry) : RetrievalResult :=
  let '(content, data) := item in
  {| content := content;
     source := default "unknown" (doc_source_file (metadata data));
     page := doc_page (metadata data);
     book_title := default "Unknown" (doc_book_title (metadata data));
     relevance_score := semantic_score data + keyword_score data;
     retrieval_method := "hybrid" |}.

Definition hybrid_entries (self : t) (query : json) (k : Z)
    (semantic_weight keyword_weight : R) : dict Entry :=
  keyword_entries self query k keyword_weight
    (semantic_entries query k semantic_weight).

(** [hybrid_search] *)
Definition hybrid_search (self : t) (query : json) (k : Z)
    (semantic_weight keyword_weight : R) : list RetrievalResult :=
  let results := hybrid_entries self query k semantic_weight keyword_weight in
  let combined := map combine_entry results in
  Py.take k (sort_desc relevance_score combined).

(** The [try] block of the loop of [rerank_results] up to [new_score];
    [None] when anything in it raises. *)
Definition judge (generate_content : nat -> string -> option string)
    (call : nat) (query : string) (result : RetrievalResult) : option R :=
  let prompt := RERANK_PROMPT query (Str.take 500 (content result)) in
  text ← generate_content call prompt;
  let response_text := Str.strip text in
  let response_text :=
    if Str.contains "```json" response_text
    then Str.before "```" (Str.between "```json" response_text)
    else response_text in
  data ← json_loads (Str.strip response_text);
  new_score ← json_get data "relevance_score" (JNum 0.5);
  json_number new_score.

(** One turn of the loop of [rerank_results]. *)
Definition rerank_one (generate_content : nat -> string -> option string)
    (call : nat) (query : string) (item : nat * RetrievalResult)
  : RetrievalResult :=
  let '(i, result) := item in
  match judge generate_content (call + i) query result with
  | Some new_score =>
      {| content := content result;
         source := source result;
         page := page result;
         book_title := book_title result;
         relevance_score := (relevance_score result + new_score) / 2;
         retrieval_method := retrieval_method result |}
  | None => result
  end.

(** [rerank_results]; [call] is the number of model calls made before. *)
Definition rerank_results (call : nat) (query : string)
    (results : list RetrievalResult) (top_k : Z) : list RetrievalResult :=
  match model, results with
  | None, _ | _, [] => Py.take top_k results
  | Some generate_content, _ =>
      let reranked :=
        map (rerank_one generate_content call query) (enumerate results) in
      Py.take top_k (sort_desc relevance_score reranked)
  end.

(** The results of one expanded query in [retrieve_with_precision]; an
    exception of the semantic-only search is not caught. *)
Definition query_results (self : t) (q : json) (k : Z) (use_hybrid : bool)
  : option (list RetrievalResult) :=
  if use_hybrid then Some (hybrid_search self q (k * 2)%Z 0.7 0.3)
  else match rag_system with
       | Some retrieve_relevant_context =>
           raw_results ← retrieve_relevant_context q (k * 2)%Z;
           Some (map
                   (fun r =>
                      {| content := sem_content r;
                         source := default "unknown"
                                     (doc_source_file (sem_metadata r));
                         page := doc_page (sem_metadata r);
                         book_title := default "Unknown"
                                         (doc_book_title (sem_metadata r));
                         relevance_score := 0.5;
                         retrieval_method := "semantic" |})
                   raw_results)
       | None => Some []
       end.

(** One turn of the merge loop: a content seen before has its stored
    result boosted in place. *)
Definition merge_step (all_results : dict RetrievalResult)
    (result : RetrievalResult) : dict RetrievalResult :=
  match dict_get (content result) all_results with
  | None => dict_set (content result) result all_results
  | Some stored =>
      dict_set (content result)
        {| content := content stored;
           source := source stored;
           page := page stored;
           book_title := book_title stored;
           relevance_score :=
             relevance_score stored + relevance_score result * 0.5;
           retrieval_method := retrieval_method stored |}
        all_results
  end.

(** [all_results] after the loop over the expanded queries. *)
Definition merge_all (per_query : list (list RetrievalResult))
  : dict RetrievalResult :=
  foldl (foldl merge_step) [] per_query.

(** [merged_results], sorted. *)
Definition merged_results (per_query : list (list RetrievalResult))
  : list RetrievalResult :=
  sort_desc relevance_score (dict_values (merge_all per_query)).

(** The expanded queries of [retrieve_with_precision]. *)
Definition expanded_queries (query : string) (use_multi_query : bool)
  : list json :=
  if use_multi_query then generate_multi_queries 0 query else [JStr query].

(** Model calls made while the queries were expanded. *)
Definition calls_made (use_multi_query : bool) : nat :=
  match model with
  | Some _ => if use_multi_query then 1 else 0
  | None => 0
  end.

(** [retrieve_with_precision] *)
Definition retrieve_with_precision (self : t) (query : string) (k : Z)
    (use_multi_query use_hybrid use_rerank : bool)
  : option (list RetrievalResult) :=
  let queries := expanded_queries query use_multi_query in
  per_query ← mapM (fun q => query_results self q k use_hybrid) queries;
  let merged_results := merged_results per_query in
  Some (if use_rerank
        then rerank_results (calls_made use_multi_query) query
               (Py.take (k * 2) merged_results) k
        else Py.take k merged_results).

End Collaborators.

(** A citation [dict]. *)
Record Citation : Type := mkCitation {
  cite_index : nat;
  cite_source : string;
  cite_page : option Z;
  cite_book_title : string;
  cite_relevance : R
}.

Definition nl : string := String (ascii_of_nat 10) EmptyString.

(** The separator of the passages: a rule between two blank lines. *)
Definition CONTEXT_SEPARATOR : string := nl +:+ nl +:+ "---" +:+ nl +:+ nl.

(** [get_context_with_citations] *)
Definition get_context_with_citations (results : list RetrievalResult)
  : string * list Citation :=
  let context_parts := map content results in
  let citations :=
    map (fun item : nat * RetrievalResult =>
           let '(i, result) := item in
           {| cite_index := i;
              cite_source := source result;
              cite_page := page result;
              cite_book_title := book_title result;
              cite_relevance := relevance_score result |})
        (combine (seq 1 (length results)) results) in
  (Str.join CONTEXT_SEPARATOR context_parts, citations).

End Rag.

(** ** Regular-expression scans *)

Module Re.

(** Number of leading characters of [s] that satisfy [p]. *)
Fixpoint run (p : ascii -> bool) (s : string) : nat :=
  match s with
  | String c s' => if p c then S (run p s') else 0
  | EmptyString => 0
  end.

Definition newline : ascii := ascii_of_nat 10.
Definition is_newline (c : ascii) : bool := Ascii.eqb c newline.
Definition is_sentence_end (c : ascii) : bool :=
  Ascii.eqb c "." || Ascii.eqb c "!" || Ascii.eqb c "?".

(** Length of the match of each pattern at the head of [s], if any. *)

(** [\n\n+] *)
Definition paragraph_break (s : string) : option nat :=
  match s with
  | String c1 (String c2 s') =>
      if is_newline c1 && is_newline c2 then Some (2 + run is_newline s')
      else None
  | _ => None
  end.

(** [\n(?=[A-Z0-9])] *)
Definition line_start (s : string) : option nat :=
  match s with
  | String c1 (String c2 _) =>
      if is_newline c1 && (Str.is_upper c2 || Str.is_digit c2) then Some 1
      else None
  | _ => None
  end.

(** [\. (?=[A-Z])] *)
Definition period_capital (s : string) : option nat :=
  match s with
  | String c1 (String c2 (String c3 _)) =>
      if Ascii.eqb c1 "." && Ascii.eqb c2 " " && Str.is_upper c3 then Some 2
      else None
  | _ => None
  end.

(** [[.!?]\s+] *)
Definition sentence_end (s : string) : option nat :=
  match s with
  | String c s' =>
      if is_sentence_end c then
        match run Str.is_space s' with
        | O => None
        | n => Some (1 + n)
        end
      else None
  | EmptyString => None
  end.

(** [[m.end() for m in re.finditer(pattern, s)]], the text being read from
    position [pos], of which the next [skip] characters belong to the
    previous match. *)
Fixpoint match_ends (pattern : string -> option nat) (pos skip : nat)
    (s : string) : list nat :=
  match s with
  | EmptyString => []
  | String _ s' =>
      match skip with
      | S k => match_ends pattern (S pos) k s'
      | O =>
          match pattern s with
          | Some (S len) => (pos + S len) :: match_ends pattern (S pos) len s'
          | _ => match_ends pattern (S pos) 0 s'
          end
      end
  end.

(** [re.split(pattern, s)]: the head of the result is the piece under
    construction. *)
Fixpoint split (pattern : string -> option nat) (skip : nat) (s : string)
  : list string :=
  match s with
  | EmptyString => [EmptyString]
  | String c s' =>
      match skip with
      | S k => split pattern k s'
      | O =>
          match pattern s with
          | Some (S len) => EmptyString :: split pattern len s'
          | _ =>
              match split pattern 0 s' with
              | piece :: pieces => String c piece :: pieces
              | [] => [String c EmptyString]
              end
          end
      end
  end.

End Re.

(** ** Semantic chunker of [rag_precision.py] ([class SemanticChunker]) *)

Module SemanticChunker.

Record t : Type := mk {
  min_chunk_size : Z;
  max_chunk_size : Z;
  overlap_percentage : Q
}.

(** [SemanticChunker()] *)
Definition create : t :=
  {| min_chunk_size := 300; max_chunk_size := 600;
     overlap_percentage := 15 # 100 |}.

(** A chunk [dict]. *)
Record Chunk : Type := mkChunk {
  content : string;
  start : Z;
  end_ : nat;
  tokens : nat
}.

(** [_estimate_tokens] *)
Definition _estimate_tokens (text : string) : nat := String.length text / 4.

Definition insert_uniq (x : nat) : list nat -> list nat :=
  fix go (l : list nat) : list nat :=
    match l with
    | [] => [x]
    | y :: l' =>
        if x <? y then x :: l else if x =? y then l else y :: go l'
    end.

(** [sorted(set(l))] *)
Definition sorted_set (l : list nat) : list nat := foldr insert_uniq [] l.

(** [_find_semantic_boundaries] *)
Definition _find_semantic_boundaries (text : string) : list nat :=
  let patterns :=
    [Re.paragraph_break; Re.line_start; Re.period_capital; Re.sentence_end] in
  let boundaries :=
    [0] ++ flat_map (fun pattern => Re.match_ends pattern 0 0 text) patterns
        ++ [String.length text] in
  sorted_set boundaries.

(** [int(x)]: the fraction is dropped. *)
Definition int (x : Q) : Z := Z.quot (Qnum x) (Zpos (Qden x)).

(** The loop state of [chunk]: [chunks], [current_chunk_start] and
    [current_chunk_text]. *)
Record State : Type := mkState {
  chunks : list Chunk;
  current_chunk_start : Z;
  current_chunk_text : string
}.

(** One turn of the loop of [chunk], between the boundaries [previous] and
    [boundary]. *)
Definition chunk_step (self : t) (text : string) (st : State)
    (bounds : nat * nat) : State :=
  let '(previous, boundary) := bounds in
  let segment := Str.slice previous boundary text in
  let potential_chunk := current_chunk_text st +:+ segment in
  let tokens := _estimate_tokens potential_chunk in
  if (Z.of_nat tokens >? max_chunk_size self)%Z then
    let chunks :=
      if Str.nonempty (Str.strip (current_chunk_text st))
      then chunks st ++
           [ {| content := Str.strip (current_chunk_text st);
                start := current_chunk_start st;
                end_ := previous;
                tokens := _estimate_tokens (current_chunk_text st) |} ]
      else chunks st in
    let overlap_size :=
      int (inject_Z (Z.of_nat (String.length (current_chunk_text st)))
           * overlap_percentage self) in
    let overlap_text :=
      if (overlap_size >? 0)%Z
      then Str.last_n (Z.to_nat overlap_size) (current_chunk_text st)
      else EmptyString in
    {| chunks := chunks;
       current_chunk_start :=
         (Z.of_nat previous - Z.of_nat (String.length overlap_text))%Z;
       current_chunk_text := overlap_text +:+ segment |}
  else
    {| chunks := chunks st;
       current_chunk_start := current_chunk_start st;
       current_chunk_text := potential_chunk |}.

(** The pairs [(boundaries[i-1], boundaries[i])] for [i = 1, 2, ...]. *)
Definition consecutive (boundaries : list nat) : list (nat * nat) :=
  combine boundaries (tail boundaries).

(** The final chunk, added after the loop. *)
Definition finish (text : string) (st : State) : list Chunk :=
  if Str.nonempty (Str.strip (current_chunk_text st))
  then chunks st ++
       [ {| content := Str.strip (current_chunk_text st);
            start := current_chunk_start st;
            end_ := String.length text;
            tokens := _estimate_tokens (current_chunk_text st) |} ]
  else chunks st.

(** The loop of [chunk] over given boundaries. *)
Definition chunk_loop (self : t) (text : string) (boundaries : list nat)
  : State :=
  foldl (chunk_step self text)
        {| chunks := []; current_chunk_start := 0;
           current_chunk_text := EmptyString |}
        (consecutive boundaries).

(** [chunk] *)
Definition chunk (self : t) (text : string) : list Chunk :=
  finish text (chunk_loop self text (_find_semantic_boundaries text)).

End SemanticChunker.

(** ** Sentence chunker of [load_kb_enhanced.py] ([class SemanticChunker]) *)

Module LoadKb.

Definition CHUNK_SIZE : Z := 800.
Definition CHUNK_OVERLAP : Z := 150.
Definition MIN_CHUNK_SIZE : Z := 100.

(** A chunk [dict]; its ['type'] is always ['content']. *)
Record Chunk : Type := mkChunk {
  content : string;
  type : string;
  heading : option string
}.

(** [split_into_sentences] *)
Definition split_into_sentences (text : string) : list string :=
  let sentences := Re.split Re.sentence_end 0 text in
  map Str.strip (filter (fun s => Str.nonempty (Str.strip s) = true) sentences).

Section Chunker.

(** [find_headings]: the heading matches of the text, by position. Its six
    patterns are not embedded; the chunker is modelled for any such
    function. *)
Variable find_headings : string -> list (nat * string).

(** [get_heading_for_position] *)
Fixpoint get_heading_for_position (headings : list (nat * string))
    (last_heading : option string) (pos : nat) : option string :=
  match headings with
  | [] => last_heading
  | (h_pos, h_text) :: rest =>
      if h_pos <=? pos
      then get_heading_for_position rest (Some h_text) pos
      else last_heading
  end.

(** The sentences kept as overlap: [rest] holds the sentences still to be
    looked at, last one first. *)
Fixpoint overlap_loop (overlap : Z) (rest : list string)
    (overlap_sentences : list string) (overlap_size : nat)
  : list string * nat :=
  match rest with
  | [] => (overlap_sentences, overlap_size)
  | s :: rest' =>
      if (Z.of_nat (overlap_size + String.length s) <=? overlap)%Z
      then overlap_loop overlap rest' (s :: overlap_sentences)
             (overlap_size + String.length s)
      else (overlap_sentences, overlap_size)
  end.

(** The loop state of [semantic_chunk]. *)
Record State : Type := mkState {
  chunks : list Chunk;
  current_chunk : list string;
  current_size : nat;
  current_heading : option string;
  char_position : nat
}.

(** One turn of the loop over the sentences. *)
Definition sentence_step (headings : list (nat * string))
    (target_size min_size overlap : Z) (st : State) (sentence : string)
  : State :=
  let sentence_len := String.length sentence in
  let closing :=
    (Z.of_nat (current_size st + sentence_len) >? target_size)%Z
    && (Z.of_nat (current_size st) >=? min_size)%Z in
  let chunk_text := Str.join " " (current_chunk st) in
  let chunks :=
    if closing && Str.nonempty (Str.strip chunk_text)
    then chunks st ++
         [ {| content := chunk_text; type := "content";
              heading := current_heading st |} ]
    else chunks st in
  let '(kept, kept_size) :=
    if closing then overlap_loop overlap (rev (current_chunk st)) [] 0
    else (current_chunk st, current_size st) in
  let heading := get_heading_for_position headings None (char_position st) in
  let current_heading :=
    match heading with
    | Some h => if Str.nonempty h then heading else current_heading st
    | None => current_heading st
    end in
  {| chunks := chunks;
     current_chunk := kept ++ [sentence];
     current_size := kept_size + sentence_len;
     current_heading := current_heading;
     char_position := char_position st + sentence_len + 1 |}.

(** The last chunk, added after the loop. *)
Definition finish (min_size : Z) (st : State) : list Chunk :=
  match current_chunk st with
  | [] => chunks st
  | _ =>
      let chunk_text := Str.join " " (current_chunk st) in
      if Str.nonempty (Str.strip chunk_text)
         && (Z.of_nat (String.length chunk_text) >=? min_size)%Z
      then chunks st ++
           [ {| content := chunk_text; type := "content";
                heading := current_heading st |} ]
      else chunks st
  end.

Definition chunk_loop (headings : list (nat * string))
    (target_size min_size overlap : Z) (sentences : list string) : State :=
  foldl (sentence_step headings target_size min_size overlap)
        {| chunks := []; current_chunk := []; current_size := 0;
           current_heading := None; char_position := 0 |}
        sentences.

(** [semantic_chunk] *)
Definition semantic_chunk (text : string) (target_size min_size overlap : Z)
  : list Chunk :=
  let sentences := split_into_sentences text in
  let headings := find_headings text in
  finish min_size (chunk_loop headings target_size min_size overlap sentences).

End Chunker.

(** *** [class EnhancedEmbeddingGenerator] *)

(** What one call of [genai.embed_content] does: it raises an exception with
    the given text, or it returns a response, which holds an embedding under
    the key ["embedding"] or lacks the key. *)
Inductive EmbedOutcome : Type :=
  | EmbedRaises (error_str : string)
  | EmbedResponse (embedding : option (list R)).

(** The generator together with the part of the world it acts on: the number
    of API calls made so far and the waits of [time.sleep], in seconds, oldest
    first. *)
Record Generator : Type := mkGenerator {
  model : string;
  request_count : nat;
  max_retries : nat;
  api_calls : nat;
  slept : list nat
}.

(** [EnhancedEmbeddingGenerator(model)] in a world without calls. *)
Definition new_generator (model : string) : Generator :=
  {| model := model; request_count := 0; max_retries := 3; api_calls := 0;
     slept := [] |}.

(** One more API call has been made. *)
Definition called (self : Generator) : Generator :=
  {| model := model self; request_count := request_count self;
     max_retries := max_retries self; api_calls := S (api_calls self);
     slept := slept self |}.

(** [self.request_count += 1] *)
Definition counted (self : Generator) : Generator :=
  {| model := model self; request_count := S (request_count self);
     max_retries := max_retries self; api_calls := api_calls self;
     slept := slept self |}.

(** [time.sleep(wait_time)] *)
Definition sleep (wait_time : nat) (self : Generator) : Generator :=
  {| model := model self; request_count := request_count self;
     max_retries := max_retries self; api_calls := api_calls self;
     slept := slept self ++ [wait_time] |}.

(** The test of the [except] branch for a rate-limit error. *)
Definition is_rate_limit (error_str : string) : bool :=
  Str.contains "429" error_str
  || Str.contains "quota" (Str.lower error_str)
  || Str.contains "rate" (Str.lower error_str).

(** [str(e)] for the [KeyError] of [response['embedding']]. *)
Definition key_error : string := "'embedding'".

(** [text[:8000]] *)
Definition truncate (text : string) : string := Str.take (Z.to_nat 8000) text.

Section Embedding.

(** [genai.embed_content(model=, content=, task_type=)], the first argument
    counting the calls made before. *)
Variable embed_content : nat -> string -> string -> string -> EmbedOutcome.

(** The body of the [try]: the embedding it returns, or the text of the
    exception it raises. *)
Definition try_embed (text task_type : string) (self : Generator)
  : (list R + string) * Generator :=
  match embed_content (api_calls self) (model self) text task_type with
  | EmbedRaises error_str => (inr error_str, called self)
  | EmbedResponse response =>
      let self := counted (called self) in
      match response with
      | Some embedding => (inl embedding, self)
      | None => (inr key_error, self)
      end
  end.

(** The loop of [generate_single] over the attempts that are left. *)
Fixpoint attempts (text task_type : string) (rest : list nat) (self : Generator)
  : option (list R) * Generator :=
  match rest with
  | [] => (None, self)
  | attempt :: rest' =>
      let text := truncate text in
      let '(outcome, self) := try_embed text task_type self in
      match outcome with
      | inl embedding => (Some embedding, self)
      | inr error_str =>
          if is_rate_limit error_str then
            let wait_time := 2 ^ attempt * 10 in
            attempts text task_type rest' (sleep wait_time self)
          else (None, self)
      end
  end.

(** [generate_single] *)
Definition generate_single (text task_type : string) (self : Generator)
  : option (list R) * Generator :=
  attempts text task_type (seq 0 (max_retries self)) self.

(** [generate_batch] *)
Fixpoint generate_batch (texts : list string) (task_type : string)
    (self : Generator) : list (option (list R)) * Generator :=
  match texts with
  | [] => ([], self)
  | text :: texts' =>
      let '(embedding, self) := generate_single text task_type self in
      let '(embeddings, self) := generate_batch texts' task_type self in
      (embedding :: embeddings, self)
  end.

(** The text [generate_with_context] embeds. *)
Definition enriched_text (content title heading : string)
    (topics : list string) : string :=
  let context_parts :=
    (if Str.nonempty title then ["Sách: " +:+ title] else [])
    ++ (if Str.nonempty heading then ["Phần: " +:+ heading] else [])
    ++ (match topics with
        | [] => []
        | _ => ["Chủ đề: " +:+ Str.join ", " (firstn 3 topics)]
        end) in
  match context_parts with
  | [] => content
  | _ =>
      Str.join " | " context_parts +:+ String (ascii_of_nat 10)
        (String (ascii_of_nat 10) content)
  end.

(** [generate_with_context]; a missing [topics] is the empty list. *)
Definition generate_with_context (content title heading : string)
    (topics : list string) (self : Generator)
  : option (list R) * Generator :=
  generate_single (enriched_text content title heading topics)
    "RETRIEVAL_DOCUMENT" self.

End Embedding.

(** *** [class ChunkSummarizer] *)

(** The prompt of [summarize] for the passage [content[:2000]]. *)
Definition SUMMARY_PROMPT (max_length : Z) (passage : string) : string :=
  "Tóm tắt đoạn văn sau trong 1-2 câu ngắn gọn (tối đa "
  +:+ pretty max_length +:+ " từ).
Chỉ trả về câu tóm tắt, không giải thích thêm.

Đoạn văn:
" +:+ passage +:+ "

Tóm tắt:".

Section Summarizer.

(** [self.model.generate_content(prompt).text] of an enabled summarizer;
    [None] when the call or reading the reply raises. *)
Variable generate_content : string -> option string.

(** [summarize]; [enabled] is [self.enabled]. *)
Definition summarize (enabled : bool) (content : string) (max_length : Z)
  : option string :=
  if negb enabled then None
  else if String.length content <? 200 then None
  else
    let prompt := SUMMARY_PROMPT max_length (Str.take 2000 content) in
    text ← generate_content prompt;
    let summary := Str.strip text in
    let words := Str.fields summary in
    Some (if (Z.of_nat (length words) >? max_length)%Z
          then Str.join " " (Py.take max_length words) +:+ "..."
          else summary).

End Summarizer.

End LoadKb.

(** * Notions used in the statements *)

(** Number of documents whose tokens include [token]. *)
Definition containing (token : string) (documents : list string) : nat :=
  length (filter (fun d => token ∈ BM25._tokenize d) documents).

(** [token] is one of the tokens of the corpus. *)
Definition indexed (token : string) (documents : list string) : Prop :=
  exists d, d ∈ documents /\ token ∈ BM25._tokenize d.

(** The parameters of an index are in the usual range and every stored
    inverse document frequency is positive. *)
Definition sound (self : BM25.t) : Prop :=
  (0 <= BM25.k1 self)%R /\ (0 <= BM25.b self <= 1)%R
  /\ map_Forall (fun _ v => (0 < v)%R) (BM25.idf self).

(** The ranking [rerank_results] cuts to [top_k]: the candidates as they are
    without a model or without candidates, the sorted rescored candidates
    otherwise. *)
Definition ranking (json_loads : string -> option Py.json)
    (model : option (nat -> string -> option string)) (call : nat)
    (query : string) (results : list Rag.RetrievalResult)
  : list Rag.RetrievalResult :=
  Rag.rerank_results json_loads model call query results
    (Z.of_nat (length results)).

(** The judge call for the candidate at position [i] raises. *)
Definition judge_fails (json_loads : string -> option Py.json)
    (model : option (nat -> string -> option string)) (call : nat)
    (query : string) (i : nat) (result : Rag.RetrievalResult) : Prop :=
  match model with
  | Some generate_content =>
      Rag.judge json_loads generate_content (call + i) query result = None
  | None => False
  end.

(** A retrieval result for the examples. *)
Definition sample_result (content : string) (score : R) : Rag.RetrievalResult :=
  {| Rag.content := content; Rag.source := "unknown"; Rag.page := None;
     Rag.book_title := "Unknown"; Rag.relevance_score := score;
     Rag.retrieval_method := "hybrid" |}.

(** A model whose every call raises, and a [json.loads] that always raises. *)
Definition failing_model : nat -> string -> option string := fun _ _ => None.
Definition failing_loads : string -> option Py.json := fun _ => None.

(** Scores, in order, of the results in [l] whose content is [c]. *)
Definition occurrences (c : string) (l : list Rag.RetrievalResult) : list R :=
  map Rag.relevance_score (filter (fun r => Rag.content r = c) l).

(** The score a query gives the document [c]: that of its first result with
    this content, if it retrieved the document at all. *)
Definition score_in (c : string) (l : list Rag.RetrievalResult) : option R :=
  head (occurrences c l).

(** One score per query that retrieved [c], in query order. *)
Definition query_scores (c : string)
    (per_query : list (list Rag.RetrievalResult)) : list R :=
  omap (score_in c) per_query.

(** [x1 + x2 + ...] *)
Definition total (l : list R) : R := foldr Rplus 0%R l.

(** The score from the first query plus 0.5 times the score from each
    additional one. *)
Definition boosted (scores : list R) : option R :=
  match scores with
  | [] => None
  | first :: additional => Some (first + 0.5 * total additional)%R
  end.

(** The merged score as the specification words it. *)
Definition consensus_score (c : string)
    (per_query : list (list Rag.RetrievalResult)) : option R :=
  boosted (query_scores c per_query).

(** The keys of a result dict are distinct, and each result is stored under
    its own content. *)
Definition keyed_by_content (d : Py.dict Rag.RetrievalResult) : Prop :=
  NoDup (map fst d)
  /\ forall k v, Py.dict_get k d = Some v -> Rag.content v = k.

(** A semantic search that returns one document twice, whatever the query. *)
Definition duplicating_search : Py.json -> Z -> option (list Rag.SemResult) :=
  fun _ _ => Some [Rag.SemText "a"; Rag.SemText "a"].

(** A BM25 score divided by the maximum of its batch, as [hybrid_search]
    normalizes it. *)
Definition normalized (max_bm25_score bm25_score : R) : R :=
  if Py.truthy max_bm25_score then (bm25_score / max_bm25_score)%R else 0%R.

(** The contents the BM25 results stand for. *)
Definition keyword_contents (self : Rag.t) (bm25_results : list (nat * R))
  : list string :=
  omap (fun item => Rag._documents_cache self !! fst item) bm25_results.

(** A semantic search that returns the two documents "lo au" and "stress",
    whatever the query. *)
Definition double_search : Py.json -> Z -> option (list Rag.SemResult) :=
  fun _ _ => Some [Rag.SemText "lo au"; Rag.SemText "stress"].

(** A semantic search that returns the one document "lo au", and the
    document itself. *)
Definition single_search : Py.json -> Z -> option (list Rag.SemResult) :=
  fun _ _ => Some [Rag.SemText "lo au"].
Definition single_document : Rag.Document :=
  Rag.mkDoc (Some "lo au") None None None.

(** Total length of a list of sentences. *)
Definition sum_len (l : list string) : nat :=
  foldr (fun s n => String.length s + n) 0 l.

(** [overlap_text] in [chunk]: the last [int(len(current) *
    overlap_percentage)] characters of the running text, and nothing when
    that number is not positive. *)
Definition overlap_of (self : SemanticChunker.t) (current : string) : string :=
  let overlap_size :=
    SemanticChunker.int
      (inject_Z (Z.of_nat (String.length current))
       * SemanticChunker.overlap_percentage self) in
  if (overlap_size >? 0)%Z
  then Str.last_n (Z.to_nat overlap_size) current
  else EmptyString.

(** The texts [current_chunk_text] runs through: the empty text; a running
    text with the next segment, when the two are within [max_chunk_size]
    estimated tokens; and otherwise the overlap of the running text with the
    next segment. *)
Inductive running (self : SemanticChunker.t) (text : string)
  : string -> Prop :=
  | running_start : running self text EmptyString
  | running_grow current previous boundary :
      running self text current ->
      (previous, boundary)
      ∈ SemanticChunker.consecutive
          (SemanticChunker._find_semantic_boundaries text) ->
      (Z.of_nat (SemanticChunker._estimate_tokens
                   (current +:+ Str.slice previous boundary text))
       <= SemanticChunker.max_chunk_size self)%Z ->
      running self text (current +:+ Str.slice previous boundary text)
  | running_restart current previous boundary :
      running self text current ->
      (previous, boundary)
      ∈ SemanticChunker.consecutive
          (SemanticChunker._find_semantic_boundaries text) ->
      (SemanticChunker.max_chunk_size self
       < Z.of_nat (SemanticChunker._estimate_tokens
                     (current +:+ Str.slice previous boundary text)))%Z ->
      running self text
        (overlap_of self current +:+ Str.slice previous boundary text).

(** The text [raw] was started when a segment did not fit: it is the
    overlap of the running text [current] followed by that one segment. *)
Definition restarted (self : SemanticChunker.t) (text raw : string) : Prop :=
  exists current previous boundary,
    running self text current
    /\ (previous, boundary)
       ∈ SemanticChunker.consecutive
           (SemanticChunker._find_semantic_boundaries text)
    /\ (SemanticChunker.max_chunk_size self
        < Z.of_nat (SemanticChunker._estimate_tokens
                      (current +:+ Str.slice previous boundary text)))%Z
    /\ raw = overlap_of self current +:+ Str.slice previous boundary text.

(** A chunk made from the running text [raw], which is within
    [max_chunk_size] unless it was just restarted. *)
Definition made_from (self : SemanticChunker.t) (text : string)
    (c : SemanticChunker.Chunk) : Prop :=
  exists raw,
    SemanticChunker.content c = Str.strip raw
    /\ SemanticChunker.tokens c = SemanticChunker._estimate_tokens raw
    /\ ((Z.of_nat (SemanticChunker._estimate_tokens raw)
         <= SemanticChunker.max_chunk_size self)%Z
        \/ restarted self text raw).

(** The invariant of the loop of the sentence chunker. *)
Definition kb_invariant (min_size : Z) (st : LoadKb.State) : Prop :=
  LoadKb.current_size st = sum_len (LoadKb.current_chunk st)
  /\ Forall (fun c => (min_size <= Z.of_nat (String.length (LoadKb.content c)))%Z)
        (LoadKb.chunks st).

(** The sentences of a chunk are within the target, or all but the last of
    them are few: none, less than [min_size] characters, or within the
    overlap. *)
Definition within_target (target_size min_size overlap : Z)
    (l : list string) : Prop :=
  (Z.of_nat (sum_len l) <= target_size)%Z
  \/ exists front final,
       l = front ++ [final]
       /\ (front = []
           \/ (Z.of_nat (sum_len front) < min_size)%Z
           \/ (Z.of_nat (sum_len front) <= overlap)%Z).

(** A chunk of the sentences [l] of the text. *)
Definition sized (text : string) (target_size min_size overlap : Z)
    (c : LoadKb.Chunk) : Prop :=
  exists l,
    LoadKb.content c = Str.join " " l
    /\ String.length (LoadKb.content c) = sum_len l + (length l - 1)
    /\ (forall s, s ∈ l -> s ∈ LoadKb.split_into_sentences text)
    /\ within_target target_size min_size overlap l.

(** The invariant of the loop of the sentence chunker for the sizes. *)
Definition size_invariant (text : string) (target_size min_size overlap : Z)
    (st : LoadKb.State) : Prop :=
  LoadKb.current_size st = sum_len (LoadKb.current_chunk st)
  /\ (LoadKb.current_chunk st = []
      \/ within_target target_size min_size overlap (LoadKb.current_chunk st))
  /\ (forall s, s ∈ LoadKb.current_chunk st ->
                s ∈ LoadKb.split_into_sentences text)
  /\ Forall (sized text target_size min_size overlap) (LoadKb.chunks st).

(** The results are in descending order of score. *)
Definition descending (l : list Rag.RetrievalResult) : Prop :=
  StronglySorted
    (fun x y => (Rag.relevance_score y <= Rag.relevance_score x)%R) l.

(** The result [hybrid_search] makes of the semantic result of rank [i]
    among [total] when the keyword search adds nothing to it. *)
Definition semantic_result (total : nat) (semantic_weight : R)
    (item : nat * Rag.SemResult) : Rag.RetrievalResult :=
  {| Rag.content := Rag.sem_content (snd item);
     Rag.source :=
       default "unknown" (Rag.doc_source_file (Rag.sem_metadata (snd item)));
     Rag.page := Rag.doc_page (Rag.sem_metadata (snd item));
     Rag.book_title :=
       default "Unknown" (Rag.doc_book_title (Rag.sem_metadata (snd item)));
     Rag.relevance_score :=
       ((1 - INR (fst item) / INR total) * semantic_weight)%R;
     Rag.retrieval_method := "hybrid" |}.

(** The citation of the result [r] under the number [i]. *)
Definition citation_of (i : nat) (r : Rag.RetrievalResult) : Rag.Citation :=
  {| Rag.cite_index := i; Rag.cite_source := Rag.source r;
     Rag.cite_page := Rag.page r; Rag.cite_book_title := Rag.book_title r;
     Rag.cite_relevance := Rag.relevance_score r |}.

(** [_simple_query_expansion] over a table of synonyms. *)
Definition expansion_from (table : list (string * list string))
    (query : string) : list string :=
  let query_lower := Str.lower query in
  firstn 3
    (flat_map
       (fun '(term, synonyms) =>
          if Str.contains term query_lower
          then map (fun syn => Str.replace term syn query_lower)
                   (firstn 2 synonyms)
          else [])
       table).

(** The characters of a string. *)
Fixpoint letters (s : string) : list ascii :=
  match s with
  | EmptyString => []
  | String c s' => c :: letters s'
  end.

(** The chunk is the stripped text between its offsets, and its token
    count is the estimate of that stretch. *)
Definition faithful (text : string) (c : SemanticChunker.Chunk) : Prop :=
  exists s : nat,
    SemanticChunker.start c = Z.of_nat s
    /\ s < SemanticChunker.end_ c <= String.length text
    /\ SemanticChunker.content c
       = Str.strip (Str.slice s (SemanticChunker.end_ c) text)
    /\ SemanticChunker.content c <> EmptyString
    /\ SemanticChunker.tokens c = (SemanticChunker.end_ c - s) / 4.

(** [c1] starts no later than [c2] and ends before it. *)
Definition advances (c1 c2 : SemanticChunker.Chunk) : Prop :=
  (SemanticChunker.start c1 <= SemanticChunker.start c2)%Z
  /\ SemanticChunker.end_ c1 < SemanticChunker.end_ c2.

(** The invariant of the loop of [chunk] in front of the boundary [p]. *)
Definition chunk_invariant (text : string) (p : nat)
    (st : SemanticChunker.State) : Prop :=
  exists s : nat,
    SemanticChunker.current_chunk_start st = Z.of_nat s
    /\ s <= p
    /\ SemanticChunker.current_chunk_text st = Str.slice s p text
    /\ Forall (faithful text) (SemanticChunker.chunks st)
    /\ StronglySorted advances (SemanticChunker.chunks st)
    /\ Forall (fun c => (SemanticChunker.start c <= Z.of_nat s)%Z
                        /\ SemanticChunker.end_ c < p)
         (SemanticChunker.chunks st).

(** The chunk holds the sentences [l], which follow one another in
    [sentences]. *)
Definition run_of (sentences : list string) (c : LoadKb.Chunk) : Prop :=
  exists before l after,
    sentences = before ++ l ++ after /\ l <> []
    /\ LoadKb.content c = Str.join " " l.

(** The invariant of the loop of [semantic_chunk] after the sentences
    [seen]. *)
Definition run_invariant (seen : list string) (st : LoadKb.State) : Prop :=
  (exists before, seen = before ++ LoadKb.current_chunk st)
  /\ Forall (fun c => run_of seen c /\ LoadKb.type c = "content")
       (LoadKb.chunks st).

(** The cache and the metadata of an object hold the documents of the index,
    position by position. *)
Definition aligned (self : Rag.t) : Prop :=
  length (Rag._documents_cache self) = length (Rag._documents_metadata self)
  /\ BM25.doc_count (Rag.bm25 self) = length (Rag._documents_cache self)
  /\ Rag._documents_cache self
     = map (fun doc => default EmptyString (Rag.doc_content doc))
           (Rag._documents_metadata self).

(** The waits of the first [n] retries: 10, 20, 40, ... seconds. *)
Definition backoff (n : nat) : list nat :=
  map (fun attempt => 2 ^ attempt * 10) (seq 0 n).

(** An API that answers every call with a rate-limit error. *)
Definition rate_limited_api
  : nat -> string -> string -> string -> LoadKb.EmbedOutcome :=
  fun _ _ _ _ => LoadKb.EmbedRaises "429 Resource exhausted".

(** The embeddings of a batch that were obtained. *)
Definition obtained (embeddings : list (option (list R))) : list (list R) :=
  omap (fun embedding : option (list R) => embedding) embeddings.

(** A word: a non-empty string without white space. *)
Fixpoint spaceless (s : string) : bool :=
  match s with
  | EmptyString => true
  | String c s' => negb (Str.is_space c) && spaceless s'
  end.
Definition is_field (w : string) : Prop :=
  w <> EmptyString /\ spaceless w = true.

(** A model that always answers "mot hai ba", and a passage of 239
    characters. *)
Definition three_words : string -> option string :=
  fun _ => Some "mot hai ba".
Definition long_passage : string :=
  Str.join " " (replicate 40 "lo au").

(** The chunk spans the position [q] of the text. *)
Definition covers (c : SemanticChunker.Chunk) (q : nat) : Prop :=
  (SemanticChunker.start c <= Z.of_nat q)%Z /\ q < SemanticChunker.end_ c.

(** Every character in front of [p] that is not white space is spanned by a
    chunk or by the running text. *)
Definition coverage (text : string) (p : nat) (st : SemanticChunker.State)
  : Prop :=
  forall q c,
    q < p -> String.get q text = Some c -> Str.is_space c = false ->
    (exists chunk, chunk ∈ SemanticChunker.chunks st /\ covers chunk q)
    \/ (SemanticChunker.current_chunk_start st <= Z.of_nat q)%Z.

(** The header [generate_with_context] puts in front of the content: the
    parts joined by [" | "] and followed by an empty line, or nothing when
    there is no part. *)
Definition context_header (title heading : string) (topics : list string)
  : string :=
  let context_parts :=
    (if Str.nonempty title then ["Sách: " +:+ title] else [])
    ++ (if Str.nonempty heading then ["Phần: " +:+ heading] else [])
    ++ (match topics with
        | [] => []
        | _ => ["Chủ đề: " +:+ Str.join ", " (firstn 3 topics)]
        end) in
  match context_parts with
  | [] => EmptyString
  | _ =>
      Str.join " | " context_parts
      +:+ String (ascii_of_nat 10) (String (ascii_of_nat 10) EmptyString)
  end.

(** What the last call of [generate_single] did, when the retries were not
    used up: it returned a response, whose embedding is the result, or it
    raised an error that is no rate-limit error. *)
Definition last_call (outcome : LoadKb.EmbedOutcome)
    (embedding : option (list R)) (self after : LoadKb.Generator) : Prop :=
  match outcome with
  | LoadKb.EmbedRaises error_str =>
      LoadKb.is_rate_limit error_str = false /\ embedding = None
      /\ LoadKb.request_count after = LoadKb.request_count self
  | LoadKb.EmbedResponse response =>
      embedding = response
      /\ LoadKb.request_count after = S (LoadKb.request_count self)
  end.

(** * Properties *)

(** ** Slices and the stable sort *)

Section SortFacts.
Context {A : Type} (key : A -> R).

Lemma insert_desc_length (x : A) (l : list A) :
  length (Py.insert_desc key x l) = S (length l).
Proof.
  induction l as [|y l IH]; simpl; [done|].
  destruct (Rlt_dec (key x) (key y)); simpl; auto.
Qed.

Lemma sort_desc_length (l : list A) :
  length (Py.sort_desc key l) = length l.
Proof.
  induction l as [|x l IH]; simpl; [done|].
  unfold Py.sort_desc in IH. rewrite insert_desc_length. auto.
Qed.

Lemma insert_desc_perm (x : A) (l : list A) :
  Permutation (x :: l) (Py.insert_desc key x l).
Proof.
  induction l as [|y l IH]; simpl; [done|].
  destruct (Rlt_dec (key x) (key y)); [|done].
  rewrite perm_swap. by constructor.
Qed.

Lemma sort_desc_perm (l : list A) : Permutation l (Py.sort_desc key l).
Proof.
  induction l as [|x l IH]; simpl; [done|].
  rewrite <- insert_desc_perm. by constructor.
Qed.

Lemma sort_desc_elem (x : A) (l : list A) :
  x ∈ Py.sort_desc key l <-> x ∈ l.
Proof. by rewrite <- sort_desc_perm. Qed.

Section Stable.
Variable before : A -> A -> Prop.

Lemma precedes_key (x y : A) :
  Py.precedes key before x y -> (key y <= key x)%R.
Proof. intros [H|[H _]]; lra. Qed.

Lemma insert_desc_sorted (x : A) (l : list A) :
  Forall (before x) l ->
  StronglySorted (Py.precedes key before) l ->
  StronglySorted (Py.precedes key before) (Py.insert_desc key x l).
Proof.
  induction l as [|y l IH]; intros Hx Hs; simpl.
  - repeat constructor.
  - apply StronglySorted_inv in Hs as [Hs Hy].
    apply Forall_cons_1 in Hx as [Hxy Hx].
    destruct (Rlt_dec (key x) (key y)) as [Hlt|Hge].
    + constructor; [by apply IH|].
      apply Forall_forall. intros z Hz.
      rewrite <- insert_desc_perm in Hz.
      apply elem_of_cons in Hz as [->|Hz].
      * by left.
      * by eapply Forall_forall in Hy.
    + constructor; [by constructor|].
      constructor.
      * destruct (Req_dec_T (key x) (key y)); [by right|left; lra].
      * apply Forall_forall. intros z Hz.
        assert (key z <= key y)%R.
        { apply precedes_key. by eapply Forall_forall in Hy. }
        destruct (Req_dec_T (key x) (key z)).
        -- right. split; [done|]. by eapply Forall_forall in Hx.
        -- left. lra.
Qed.

(** The stable sort puts the keys in decreasing order and leaves
    elements of equal key in their input order. *)
Lemma sort_desc_sorted (l : list A) :
  StronglySorted before l ->
  StronglySorted (Py.precedes key before) (Py.sort_desc key l).
Proof.
  induction 1 as [|x l Hs IH Hx]; [constructor|].
  change (Py.sort_desc key (x :: l))
    with (Py.insert_desc key x (Py.sort_desc key l)).
  apply insert_desc_sorted; [|exact IH].
  apply Forall_forall. intros z Hz.
  rewrite sort_desc_elem in Hz. rewrite Forall_forall in Hx. by apply Hx.
Qed.
End Stable.
End SortFacts.

Lemma take_length {A : Type} (k : Z) (l : list A) :
  (0 <= k)%Z -> length (Py.take k l) = Nat.min (Z.to_nat k) (length l).
Proof.
  intros Hk. unfold Py.take.
  destruct (Z.leb_spec 0 k); [|lia]. apply length_firstn.
Qed.

Lemma take_nil {A : Type} (k : Z) : Py.take k (@nil A) = [].
Proof. unfold Py.take. destruct (0 <=? k)%Z; apply firstn_nil. Qed.

Lemma take_prefix {A : Type} (k : Z) (l : list A) :
  exists n, Py.take k l = firstn n l.
Proof. unfold Py.take. destruct (0 <=? k)%Z; eauto. Qed.

Lemma take_elem {A : Type} (k : Z) (l : list A) (x : A) :
  x ∈ Py.take k l -> x ∈ l.
Proof.
  destruct (take_prefix k l) as [n ->]. apply subseteq_take.
Qed.

Lemma StronglySorted_firstn {A : Type} (R : A -> A -> Prop) (n : nat)
    (l : list A) :
  StronglySorted R l -> StronglySorted R (firstn n l).
Proof.
  intros Hs. revert n.
  induction Hs as [|x l Hs IH Hx]; intros [|n]; simpl; try constructor.
  - apply IH.
  - apply Forall_forall. intros z Hz.
    rewrite Forall_forall in Hx. by apply Hx, (subseteq_take n).
Qed.

Lemma StronglySorted_lookup {A : Type} (R : A -> A -> Prop) (l : list A)
    (i j : nat) (x y : A) :
  StronglySorted R l -> i < j -> l !! i = Some x -> l !! j = Some y -> R x y.
Proof.
  intros Hs. revert i j.
  induction Hs as [|z l Hs IH Hz]; intros i j Hij Hi Hj; [done|].
  destruct j as [|j]; [lia|]. simpl in Hj.
  destruct i as [|i]; simpl in Hi.
  - injection Hi as ->. eapply Forall_forall in Hz; [done|].
    apply list_elem_of_lookup. eauto.
  - eapply IH; [|done..]. lia.
Qed.

(** ** BM25 *)

Lemma incr_lookup (t t' : string) (c : gmap string nat) :
  BM25.incr t c !! t'
  = if decide (t = t') then Some (S (default 0%nat (c !! t))) else c !! t'.
Proof. unfold BM25.incr. by rewrite lookup_insert. Qed.

(** A [Counter] holds the tokens it was built from, each at least once. *)
Lemma Counter_lookup (tokens : list string) (t : string) (n : nat) :
  BM25.Counter tokens !! t = Some n -> 1 <= n /\ t ∈ tokens.
Proof.
  revert n. induction tokens as [|t' l IH]; intros n; simpl.
  - by rewrite lookup_empty.
  - rewrite incr_lookup. case_decide as Heq.
    + intros [= <-]. subst. split; [lia|by left].
    + intros H. apply IH in H as [? ?]. split; [done|by right].
Qed.

Lemma count_doc_lookup (df : gmap string nat) (tokens : list string)
    (t : string) :
  BM25.count_doc df tokens !! t
  = if decide (t ∈ tokens) then Some (S (default 0%nat (df !! t)))
    else df !! t.
Proof.
  unfold BM25.count_doc.
  assert (Hnd : NoDup (remove_dups tokens)) by apply NoDup_remove_dups.
  assert (Hin : forall x, x ∈ remove_dups tokens <-> x ∈ tokens)
    by (intros; apply elem_of_remove_dups).
  case_decide as Ht; rewrite <- Hin in Ht; clear Hin;
    induction Hnd as [|t' l Hnotin Hnd IH]; simpl;
    rewrite ?incr_lookup.
  - by apply elem_of_nil in Ht.
  - case_decide as Heq.
    + subst t'. do 3 f_equal.
      clear IH Ht. induction l as [|u l IHl]; simpl; [done|].
      rewrite incr_lookup. apply not_elem_of_cons in Hnotin as [? ?].
      apply NoDup_cons in Hnd as [? ?].
      case_decide; [congruence|]. by apply IHl.
    + apply elem_of_cons in Ht as [?|Ht]; [congruence|]. by apply IH.
  - done.
  - apply not_elem_of_cons in Ht as [? ?].
    case_decide; [congruence|]. by apply IH.
Qed.

(** Documents of [tokenized] whose tokens include [t]. *)
Lemma count_docs_lookup (tokenized : list (list string)) (t : string)
    (df : gmap string nat) :
  foldl BM25.count_doc df tokenized !! t
  = match length (filter (fun toks => t ∈ toks) tokenized) with
    | O => df !! t
    | n => Some (n + default 0%nat (df !! t))
    end.
Proof.
  revert df. induction tokenized as [|toks l IH]; intros df; simpl; [done|].
  rewrite IH, count_doc_lookup. rewrite filter_cons.
  case_decide as Hin; simpl.
  - destruct (length (filter _ l)); simpl; [done|]. f_equal. lia.
  - done.
Qed.

Lemma containing_tokenized (t : string) (documents : list string) :
  length (filter (fun toks => t ∈ toks) (map BM25._tokenize documents))
  = containing t documents.
Proof.
  unfold containing. induction documents as [|d l IH]; simpl; [done|].
  rewrite !filter_cons. case_decide; simpl; by rewrite IH.
Qed.

Lemma containing_le (t : string) (documents : list string) :
  containing t documents <= length documents.
Proof. apply length_filter. Qed.

Lemma indexed_containing (t : string) (documents : list string) :
  indexed t documents <-> 1 <= containing t documents.
Proof.
  unfold indexed, containing. induction documents as [|d l IH].
  - simpl. split; [intros (? & H & _); by apply elem_of_nil in H|lia].
  - rewrite filter_cons. case_decide as Hd; simpl.
    + split; [lia|]. intros _. exists d. split; [by left|done].
    + rewrite <- IH. split.
      * intros (d' & [->|H]%elem_of_cons & H'); [done|eauto].
      * intros (d' & H & H'). exists d'. split; [by right|done].
Qed.

(** The stored value is the logarithm of a number above one. *)
Lemma idf_value_pos (n freq : nat) :
  freq <= n -> (0 < BM25.idf_value n freq)%R.
Proof.
  intros Hle. unfold BM25.idf_value.
  assert (Hf : (0 <= INR freq)%R) by apply pos_INR.
  assert (Hn : (INR freq <= INR n)%R) by by apply le_INR.
  rewrite <- ln_1. apply ln_increasing; [lra|].
  assert (0 < (INR n - INR freq + 0.5) / (INR freq + 0.5))%R; [|lra].
  apply Rdiv_lt_0_compat; lra.
Qed.

Lemma fit_idf_lookup (self : BM25.t) (documents : list string) (t : string) :
  indexed t documents ->
  BM25.idf (BM25.fit self documents) !! t
  = Some (BM25.idf_value (length documents) (containing t documents)).
Proof.
  intros Hin%indexed_containing. simpl.
  apply lookup_union_Some_l. rewrite lookup_fmap, count_docs_lookup.
  rewrite containing_tokenized, lookup_empty.
  destruct (containing t documents) as [|n] eqn:E; [lia|].
  simpl. do 2 f_equal. lia.
Qed.

Lemma Rdiv_nonneg (a b : R) : (0 <= a)%R -> (0 < b)%R -> (0 <= a / b)%R.
Proof.
  intros Ha Hb. unfold Rdiv. apply Rmult_le_pos; [done|].
  left. by apply Rinv_0_lt_compat.
Qed.

Lemma total_len_ge (doc_len : list nat) (i n : nat) :
  doc_len !! i = Some n -> n <= BM25.total_len doc_len.
Proof.
  revert i. induction doc_len as [|m l IH]; intros [|i]; simpl; try done.
  - intros [= ->]. lia.
  - intros H%IH. lia.
Qed.

Lemma sound_create : sound BM25.create.
Proof.
  unfold sound, BM25.create; simpl.
  repeat split; try lra. apply map_Forall_empty.
Qed.

Lemma sound_fit (self : BM25.t) (documents : list string) :
  sound self -> sound (BM25.fit self documents).
Proof.
  intros (Hk & Hb & Hidf). unfold sound; simpl. repeat split; try tauto.
  intros t v [Hv|[_ Hv]]%lookup_union_Some_raw; [|by eapply Hidf].
  rewrite lookup_fmap, count_docs_lookup, containing_tokenized,
    lookup_empty in Hv.
  pose proof (containing_le t documents).
  destruct (containing t documents) as [|n] eqn:E; [done|].
  simpl in Hv. injection Hv as <-. apply idf_value_pos. lia.
Qed.

(** A turn of the scoring loop does not raise when the length average is
    positive and the parameters are in range; it adds a non-negative term
    when the stored frequencies are positive. *)
Lemma score_step_some (self : BM25.t) (freqs : gmap string nat) (len : nat)
    (r0 : R) (token : string) :
  (0 <= BM25.k1 self)%R -> (0 <= BM25.b self <= 1)%R ->
  (forall f, freqs !! token = Some f -> 1 <= f /\ (0 < BM25.avgdl self)%R) ->
  exists r, BM25.score_step self freqs len (Some r0) token = Some r
            /\ (map_Forall (fun _ v => (0 < v)%R) (BM25.idf self) ->
                (r0 <= r)%R).
Proof.
  intros Hk Hb Hf. unfold BM25.score_step; simpl.
  destruct (freqs !! token) as [f|] eqn:E; [|exists r0; split; [done|lra]].
  destruct (Hf f eq_refl) as [Hf1 Havg].
  destruct (Req_dec_T (BM25.avgdl self) 0) as [?|_]; [lra|].
  assert (Hfr : (1 <= INR f)%R) by (change 1%R with (INR 1); by apply le_INR).
  assert (Hlen : (0 <= INR len)%R) by apply pos_INR.
  assert (Hq : (0 <= BM25.b self * INR len / BM25.avgdl self)%R).
  { apply Rdiv_nonneg; [|done]. apply Rmult_le_pos; lra. }
  set (d := (INR f + BM25.k1 self
                     * (1 - BM25.b self
                        + BM25.b self * INR len / BM25.avgdl self))%R).
  assert (Hd : (1 <= d)%R).
  { unfold d.
    assert (0 <= BM25.k1 self
                 * (1 - BM25.b self
                    + BM25.b self * INR len / BM25.avgdl self))%R; [|lra].
    apply Rmult_le_pos; lra. }
  destruct (Req_dec_T d 0) as [?|_]; [lra|].
  eexists; split; [done|]. intros Hidf.
  assert (0 <= default 0 (BM25.idf self !! token)
               * (INR f * (BM25.k1 self + 1)) / d)%R; [|lra].
  apply Rdiv_nonneg; [|lra].
  apply Rmult_le_pos; [|apply Rmult_le_pos; lra].
  destruct (BM25.idf self !! token) as [v|] eqn:Ev; simpl; [|lra].
  apply Hidf in Ev. lra.
Qed.

Lemma score_loop_some (self : BM25.t) (freqs : gmap string nat) (len : nat)
    (tokens : list string) (r0 : R) :
  (0 <= BM25.k1 self)%R -> (0 <= BM25.b self <= 1)%R ->
  (forall t f, freqs !! t = Some f -> 1 <= f /\ (0 < BM25.avgdl self)%R) ->
  exists r, foldl (BM25.score_step self freqs len) (Some r0) tokens = Some r
            /\ (map_Forall (fun _ v => (0 < v)%R) (BM25.idf self) ->
                (r0 <= r)%R).
Proof.
  intros Hk Hb Hf. revert r0.
  induction tokens as [|t l IH]; intros r0; cbn [foldl].
  - exists r0. split; [done|lra].
  - destruct (score_step_some self freqs len r0 t Hk Hb (Hf t))
      as (r1 & -> & H1).
    destruct (IH r1) as (r & -> & H2).
    exists r. split; [done|]. intros H. specialize (H1 H). specialize (H2 H).
    lra.
Qed.

(** Scoring a document of a fitted index does not raise. *)
Lemma score_fit_some (self : BM25.t) (documents : list string)
    (query : string) (i : nat) :
  (0 <= BM25.k1 self)%R -> (0 <= BM25.b self <= 1)%R ->
  i < length documents ->
  exists r, BM25.score (BM25.fit self documents) query (Z.of_nat i) = Some r
            /\ (sound self -> (0 <= r)%R).
Proof.
  intros Hk Hb Hi.
  destruct (lookup_lt_is_Some_2 documents i Hi) as [d Hd].
  unfold BM25.score. cbn [BM25._initialized BM25.fit negb].
  unfold Py.index. destruct (Z.leb_spec 0 (Z.of_nat i)); [|lia].
  rewrite Nat2Z.id. cbn [BM25.doc_freqs BM25.doc_len BM25.fit].
  rewrite !list_lookup_fmap, Hd. simpl.
  set (S := BM25.fit self documents).
  destruct (score_loop_some S (BM25.Counter (BM25._tokenize d))
              (length (BM25._tokenize d)) (BM25._tokenize query) 0)
    as (r & Hr & Hpos); try done.
  - intros t f [Hf Hin]%Counter_lookup. split; [done|].
    unfold S; simpl. destruct documents as [|d0 l] eqn:El; [done|].
    rewrite <- El in *. destruct (length documents) eqn:En; [by subst|].
    assert (1 <= length (BM25._tokenize d)).
    { destruct (BM25._tokenize d); [by apply elem_of_nil in Hin|simpl; lia]. }
    assert (length (BM25._tokenize d)
            <= BM25.total_len (map length (map BM25._tokenize documents))).
    { apply (total_len_ge _ i). by rewrite !list_lookup_fmap, Hd. }
    apply Rdiv_lt_0_compat.
    + apply (lt_INR 0). lia.
    + apply (lt_INR 0). lia.
  - exists r. split; [done|]. intros Hs.
    apply Hpos. by apply (sound_fit self documents).
Qed.

Lemma mapM_indexed {B : Type} (g : nat -> option B) (P : B -> Prop)
    (l : list nat) :
  (forall i, i ∈ l -> exists r, g i = Some r /\ P r) ->
  exists k, mapM (fun i => s ← g i; Some (i, s)) l = Some k
            /\ map fst k = l /\ Forall (fun p => P (snd p)) k.
Proof.
  induction l as [|i l IH]; intros H.
  - exists []. by repeat split.
  - destruct (H i) as (r & Hr & HP); [by left|].
    destruct IH as (k & Hk & Hfst & HF); [intros; apply H; by right|].
    exists ((i, r) :: k). cbn [mapM]. rewrite Hr. cbn. rewrite Hk. cbn.
    repeat split; [by f_equal|by constructor].
Qed.

Lemma mapM_indexed_fst {B : Type} (g : nat -> option B) (l : list nat)
    (k : list (nat * B)) :
  mapM (fun i => s ← g i; Some (i, s)) l = Some k -> map fst k = l.
Proof.
  revert k. induction l as [|i l IH]; intros k; cbn [mapM].
  - by intros [= <-].
  - destruct (g i) as [r|]; [|done]. cbn.
    destruct (mapM _ l) as [k'|]; [|done]. cbn. intros [= <-].
    simpl. f_equal. by apply IH.
Qed.

(** The scores of a fitted index: one per document, in document order. *)
Lemma scores_fit_some (self : BM25.t) (documents : list string)
    (query : string) :
  (0 <= BM25.k1 self)%R -> (0 <= BM25.b self <= 1)%R ->
  exists l, BM25.scores (BM25.fit self documents) query = Some l
            /\ map fst l = seq 0 (length documents)
            /\ (sound self -> Forall (fun p => (0 <= snd p)%R) l).
Proof.
  intros Hk Hb. unfold BM25.scores. cbn [BM25.doc_count BM25.fit].
  destruct (mapM_indexed
              (fun i => BM25.score (BM25.fit self documents) query (Z.of_nat i))
              (fun r => sound self -> (0 <= r)%R)
              (seq 0 (length documents))) as (l & Hl & Hfst & HF).
  - intros i Hi%elem_of_seq. apply score_fit_some; [done..|lia].
  - exists l. repeat split; [done..|]. intros Hs.
    eapply Forall_impl; [exact HF|]. simpl. auto.
Qed.

Lemma ascending_fst {B : Type} (l : list (nat * B)) (a n : nat) :
  map fst l = seq a n ->
  StronglySorted (fun p q => fst p < fst q) l.
Proof.
  revert a n. induction l as [|p l IH]; intros a n H; [constructor|].
  destruct n as [|n]; [done|]. simpl in H. injection H as Hp Hl.
  constructor; [by eapply IH|].
  apply Forall_forall. intros q Hq.
  assert (fst q ∈ seq (S a) n) as Hin%elem_of_seq
    by (rewrite <- Hl; by apply list_elem_of_fmap_2).
  lia.
Qed.

(** Whatever [search] returns is a slice of the stable sort of the scores. *)
Lemma search_sorted (self : BM25.t) (query : string) (top_k : Z)
    (res : list (nat * R)) :
  BM25.search self query top_k = Some res ->
  StronglySorted (Py.precedes snd (fun p q => fst p < fst q)) res.
Proof.
  unfold BM25.search. destruct (negb _); [intros [= <-]; constructor|].
  destruct (BM25.scores self query) as [l|] eqn:E; [|done].
  cbn. intros [= <-].
  destruct (take_prefix top_k (Py.sort_desc snd l)) as [n ->].
  apply StronglySorted_firstn, sort_desc_sorted.
  unfold BM25.scores in E. apply mapM_indexed_fst in E.
  by eapply ascending_fst.
Qed.

Lemma search_fit_some (self : BM25.t) (documents : list string)
    (query : string) (top_k : Z) :
  (0 <= BM25.k1 self)%R -> (0 <= BM25.b self <= 1)%R ->
  exists l, BM25.scores (BM25.fit self documents) query = Some l
            /\ length l = length documents
            /\ BM25.search (BM25.fit self documents) query top_k
               = Some (Py.take top_k (Py.sort_desc snd l)).
Proof.
  intros Hk Hb.
  destruct (scores_fit_some self documents query Hk Hb) as (l & Hl & Hfst & _).
  exists l. repeat split; [done| |].
  - rewrite <- (length_map fst), Hfst. apply length_seq.
  - unfold BM25.search. cbn [BM25._initialized BM25.fit negb]. by rewrite Hl.
Qed.

(** Claim C1, as amended. On an index whose [fit] was never called, [score]
    returns 0.0 for every query and every document index, and [search]
    returns the empty list; neither raises. A search of an index fitted on
    an empty corpus returns the empty list as well, but [score] raises on
    it for every document index: there is no document to look up. *)
Theorem unfitted_index_contributes_nothing (k1 b : R) (query : string)
    (i top_k : Z) (self : BM25.t) :
  BM25.score (BM25.new k1 b) query i = Some 0%R
  /\ BM25.search (BM25.new k1 b) query top_k = Some []
  /\ BM25.search (BM25.fit self []) query top_k = Some []
  /\ BM25.score (BM25.fit self []) query i = None.
Proof.
  split; [reflexivity|]. split; [reflexivity|]. split.
  - unfold BM25.search, BM25.scores. cbn. by rewrite take_nil.
  - unfold BM25.score, Py.index. cbn [BM25._initialized BM25.fit negb].
    cbn [BM25.doc_freqs BM25.fit map length].
    destruct (0 <=? i)%Z; [by destruct (Z.to_nat i)|].
    destruct (_ <=? i)%Z; [|done]. by destruct (Z.to_nat _).
Qed.

(** Claim C1 as stated fails: an index fitted on an empty corpus is an
    error for [score], which raises [IndexError] at [self.doc_freqs[0]]. *)
Lemma empty_index_score_raises :
  BM25.score (BM25.fit BM25.create []) "lo au" 0 = None.
Proof. reflexivity. Qed.

(** Claim C7, as amended. After [fit] on [N] documents the stored inverse
    document frequency of every token of the corpus is
    [ln((N - df + 0.5)/(df + 0.5) + 1)], [df] being the number of documents
    that contain the token, and this value is strictly positive. *)
Theorem fit_idf_formula (self : BM25.t) (documents : list string)
    (token : string) :
  indexed token documents ->
  let N := INR (length documents) in
  let df := INR (containing token documents) in
  BM25.idf (BM25.fit self documents) !! token
  = Some (ln ((N - df + 0.5) / (df + 0.5) + 1))
  /\ (0 < ln ((N - df + 0.5) / (df + 0.5) + 1))%R.
Proof.
  intros Hin. split.
  - by apply fit_idf_lookup.
  - apply (idf_value_pos (length documents) (containing token documents)).
    apply containing_le.
Qed.

Lemma fit_idf_formula_witness :
  BM25.idf (BM25.fit BM25.create ["lo au"; "lo"]) !! "lo"
  = Some (ln ((INR 2 - INR (containing "lo" ["lo au"; "lo"]) + 0.5)
              / (INR (containing "lo" ["lo au"; "lo"]) + 0.5) + 1))
  /\ (0 < ln ((INR 2 - INR (containing "lo" ["lo au"; "lo"]) + 0.5)
              / (INR (containing "lo" ["lo au"; "lo"]) + 0.5) + 1))%R.
Proof.
  apply (fit_idf_formula BM25.create ["lo au"; "lo"] "lo").
  exists "lo au". split; [apply list_elem_of_here|].
  vm_compute. apply list_elem_of_here.
Defined.

(** Claim C7 as stated fails: no corpus has a token, present in the
    majority of the documents, whose stored value is negative. *)
Lemma idf_is_never_negative :
  ~ exists (self : BM25.t) (documents : list string) (token : string) (v : R),
      length documents < 2 * containing token documents
      /\ BM25.idf (BM25.fit self documents) !! token = Some v
      /\ (v < 0)%R.
Proof.
  intros (self & documents & token & v & Hmaj & Hv & Hneg).
  assert (Hin : indexed token documents) by (apply indexed_containing; lia).
  rewrite (fit_idf_lookup self documents token Hin) in Hv.
  injection Hv as <-.
  pose proof (idf_value_pos (length documents) (containing token documents)
                (containing_le token documents)).
  lra.
Qed.

(** Claim C8, as amended. On a fitted index, whatever [search] returns for
    [top_k >= 0] holds at most [top_k] pairs; their scores decrease, and of
    two pairs with equal scores the one with the smaller document index
    comes first. With [k1 >= 0] and [0 <= b <= 1] (the defaults are 1.5 and
    0.75) the search does return: no score divides by zero. *)
Theorem search_ranked (self : BM25.t) (documents : list string)
    (query : string) (top_k : Z) :
  (0 <= top_k)%Z ->
  (forall res,
     BM25.search (BM25.fit self documents) query top_k = Some res ->
     (Z.of_nat (length res) <= top_k)%Z
     /\ forall i j p q,
          i < j -> res !! i = Some p -> res !! j = Some q ->
          (snd q <= snd p)%R /\ (snd p = snd q -> fst p < fst q))
  /\ ((0 <= BM25.k1 self)%R -> (0 <= BM25.b self <= 1)%R ->
      exists res,
        BM25.search (BM25.fit self documents) query top_k = Some res).
Proof.
  intros Htop. split.
  - intros res Hres. split.
    + revert Hres. unfold BM25.search.
      destruct (negb _); [intros [= <-]; simpl; lia|].
      destruct (BM25.scores _ _) as [l|]; [|done]. cbn. intros [= <-].
      rewrite take_length by done. lia.
    + intros i j p q Hij Hp Hq.
      pose proof (search_sorted _ _ _ _ Hres) as Hs.
      pose proof (StronglySorted_lookup _ _ i j p q Hs Hij Hp Hq)
        as [H|[H1 H2]].
      * split; [lra|]. intros. lra.
      * split; [lra|done].
  - intros Hk Hb.
    destruct (search_fit_some self documents query top_k Hk Hb)
      as (l & _ & _ & Hres).
    eauto.
Qed.

Lemma search_ranked_witness :
  exists res,
    BM25.search (BM25.fit BM25.create ["lo au"; "lo"]) "lo" 1 = Some res
    /\ (Z.of_nat (length res) <= 1)%Z.
Proof.
  destruct (search_ranked BM25.create ["lo au"; "lo"] "lo" 1) as [Hres Hsome];
    [lia|].
  destruct Hsome as [res Hsearch]; [unfold BM25.create; simpl; lra..|].
  exists res. split; [exact Hsearch|]. apply (Hres res Hsearch).
Defined.

(** Claim C8 as stated fails for a negative [top_k]: the slice [[:-1]] of
    the two scored documents holds one pair, which is more than [top_k]. *)
Lemma search_negative_top_k :
  exists res,
    BM25.search (BM25.fit BM25.create ["lo au"; "lo"]) "lo" (-1) = Some res
    /\ length res = 1
    /\ ~ (Z.of_nat (length res) <= -1)%Z.
Proof.
  destruct (search_fit_some BM25.create ["lo au"; "lo"] "lo" (-1))
    as (l & _ & Hlen & Hres); [unfold BM25.create; simpl; lra..|].
  eexists. split; [exact Hres|].
  assert (length (Py.take (-1) (Py.sort_desc snd l)) = 1).
  { unfold Py.take. simpl. rewrite length_firstn, sort_desc_length, Hlen.
    reflexivity. }
  split; [done|lia].
Qed.

(** ** Multi-query generation *)

Lemma simple_expansion_length (query : string) :
  length (Rag._simple_query_expansion query) <= 3.
Proof. unfold Rag._simple_query_expansion. apply firstn_le_length. Qed.

(** Claim C4. [generate_multi_queries] returns, in every case, a list that
    starts with the original query and has between one and six elements.
    Without a model, and when the model call or the parsing of its reply
    raises, the list is the original query followed by the fallback
    expansion (at most three more queries); no path of the function raises. *)
Theorem generate_multi_queries_total (json_loads : string -> option Py.json)
    (model : option (nat -> string -> option string)) (call : nat)
    (original_query : string) :
  let queries := Rag.generate_multi_queries json_loads model call original_query in
  let fallback :=
    Py.JStr original_query
    :: map Py.JStr (Rag._simple_query_expansion original_query) in
  head queries = Some (Py.JStr original_query)
  /\ 1 <= length queries <= 6
  /\ length fallback <= 4
  /\ match model with
     | None => queries = fallback
     | Some generate_content =>
         match Rag.model_queries json_loads generate_content call
                 original_query with
         | None => queries = fallback
         | Some additional_queries =>
             queries = firstn 6 (Py.JStr original_query :: additional_queries)
         end
     end.
Proof.
  intros queries fallback.
  pose proof (simple_expansion_length original_query) as Hlen.
  assert (Hfb : length fallback <= 4)
    by (unfold fallback; simpl; rewrite length_map; lia).
  assert (Hfb1 : 1 <= length fallback) by (unfold fallback; simpl; lia).
  assert (H5 : firstn 5 fallback = fallback) by (apply firstn_all2; lia).
  assert (H6 : firstn 6 fallback = fallback) by (apply firstn_all2; lia).
  unfold queries, Rag.generate_multi_queries.
  destruct model as [generate_content|].
  - destruct (Rag.model_queries _ _ _ _) as [additional|].
    + simpl. repeat split; try done; try lia.
      pose proof (firstn_le_length 5 additional). lia.
    + change ([Py.JStr original_query] ++ _) with fallback. rewrite H6.
      repeat split; try done; lia.
  - change ([Py.JStr original_query] ++ _) with fallback. rewrite H5.
    repeat split; try done; lia.
Qed.

(** ** Reranking *)

Lemma enumerate_from_elem {A : Type} (l : list A) (a i : nat) (x : A) :
  (i, x) ∈ combine (seq a (length l)) l <-> a <= i /\ l !! (i - a) = Some x.
Proof.
  revert a. induction l as [|y l IH]; intros a; simpl.
  - split; [by intros ?%elem_of_nil|by intros [_ ?]].
  - rewrite elem_of_cons, IH. split.
    + intros [[= -> ->]|[Hle Hx]].
      * split; [lia|]. by rewrite Nat.sub_diag.
      * split; [lia|]. by replace (i - a) with (S (i - S a)) by lia.
    + intros [Hle Hx]. destruct (i - a) as [|n] eqn:E.
      * left. simpl in Hx. injection Hx as ->. f_equal. lia.
      * right. split; [lia|]. simpl in Hx. by replace (i - S a) with n by lia.
Qed.

Lemma enumerate_elem {A : Type} (l : list A) (i : nat) (x : A) :
  (i, x) ∈ Py.enumerate l <-> l !! i = Some x.
Proof.
  unfold Py.enumerate. rewrite enumerate_from_elem, Nat.sub_0_r.
  split; [by intros [_ ?]|]. split; [lia|done].
Qed.

Lemma enumerate_length {A : Type} (l : list A) :
  length (Py.enumerate l) = length l.
Proof.
  unfold Py.enumerate. rewrite length_combine, length_seq. lia.
Qed.

(** A rescored candidate differs from the candidate in its score at most,
    and not at all when its judge call raises. *)
Lemma rerank_one_spec (json_loads : string -> option Py.json)
    (generate_content : nat -> string -> option string) (call : nat)
    (query : string) (i : nat) (r : Rag.RetrievalResult) :
  let r' := Rag.rerank_one json_loads generate_content call query (i, r) in
  Rag.content r' = Rag.content r /\ Rag.source r' = Rag.source r
  /\ Rag.page r' = Rag.page r /\ Rag.book_title r' = Rag.book_title r
  /\ Rag.retrieval_method r' = Rag.retrieval_method r
  /\ match Rag.judge json_loads generate_content (call + i) query r with
     | Some new_score =>
         Rag.relevance_score r' = ((Rag.relevance_score r + new_score) / 2)%R
     | None => r' = r
     end.
Proof.
  unfold Rag.rerank_one. by destruct (Rag.judge _ _ _ _ _).
Qed.

Lemma rerank_results_take (json_loads : string -> option Py.json)
    (model : option (nat -> string -> option string)) (call : nat)
    (query : string) (results : list Rag.RetrievalResult) (top_k : Z) :
  (0 <= top_k)%Z ->
  Rag.rerank_results json_loads model call query results top_k
  = firstn (Z.to_nat top_k) (ranking json_loads model call query results)
  /\ length (ranking json_loads model call query results) = length results.
Proof.
  intros Hk. unfold ranking, Rag.rerank_results, Py.take.
  destruct (Z.leb_spec 0 top_k); [|lia].
  destruct (Z.leb_spec 0 (Z.of_nat (length results))); [|lia].
  rewrite Nat2Z.id.
  assert (H' : forall s : list Rag.RetrievalResult,
             length s = length results ->
             firstn (Z.to_nat top_k) s
             = firstn (Z.to_nat top_k) (firstn (length results) s)
             /\ length (firstn (length results) s) = length results).
  { intros s Hs. by rewrite <- Hs, firstn_all. }
  destruct model as [g|], results as [|r0 l]; apply H'; try done.
  by rewrite sort_desc_length, length_map, enumerate_length.
Qed.

Lemma take_all {A : Type} (l : list A) (n : nat) :
  length l = n -> Py.take (Z.of_nat n) l = l.
Proof.
  intros <-. unfold Py.take.
  destruct (Z.leb_spec 0 (Z.of_nat (length l))); [|lia].
  by rewrite Nat2Z.id, firstn_all.
Qed.

Lemma ranking_unfold (json_loads : string -> option Py.json)
    (model : option (nat -> string -> option string)) (call : nat)
    (query : string) (results : list Rag.RetrievalResult) :
  ranking json_loads model call query results
  = match model, results with
    | None, _ | _, [] => results
    | Some generate_content, _ =>
        Py.sort_desc Rag.relevance_score
          (map (Rag.rerank_one json_loads generate_content call query)
               (Py.enumerate results))
    end.
Proof.
  unfold ranking, Rag.rerank_results.
  destruct model as [g|], results as [|r0 l]; apply take_all; try done.
  by rewrite sort_desc_length, length_map, enumerate_length.
Qed.

Lemma ranking_elem (json_loads : string -> option Py.json)
    (model : option (nat -> string -> option string)) (call : nat)
    (query : string) (results : list Rag.RetrievalResult)
    (r' : Rag.RetrievalResult) :
  r' ∈ ranking json_loads model call query results
  <-> exists i r,
        results !! i = Some r
        /\ r' = match model with
                | Some generate_content =>
                    Rag.rerank_one json_loads generate_content call query (i, r)
                | None => r
                end.
Proof.
  rewrite ranking_unfold. destruct model as [g|].
  - destruct results as [|r0 l].
    + split; [by intros ?%elem_of_nil|by intros (i & r & H & _)].
    + rewrite sort_desc_elem, list_elem_of_fmap. split.
      * intros ([i r] & -> & Hin%enumerate_elem). eauto.
      * intros (i & r & Hin%enumerate_elem & ->). eauto.
  - rewrite list_elem_of_lookup. split.
    + intros [i Hi]. eauto.
    + intros (i & r & Hi & ->). eauto.
Qed.

(** Claim C3, as amended. For [top_k >= 0], [rerank_results] returns exactly
    [min(top_k, len(results))] items, whatever the judge calls do: the first
    [top_k] of a ranking that holds one item per candidate. A candidate whose
    judge call raises is in that ranking unchanged, and every returned item
    has the content, source, page, title and retrieval method of a candidate,
    its score being the candidate's own or the mean of it and the judged
    score. *)
Theorem rerank_keeps_candidates (json_loads : string -> option Py.json)
    (model : option (nat -> string -> option string)) (call : nat)
    (query : string) (results : list Rag.RetrievalResult) (top_k : Z) :
  (0 <= top_k)%Z ->
  let out := Rag.rerank_results json_loads model call query results top_k in
  let ranked := ranking json_loads model call query results in
  length out = Nat.min (Z.to_nat top_k) (length results)
  /\ out = firstn (Z.to_nat top_k) ranked
  /\ length ranked = length results
  /\ (forall i r,
        results !! i = Some r ->
        judge_fails json_loads model call query i r -> r ∈ ranked)
  /\ (forall r',
        r' ∈ out ->
        exists i r,
          results !! i = Some r
          /\ Rag.content r' = Rag.content r
          /\ Rag.retrieval_method r' = Rag.retrieval_method r
          /\ (judge_fails json_loads model call query i r -> r' = r)
          /\ (r' = r
              \/ exists new_score,
                   Rag.relevance_score r'
                   = ((Rag.relevance_score r + new_score) / 2)%R)).
Proof.
  intros Hk out ranked.
  destruct (rerank_results_take json_loads model call query results top_k Hk)
    as [Hout Hlen].
  fold out ranked in Hout, Hlen.
  split; [by rewrite Hout, length_firstn, Hlen|].
  split; [done|]. split; [done|]. split.
  - intros i r Hi Hfail. apply ranking_elem. exists i, r. split; [done|].
    destruct model as [g|]; [|done]. simpl in Hfail.
    unfold Rag.rerank_one. by rewrite Hfail.
  - intros r' Hin. rewrite Hout in Hin. apply subseteq_take in Hin.
    apply ranking_elem in Hin as (i & r & Hi & ->).
    exists i, r. split; [done|].
    destruct model as [g|]; [|by repeat split; auto].
    pose proof (rerank_one_spec json_loads g call query i r)
      as (Hc & _ & _ & _ & Hm & Hs).
    repeat split; [done..| |].
    + simpl. intros Hfail. by rewrite Hfail in Hs.
    + destruct (Rag.judge _ _ _ _ _) as [s|]; [right; eauto|by left].
Qed.

Lemma rerank_keeps_candidates_witness :
  let results := [sample_result "lo au" 0.9; sample_result "stress" 0.4] in
  length (Rag.rerank_results failing_loads (Some failing_model) 0 "lo au"
            results 1) = 1
  /\ sample_result "stress" 0.4
     ∈ ranking failing_loads (Some failing_model) 0 "lo au" results.
Proof.
  intros results.
  destruct (rerank_keeps_candidates failing_loads (Some failing_model) 0
              "lo au" results 1) as (Hlen & _ & _ & Hfail & _); [lia|].
  split; [exact Hlen|]. apply (Hfail 1); reflexivity.
Defined.

(** Claim C3 as stated fails for a negative [top_k]: of three candidates
    the slice [[:-1]] keeps two, which is not [min(-1, 3)]. *)
Lemma rerank_negative_top_k :
  let results :=
    [sample_result "a" 0.9; sample_result "b" 0.8; sample_result "c" 0.7] in
  let out := Rag.rerank_results failing_loads None 0 "q" results (-1) in
  out = [sample_result "a" 0.9; sample_result "b" 0.8]
  /\ Z.of_nat (length out) <> Z.min (-1) (Z.of_nat (length results)).
Proof. split; [reflexivity|]. simpl. lia. Qed.

(** ** The orchestrator and its argument [k] *)

Lemma mapM_None_elem {A B : Type} (f : A -> option B) (l : list A) :
  mapM f l = None -> exists x, x ∈ l /\ f x = None.
Proof.
  induction l as [|x l IH]; cbn [mapM]; [done|].
  destruct (f x) as [y|] eqn:E; [|exists x; split; [by left|done]].
  cbn. destruct (mapM f l) as [k|]; [done|].
  intros _. destruct IH as (x' & Hin & Hx'); [done|].
  exists x'. split; [by right|done].
Qed.

Lemma rerank_nothing (json_loads : string -> option Py.json)
    (model : option (nat -> string -> option string)) (call : nat)
    (query : string) (top_k : Z) :
  Rag.rerank_results json_loads model call query [] top_k = [].
Proof. unfold Rag.rerank_results. destruct model; apply take_nil. Qed.

(** Claim C10, as amended. [retrieve_with_precision] does not validate [k]:
    for every [k], also [k <= 0], it returns a result list, which is empty
    for [k = 0]; the only exception that reaches the caller is one raised by
    the semantic search of the collaborator when hybrid search is off. *)
Theorem no_validation_of_k (json_loads : string -> option Py.json)
    (model : option (nat -> string -> option string))
    (rag_system : option (Py.json -> Z -> option (list Rag.SemResult)))
    (self : Rag.t) (query : string) (k : Z)
    (use_multi_query use_hybrid use_rerank : bool) :
  match Rag.retrieve_with_precision json_loads model rag_system self query k
          use_multi_query use_hybrid use_rerank with
  | Some final_results => k = 0%Z -> final_results = []
  | None =>
      use_hybrid = false
      /\ exists retrieve_relevant_context q,
           rag_system = Some retrieve_relevant_context
           /\ q ∈ Rag.expanded_queries json_loads model query use_multi_query
           /\ retrieve_relevant_context q (k * 2)%Z = None
  end.
Proof.
  unfold Rag.retrieve_with_precision.
  destruct (mapM _ _) as [per_query|] eqn:E; cbn.
  - intros ->. change (0 * 2)%Z with 0%Z. change (Py.take 0 ?l) with (@nil Rag.RetrievalResult).
    destruct use_rerank; [apply rerank_nothing|done].
  - apply mapM_None_elem in E as (q & Hq & Hnone).
    unfold Rag.query_results in Hnone.
    destruct use_hybrid; [done|]. split; [done|].
    destruct rag_system as [retrieve|]; [|done].
    exists retrieve, q. repeat split; [done|].
    by destruct (retrieve q (k * 2)%Z).
Qed.

(** Claim C10 as stated fails: with [k = 0] and with [k = -1] the call
    returns the empty list instead of raising. *)
Lemma nonpositive_k_is_accepted :
  Rag.retrieve_with_precision failing_loads None None Rag.new "stress" 0
    true true true = Some []
  /\ Rag.retrieve_with_precision failing_loads None None Rag.new "stress" (-1)
       true true true = Some [].
Proof. split; reflexivity. Qed.

(** ** Insertion-ordered dicts *)

Lemma dict_get_set {V : Type} (key c : string) (v : V) (d : Py.dict V) :
  Py.dict_get c (Py.dict_set key v d)
  = if decide (key = c) then Some v else Py.dict_get c d.
Proof.
  induction d as [|[k w] d IH]; simpl.
  - destruct (String.eqb_spec key c); by case_decide.
  - destruct (String.eqb_spec k key) as [->|Hne]; simpl.
    + destruct (String.eqb_spec key c); by case_decide.
    + rewrite IH. destruct (String.eqb_spec k c) as [->|]; [|done].
      by case_decide.
Qed.

Lemma dict_set_keys {V : Type} (key : string) (v : V) (d : Py.dict V) :
  map fst (Py.dict_set key v d)
  = match Py.dict_get key d with
    | Some _ => map fst d
    | None => map fst d ++ [key]
    end.
Proof.
  induction d as [|[k w] d IH]; simpl; [done|].
  destruct (String.eqb_spec k key) as [->|Hne]; simpl; [done|].
  rewrite IH. by destruct (Py.dict_get key d).
Qed.

Lemma dict_get_keys {V : Type} (c : string) (d : Py.dict V) :
  c ∈ map fst d <-> is_Some (Py.dict_get c d).
Proof.
  induction d as [|[k w] d IH]; simpl.
  - split; [by intros ?%elem_of_nil|by intros [? ?]].
  - rewrite elem_of_cons, IH.
    destruct (String.eqb_spec k c) as [->|Hne].
    + split; [by eexists|by left].
    + split; [intros [?|?]; [congruence|done]|by right].
Qed.

Lemma dict_set_nodup {V : Type} (key : string) (v : V) (d : Py.dict V) :
  NoDup (map fst d) -> NoDup (map fst (Py.dict_set key v d)).
Proof.
  intros Hnd. rewrite dict_set_keys.
  destruct (Py.dict_get key d) eqn:E; [done|].
  apply NoDup_app. repeat split; [done| |apply NoDup_singleton].
  intros x Hx ->%list_elem_of_singleton.
  apply dict_get_keys in Hx as [? ?]. congruence.
Qed.

Lemma dict_elem_get {V : Type} (c : string) (v : V) (d : Py.dict V) :
  NoDup (map fst d) -> (c, v) ∈ d <-> Py.dict_get c d = Some v.
Proof.
  induction d as [|[k w] d IH]; simpl; intros Hnd.
  - split; [by intros ?%elem_of_nil|done].
  - apply NoDup_cons in Hnd as [Hk Hnd]. rewrite elem_of_cons, IH by done.
    destruct (String.eqb_spec k c) as [->|Hne].
    + split; [intros [[= ->]|Hin]; [done|]|intros [= ->]; by left].
      exfalso. apply Hk, dict_get_keys. by eexists.
    + split; [intros [[= ? ?]|?]; [congruence|done]|by right].
Qed.

Lemma foldl_concat {A B : Type} (f : A -> B -> A) (a : A) (ll : list (list B)) :
  foldl (foldl f) a ll = foldl f a (concat ll).
Proof.
  revert a. induction ll as [|l ll IH]; intros a; simpl; [done|].
  by rewrite foldl_app, IH.
Qed.

(** ** Merging across the expanded queries *)

Lemma boost_fold (s : R) (l : list R) :
  foldl (fun acc x => (acc + x * 0.5)%R) s l = (s + 0.5 * total l)%R.
Proof.
  revert s. induction l as [|x l IH]; intros s; simpl; [lra|].
  rewrite IH. lra.
Qed.

Lemma occurrences_cons (c : string) (r : Rag.RetrievalResult)
    (l : list Rag.RetrievalResult) :
  occurrences c (r :: l)
  = if decide (Rag.content r = c)
    then Rag.relevance_score r :: occurrences c l else occurrences c l.
Proof. unfold occurrences. rewrite filter_cons. by case_decide. Qed.

Lemma occurrences_app (c : string) (l1 l2 : list Rag.RetrievalResult) :
  occurrences c (l1 ++ l2) = occurrences c l1 ++ occurrences c l2.
Proof. unfold occurrences. by rewrite filter_app, map_app. Qed.

Lemma merge_step_get (d : Py.dict Rag.RetrievalResult)
    (r : Rag.RetrievalResult) (c : string) :
  exists r',
    Py.dict_get c (Rag.merge_step d r)
    = (if decide (Rag.content r = c) then Some r' else Py.dict_get c d)
    /\ Rag.content r' = Rag.content
                          (default r (Py.dict_get (Rag.content r) d))
    /\ Rag.relevance_score r'
       = match Py.dict_get (Rag.content r) d with
         | Some stored =>
             (Rag.relevance_score stored + Rag.relevance_score r * 0.5)%R
         | None => Rag.relevance_score r
         end.
Proof.
  unfold Rag.merge_step.
  destruct (Py.dict_get (Rag.content r) d) as [stored|] eqn:E;
    eexists; rewrite dict_get_set; split; try done; by simpl.
Qed.

Lemma merge_step_keyed (d : Py.dict Rag.RetrievalResult)
    (r : Rag.RetrievalResult) :
  keyed_by_content d -> keyed_by_content (Rag.merge_step d r).
Proof.
  intros [Hnd Hk]. split.
  - unfold Rag.merge_step. destruct (Py.dict_get _ d); by apply dict_set_nodup.
  - intros k v. destruct (merge_step_get d r k) as (r' & -> & Hc & _).
    case_decide as Heq; [|apply Hk]. intros [= <-]. rewrite Hc.
    destruct (Py.dict_get (Rag.content r) d) as [stored|] eqn:E; simpl.
    + rewrite <- Heq. by apply Hk.
    + done.
Qed.

Lemma merge_keyed (L : list Rag.RetrievalResult)
    (d : Py.dict Rag.RetrievalResult) :
  keyed_by_content d -> keyed_by_content (foldl Rag.merge_step d L).
Proof.
  revert d. induction L as [|r L IH]; intros d Hd; simpl; [done|].
  by apply IH, merge_step_keyed.
Qed.

(** What the merge loop leaves under a key: the first result with that
    content, its score raised by half the score of every later one. *)
Lemma merge_get (L : list Rag.RetrievalResult)
    (d : Py.dict Rag.RetrievalResult) (c : string) :
  match Py.dict_get c d, occurrences c L with
  | Some r0, occ =>
      exists r', Py.dict_get c (foldl Rag.merge_step d L) = Some r'
                 /\ Rag.relevance_score r'
                    = (Rag.relevance_score r0 + 0.5 * total occ)%R
  | None, [] => Py.dict_get c (foldl Rag.merge_step d L) = None
  | None, first :: later =>
      exists r', Py.dict_get c (foldl Rag.merge_step d L) = Some r'
                 /\ Rag.relevance_score r' = (first + 0.5 * total later)%R
  end.
Proof.
  revert d. induction L as [|r L IH]; intros d.
  - simpl. destruct (Py.dict_get c d) as [r0|]; [|done].
    exists r0. split; [done|]. unfold total; simpl. lra.
  - cbn [foldl]. rewrite occurrences_cons.
    specialize (IH (Rag.merge_step d r)).
    destruct (merge_step_get d r c) as (x & Hget & _ & Hx).
    rewrite Hget in IH. case_decide as Heq.
    + rewrite Heq in Hx. destruct IH as (r' & Hr' & Hs).
      destruct (Py.dict_get c d) as [r0|].
      * exists r'. split; [done|]. rewrite Hs, Hx. unfold total; simpl. lra.
      * exists r'. split; [done|]. by rewrite Hs, Hx.
    + exact IH.
Qed.

Lemma NoDup_firstn {A : Type} (n : nat) (l : list A) :
  NoDup l -> NoDup (firstn n l).
Proof.
  intros H. rewrite <- (firstn_skipn n l) in H.
  by apply NoDup_app in H as [? _].
Qed.

Lemma keyed_contents (d : Py.dict Rag.RetrievalResult) :
  keyed_by_content d -> map Rag.content (Py.dict_values d) = map fst d.
Proof.
  unfold Py.dict_values.
  induction d as [|[k v] d IH]; intros [Hnd Hk]; simpl; [done|].
  apply NoDup_cons in Hnd as [Hnotin Hnd]. f_equal.
  - apply Hk. simpl. by rewrite String.eqb_refl.
  - apply IH. split; [done|]. intros k' v' Hget. apply Hk. simpl.
    destruct (String.eqb_spec k k') as [->|]; [|done].
    exfalso. apply Hnotin, dict_get_keys. by eexists.
Qed.

Lemma merged_results_elem (per_query : list (list Rag.RetrievalResult))
    (r : Rag.RetrievalResult) :
  r ∈ Rag.merged_results per_query
  <-> Py.dict_get (Rag.content r)
        (foldl Rag.merge_step [] (concat per_query)) = Some r.
Proof.
  unfold Rag.merged_results, Rag.merge_all. rewrite sort_desc_elem, foldl_concat.
  set (d := foldl Rag.merge_step [] (concat per_query)).
  assert (Hd : keyed_by_content d).
  { apply merge_keyed. split; [constructor|done]. }
  unfold Py.dict_values. rewrite list_elem_of_fmap. split.
  - intros ([k v] & -> & Hin). simpl.
    apply dict_elem_get in Hin; [|apply Hd].
    by rewrite (proj2 Hd k v Hin).
  - intros Hget. exists (Rag.content r, r). split; [done|].
    apply dict_elem_get; [apply Hd|done].
Qed.

Lemma merged_results_nodup (per_query : list (list Rag.RetrievalResult)) :
  NoDup (map Rag.content (Rag.merged_results per_query)).
Proof.
  unfold Rag.merged_results, Rag.merge_all. rewrite foldl_concat.
  set (d := foldl Rag.merge_step [] (concat per_query)).
  assert (Hd : keyed_by_content d).
  { apply merge_keyed. split; [constructor|done]. }
  rewrite <- (sort_desc_perm Rag.relevance_score (Py.dict_values d)).
  rewrite keyed_contents by done. apply Hd.
Qed.

(** The merged score of a result: that of the first retrieved result with
    its content, plus half the score of every later one. *)
Lemma merged_results_score (per_query : list (list Rag.RetrievalResult))
    (r : Rag.RetrievalResult) :
  r ∈ Rag.merged_results per_query ->
  boosted (occurrences (Rag.content r) (concat per_query))
  = Some (Rag.relevance_score r).
Proof.
  intros Hget%merged_results_elem.
  pose proof (merge_get (concat per_query) [] (Rag.content r)) as H.
  simpl in H.
  destruct (occurrences (Rag.content r) (concat per_query)) as [|s later].
  - congruence.
  - destruct H as (r' & Hr' & Hs). simpl. f_equal.
    rewrite Hget in Hr'. injection Hr' as <-. by rewrite Hs.
Qed.

Lemma merged_results_complete (per_query : list (list Rag.RetrievalResult))
    (l : list Rag.RetrievalResult) (r0 : Rag.RetrievalResult) :
  l ∈ per_query -> r0 ∈ l ->
  exists r, r ∈ Rag.merged_results per_query
            /\ Rag.content r = Rag.content r0.
Proof.
  intros Hl Hr0.
  pose proof (merge_get (concat per_query) [] (Rag.content r0)) as H.
  simpl in H.
  assert (Hocc : Rag.relevance_score r0
                 ∈ occurrences (Rag.content r0) (concat per_query)).
  { unfold occurrences. apply list_elem_of_fmap. exists r0. split; [done|].
    apply list_elem_of_filter. split; [done|].
    apply list_elem_of_In, in_concat. exists l.
    by rewrite <- !list_elem_of_In. }
  destruct (occurrences _ _) as [|s later]; [by apply elem_of_nil in Hocc|].
  destruct H as (r' & Hr' & _).
  assert (Hk : keyed_by_content (foldl Rag.merge_step [] (concat per_query))).
  { apply merge_keyed. split; [constructor|done]. }
  pose proof (proj2 Hk _ _ Hr') as Hc.
  exists r'. split; [|done]. apply merged_results_elem. by rewrite Hc.
Qed.

Lemma semantic_step_nodup (total : nat) (w : R) (d : Py.dict Rag.Entry)
    (item : nat * Rag.SemResult) :
  NoDup (map fst d) -> NoDup (map fst (Rag.semantic_step total w d item)).
Proof.
  destruct item as [i x]. unfold Rag.semantic_step.
  destruct (Py.dict_get _ d); apply dict_set_nodup.
Qed.

Lemma keyword_step_nodup (self : Rag.t) (m w : R) (d : Py.dict Rag.Entry)
    (item : nat * R) :
  NoDup (map fst d) -> NoDup (map fst (Rag.keyword_step self m w d item)).
Proof.
  destruct item as [j s]. unfold Rag.keyword_step.
  destruct (_ !! j); [|done].
  destruct (Py.dict_get _ d); apply dict_set_nodup.
Qed.

Lemma foldl_invariant {A B : Type} (P : A -> Prop) (f : A -> B -> A)
    (l : list B) (a : A) :
  (forall a b, P a -> P (f a b)) -> P a -> P (foldl f a l).
Proof.
  intros Hf. revert a. induction l as [|b l IH]; intros a Ha; simpl; auto.
Qed.

Lemma hybrid_entries_nodup
    (rag_system : option (Py.json -> Z -> option (list Rag.SemResult)))
    (self : Rag.t) (query : Py.json) (k : Z) (sw kw : R) :
  NoDup (map fst (Rag.hybrid_entries rag_system self query k sw kw)).
Proof.
  unfold Rag.hybrid_entries, Rag.keyword_entries, Rag.semantic_entries.
  assert (Hsem : NoDup (map fst
            match rag_system with
            | Some retrieve =>
                match retrieve query (k * 2)%Z with
                | Some sem =>
                    foldl (Rag.semantic_step (length sem) sw) []
                      (Py.enumerate sem)
                | None => []
                end
            | None => []
            end)).
  { destruct rag_system as [retrieve|]; [|constructor].
    destruct (retrieve query (k * 2)%Z) as [sem|]; [|constructor].
    apply (foldl_invariant (fun d => NoDup (map fst d))); [|constructor].
    intros. by apply semantic_step_nodup. }
  destruct (BM25._initialized _); [|done].
  destruct (Rag.bm25_search _ _ _); [|done].
  apply (foldl_invariant (fun d => NoDup (map fst d))); [|done].
  intros. by apply keyword_step_nodup.
Qed.

(** One call of [hybrid_search] returns each content at most once. *)
Lemma hybrid_search_nodup
    (rag_system : option (Py.json -> Z -> option (list Rag.SemResult)))
    (self : Rag.t) (query : Py.json) (k : Z) (sw kw : R) :
  NoDup (map Rag.content (Rag.hybrid_search rag_system self query k sw kw)).
Proof.
  unfold Rag.hybrid_search.
  destruct (take_prefix k
              (Py.sort_desc Rag.relevance_score
                 (map Rag.combine_entry
                    (Rag.hybrid_entries rag_system self query k sw kw))))
    as [n ->].
  rewrite <- firstn_map. apply NoDup_firstn.
  rewrite <- sort_desc_perm, map_map.
  erewrite map_ext; [apply hybrid_entries_nodup|]. by intros [c e].
Qed.

Lemma occurrences_absent (c : string) (l : list Rag.RetrievalResult) :
  c ∉ map Rag.content l -> occurrences c l = [].
Proof.
  induction l as [|r l IH]; [done|]. simpl.
  intros [Hne Hl]%not_elem_of_cons. rewrite occurrences_cons.
  case_decide; [congruence|by apply IH].
Qed.

Lemma occurrences_nodup (c : string) (l : list Rag.RetrievalResult) :
  NoDup (map Rag.content l) ->
  occurrences c l = match score_in c l with Some s => [s] | None => [] end.
Proof.
  unfold score_in.
  induction l as [|r l IH]; [done|]. simpl.
  intros [Hnotin Hnd]%NoDup_cons. rewrite occurrences_cons.
  case_decide as Heq; [|by apply IH].
  simpl. f_equal. apply occurrences_absent. by rewrite <- Heq.
Qed.

Lemma occurrences_per_query (c : string)
    (per_query : list (list Rag.RetrievalResult)) :
  Forall (fun l => NoDup (map Rag.content l)) per_query ->
  occurrences c (concat per_query) = query_scores c per_query.
Proof.
  unfold query_scores.
  induction 1 as [|l ll Hl _ IH]; [done|]. simpl.
  rewrite occurrences_app, IH, (occurrences_nodup c l Hl).
  by destruct (score_in c l).
Qed.

Lemma mapM_Some_elem {A B : Type} (f : A -> option B) (l : list A)
    (k : list B) :
  mapM f l = Some k -> Forall (fun y => exists x, x ∈ l /\ f x = Some y) k.
Proof.
  revert k. induction l as [|x l IH]; intros k; cbn [mapM].
  - intros [= <-]. constructor.
  - destruct (f x) as [y|] eqn:E; [|done]. cbn.
    destruct (mapM f l) as [k'|]; [|done]. cbn. intros [= <-].
    constructor; [exists x; split; [by left|done]|].
    eapply Forall_impl; [by apply IH|].
    intros y' (x' & ? & ?). exists x'. split; [by right|done].
Qed.

(** Property X29. The candidates of the expanded queries are merged by exact
    content: every retrieved content occurs exactly once in the merged
    list, scored as the merge loop scores it, with its first retrieved
    result plus 0.5 times every later result of that content. With hybrid
    search, where no query returns a content twice, this is the score from
    the first query that retrieved the document plus 0.5 times the score
    from each additional query that retrieved it. *)
Theorem merge_by_content (json_loads : string -> option Py.json)
    (model : option (nat -> string -> option string))
    (rag_system : option (Py.json -> Z -> option (list Rag.SemResult)))
    (self : Rag.t) (query : string) (k : Z)
    (use_multi_query use_hybrid use_rerank : bool)
    (per_query : list (list Rag.RetrievalResult)) :
  mapM (fun q => Rag.query_results rag_system self q k use_hybrid)
       (Rag.expanded_queries json_loads model query use_multi_query)
  = Some per_query ->
  let merged := Rag.merged_results per_query in
  Rag.retrieve_with_precision json_loads model rag_system self query k
    use_multi_query use_hybrid use_rerank
  = Some (if use_rerank
          then Rag.rerank_results json_loads model
                 (Rag.calls_made model use_multi_query) query
                 (Py.take (k * 2) merged) k
          else Py.take k merged)
  /\ NoDup (map Rag.content merged)
  /\ (forall l r0,
        l ∈ per_query -> r0 ∈ l ->
        exists r, r ∈ merged /\ Rag.content r = Rag.content r0)
  /\ (forall r,
        r ∈ merged ->
        boosted (occurrences (Rag.content r) (concat per_query))
        = Some (Rag.relevance_score r))
  /\ (use_hybrid = true ->
      forall r,
        r ∈ merged ->
        consensus_score (Rag.content r) per_query
        = Some (Rag.relevance_score r)).
Proof.
  intros Hq merged. split.
  { unfold Rag.retrieve_with_precision. by rewrite Hq. }
  split; [apply merged_results_nodup|].
  split; [apply merged_results_complete|].
  split; [apply merged_results_score|].
  intros -> r Hr. unfold consensus_score.
  rewrite <- occurrences_per_query; [by apply merged_results_score|].
  apply mapM_Some_elem in Hq.
  eapply Forall_impl; [exact Hq|]. simpl.
  intros l (q & _ & [= <-]). apply hybrid_search_nodup.
Qed.

Lemma merge_by_content_witness :
  exists per_query,
    mapM (fun q => Rag.query_results (Some duplicating_search) Rag.new q 1 true)
         (Rag.expanded_queries failing_loads None "stress" true)
    = Some per_query
    /\ forall r,
         r ∈ Rag.merged_results per_query ->
         consensus_score (Rag.content r) per_query
         = Some (Rag.relevance_score r).
Proof.
  eexists. split; [reflexivity|].
  refine (proj2 (proj2 (proj2 (proj2
            (merge_by_content failing_loads None (Some duplicating_search)
               Rag.new "stress" 1 true true false _ eq_refl)))) eq_refl).
Defined.

(** Claim C5, the code at the failing input. Hybrid search is off and the
    collaborator returns one content twice for a query: the three queries
    expanded from "stress" each retrieve the document "a" twice with score
    0.5, the merged score is 0.5 + 5 * 0.25 = 1.75, and the score from the
    first query plus 0.5 times the score from each of the two additional
    queries, which the claim and the comment of the merge loop promise,
    is 1. *)
Lemma merge_counts_repeats :
  exists per_query r,
    mapM (fun q => Rag.query_results (Some duplicating_search) Rag.new q 1 false)
         (Rag.expanded_queries failing_loads None "stress" true)
    = Some per_query
    /\ Rag.retrieve_with_precision failing_loads None (Some duplicating_search)
         Rag.new "stress" 1 true false false = Some [r]
    /\ Rag.merged_results per_query = [r]
    /\ query_scores "a" per_query = [0.5; 0.5; 0.5]%R
    /\ Rag.content r = "a"
    /\ Rag.relevance_score r = 1.75%R
    /\ consensus_score "a" per_query = Some 1%R
    /\ consensus_score (Rag.content r) per_query
       <> Some (Rag.relevance_score r).
Proof.
  eexists _, _. split; [reflexivity|].
  split; [cbv -[Rplus Rmult Rdiv IZR Rinv]; reflexivity|].
  split; [cbv -[Rplus Rmult Rdiv IZR Rinv]; reflexivity|].
  split; [reflexivity|]. split; [reflexivity|].
  split; [simpl; lra|].
  split.
  - unfold consensus_score, query_scores, score_in, occurrences.
    cbn. unfold boosted, total. simpl. f_equal. lra.
  - unfold consensus_score, query_scores, score_in, occurrences.
    cbn. unfold boosted, total. simpl. intros [= H]. lra.
Qed.

(** ** Hybrid search *)

Lemma semantic_step_get (total : nat) (w : R) (d : Py.dict Rag.Entry)
    (i : nat) (x : Rag.SemResult) (c : string) :
  exists e',
    Py.dict_get c (Rag.semantic_step total w d (i, x))
    = (if decide (Rag.sem_content x = c) then Some e' else Py.dict_get c d)
    /\ Rag.semantic_score e' = ((1 - INR i / INR total) * w)%R
    /\ Rag.keyword_score e'
       = match Py.dict_get (Rag.sem_content x) d with
         | Some e => Rag.keyword_score e
         | None => 0%R
         end.
Proof.
  unfold Rag.semantic_step.
  destruct (Py.dict_get (Rag.sem_content x) d) as [e|];
    eexists; rewrite dict_get_set; by repeat split.
Qed.

Lemma semantic_fold_other (total : nat) (w : R)
    (items : list (nat * Rag.SemResult)) (d : Py.dict Rag.Entry) (c : string) :
  c ∉ map (fun item => Rag.sem_content (snd item)) items ->
  Py.dict_get c (foldl (Rag.semantic_step total w) d items) = Py.dict_get c d.
Proof.
  revert d. induction items as [|[i x] items IH]; intros d Hnot; [done|].
  simpl in Hnot. apply not_elem_of_cons in Hnot as [Hne Hrest].
  cbn [foldl]. rewrite IH by done.
  destruct (semantic_step_get total w d i x c) as (e' & -> & _).
  case_decide; congruence.
Qed.

(** After the semantic loop, a content met in it has an entry whose
    semantic score is the weighted rank score of one of its occurrences. *)
Lemma semantic_fold_get (total : nat) (w : R)
    (items : list (nat * Rag.SemResult)) (d : Py.dict Rag.Entry) (c : string) :
  c ∈ map (fun item => Rag.sem_content (snd item)) items ->
  exists e' i x,
    Py.dict_get c (foldl (Rag.semantic_step total w) d items) = Some e'
    /\ (i, x) ∈ items /\ Rag.sem_content x = c
    /\ Rag.semantic_score e' = ((1 - INR i / INR total) * w)%R
    /\ Rag.keyword_score e'
       = match Py.dict_get c d with
         | Some e => Rag.keyword_score e
         | None => 0%R
         end.
Proof.
  revert d. induction items as [|[i x] items IH]; intros d Hin.
  - by apply elem_of_nil in Hin.
  - cbn [foldl].
    destruct (semantic_step_get total w d i x c) as (e1 & Hget & Hs1 & Hk1).
    destruct (decide (c ∈ map (fun item => Rag.sem_content (snd item)) items))
      as [Hrest|Hrest].
    + destruct (IH (Rag.semantic_step total w d (i, x)) Hrest)
        as (e' & i' & x' & He' & Hin' & Hc' & Hs' & Hk').
      exists e', i', x'. repeat split; [done|by right|done..|].
      rewrite Hk', Hget. case_decide as Heq; [|done]. by rewrite Hk1, Heq.
    + simpl in Hin. apply elem_of_cons in Hin as [->|Hin]; [|done].
      rewrite semantic_fold_other by done. rewrite Hget.
      rewrite decide_True by done.
      exists e1, i, x. repeat split; [by left|done..].
Qed.

Lemma keyword_step_other (self : Rag.t) (m w : R) (d : Py.dict Rag.Entry)
    (j : nat) (s : R) (c : string) :
  Rag._documents_cache self !! j <> Some c ->
  Py.dict_get c (Rag.keyword_step self m w d (j, s)) = Py.dict_get c d.
Proof.
  intros Hne. unfold Rag.keyword_step.
  destruct (Rag._documents_cache self !! j) as [content|]; [|done].
  destruct (Py.dict_get content d); rewrite dict_get_set;
    case_decide; congruence.
Qed.

Lemma keyword_step_get (self : Rag.t) (m w : R) (d : Py.dict Rag.Entry)
    (j : nat) (s : R) (c : string) :
  Rag._documents_cache self !! j = Some c ->
  exists e',
    Py.dict_get c (Rag.keyword_step self m w d (j, s)) = Some e'
    /\ Rag.keyword_score e' = (normalized m s * w)%R
    /\ Rag.semantic_score e'
       = match Py.dict_get c d with
         | Some e => Rag.semantic_score e
         | None => 0%R
         end.
Proof.
  intros Hc. unfold Rag.keyword_step. rewrite Hc.
  destruct (Py.dict_get c d) as [e|];
    eexists; rewrite dict_get_set, decide_True by done; by repeat split.
Qed.

Lemma keyword_fold_other (self : Rag.t) (m w : R) (items : list (nat * R))
    (d : Py.dict Rag.Entry) (c : string) :
  c ∉ keyword_contents self items ->
  Py.dict_get c (foldl (Rag.keyword_step self m w) d items) = Py.dict_get c d.
Proof.
  unfold keyword_contents.
  revert d. induction items as [|[j s] items IH]; intros d Hnot; [done|].
  cbn [foldl]. simpl in Hnot.
  destruct (Rag._documents_cache self !! j) as [c'|] eqn:Ec; simpl in Hnot.
  - apply not_elem_of_cons in Hnot as [Hne Hrest].
    rewrite IH by done. apply keyword_step_other. congruence.
  - rewrite IH by done. apply keyword_step_other. congruence.
Qed.

(** After the keyword loop, a content met in it has an entry whose keyword
    score is the weighted normalized score of one of its BM25 results; its
    semantic score is the one it had. *)
Lemma keyword_fold_get (self : Rag.t) (m w : R) (items : list (nat * R))
    (d : Py.dict Rag.Entry) (c : string) :
  c ∈ keyword_contents self items ->
  exists e' j s,
    Py.dict_get c (foldl (Rag.keyword_step self m w) d items) = Some e'
    /\ (j, s) ∈ items /\ Rag._documents_cache self !! j = Some c
    /\ Rag.keyword_score e' = (normalized m s * w)%R
    /\ Rag.semantic_score e'
       = match Py.dict_get c d with
         | Some e => Rag.semantic_score e
         | None => 0%R
         end.
Proof.
  revert d. induction items as [|[j s] items IH]; intros d Hin.
  - by apply elem_of_nil in Hin.
  - cbn [foldl].
    destruct (decide (c ∈ keyword_contents self items)) as [Hrest|Hrest].
    + destruct (IH (Rag.keyword_step self m w d (j, s)) Hrest)
        as (e' & j' & s' & He' & Hin' & Hc' & Hk' & Hs').
      exists e', j', s'. repeat split; [done|by right|done..|].
      rewrite Hs'.
      destruct (decide (Rag._documents_cache self !! j = Some c)) as [Hc|Hc].
      * destruct (keyword_step_get self m w d j s c Hc) as (e1 & -> & _ & ->).
        done.
      * by rewrite keyword_step_other.
    + assert (Hc : Rag._documents_cache self !! j = Some c).
      { unfold keyword_contents in Hin, Hrest. simpl in Hin.
        destruct (Rag._documents_cache self !! j) as [c'|]; simpl in Hin;
          [|done].
        apply elem_of_cons in Hin as [->|Hin]; done. }
      rewrite keyword_fold_other by done.
      destruct (keyword_step_get self m w d j s c Hc) as (e1 & He1 & Hk & Hs).
      exists e1, j, s. repeat split; [done|by left|done..].
Qed.

Lemma reachable_sound (self : Rag.t) :
  Rag.reachable self ->
  sound (Rag.bm25 self)
  /\ (BM25._initialized (Rag.bm25 self) = true ->
      exists b0 documents,
        Rag.bm25 self = BM25.fit b0 documents /\ sound b0).
Proof.
  induction 1 as [|self documents _ [IH _]].
  - split; [apply sound_create|done].
  - split; [by apply sound_fit|]. intros _. simpl. eauto.
Qed.

(** On a reachable object no BM25 result has a negative score. *)
Lemma bm25_search_nonneg (self : Rag.t) (query : Py.json) (top_k : Z)
    (res : list (nat * R)) :
  Rag.reachable self ->
  Rag.bm25_search self query top_k = Some res ->
  Forall (fun p => (0 <= snd p)%R) res.
Proof.
  intros [Hs Hfit]%reachable_sound. unfold Rag.bm25_search.
  destruct query as [| | |q| |];
    try (destruct (negb _); [intros [= <-]; constructor|];
         destruct (BM25.doc_count _); [|done];
         rewrite take_nil; intros [= <-]; constructor).
  unfold BM25.search.
  destruct (BM25._initialized (Rag.bm25 self)) eqn:Ei; simpl;
    [|intros [= <-]; constructor].
  destruct (Hfit eq_refl) as (b0 & documents & Hb & (Hk & Hb0 & Hidf)).
  rewrite Hb.
  destruct (scores_fit_some b0 documents q Hk Hb0) as (l & -> & _ & Hnn).
  cbn. intros [= <-]. apply Forall_forall. intros p Hp.
  apply take_elem, sort_desc_elem in Hp.
  specialize (Hnn (conj Hk (conj Hb0 Hidf))).
  rewrite Forall_forall in Hnn. by apply Hnn.
Qed.

Lemma foldl_Rmax_ge (l : list (nat * R)) (m : R) :
  (m <= foldl (fun m r' => Rmax m (snd r')) m l)%R
  /\ forall p, p ∈ l -> (snd p <= foldl (fun m r' => Rmax m (snd r')) m l)%R.
Proof.
  revert m. induction l as [|q l IH]; intros m; simpl.
  - split; [lra|]. by intros p ?%elem_of_nil.
  - destruct (IH (Rmax m (snd q))) as [H1 H2].
    pose proof (Rmax_l m (snd q)). pose proof (Rmax_r m (snd q)).
    split; [lra|]. intros p [->|Hp]%elem_of_cons; [lra|by apply H2].
Qed.

Lemma max_score_ge (res : list (nat * R)) (p : nat * R) :
  p ∈ res -> (snd p <= Rag.max_score res)%R.
Proof.
  destruct res as [|r rest]; [by intros ?%elem_of_nil|]. simpl.
  destruct (foldl_Rmax_ge rest (snd r)) as [H1 H2].
  intros [->|Hp]%elem_of_cons; [done|by apply H2].
Qed.

Lemma normalized_nonneg (m s : R) :
  (0 <= s)%R -> (s <= m)%R -> (0 <= normalized m s)%R.
Proof.
  intros Hs Hm. unfold normalized, Py.truthy.
  destruct (Req_dec_T m 0); [lra|]. apply Rdiv_nonneg; lra.
Qed.

Lemma rank_score_pos (i total : nat) :
  i < total -> (0 < 1 - INR i / INR total)%R.
Proof.
  intros Hi. assert (0 < INR total)%R by (apply (lt_INR 0); lia).
  assert (INR i < INR total)%R by by apply lt_INR.
  assert (INR i / INR total < 1)%R; [|lra].
  apply (Rmult_lt_reg_r (INR total)); [done|].
  unfold Rdiv. rewrite Rmult_assoc, Rinv_l by lra. lra.
Qed.

Lemma enumerate_from_snd {A : Type} (l : list A) (a : nat) :
  map snd (combine (seq a (length l)) l) = l.
Proof.
  revert a. induction l as [|x l IH]; intros a; simpl; [done|].
  by rewrite IH.
Qed.

Lemma enumerate_contents (sem : list Rag.SemResult) :
  map (fun item => Rag.sem_content (snd item)) (Py.enumerate sem)
  = map Rag.sem_content sem.
Proof.
  unfold Py.enumerate.
  rewrite <- (enumerate_from_snd sem 0) at 3. by rewrite map_map.
Qed.

Lemma hybrid_entries_unfold
    (rag_system : option (Py.json -> Z -> option (list Rag.SemResult)))
    (self : Rag.t) (query : Py.json) (k : Z) (sw kw : R)
    (retrieve : Py.json -> Z -> option (list Rag.SemResult))
    (sem : list Rag.SemResult) (res : list (nat * R)) :
  rag_system = Some retrieve -> retrieve query (k * 2)%Z = Some sem ->
  BM25._initialized (Rag.bm25 self) = true ->
  Rag.bm25_search self query (k * 2)%Z = Some res ->
  Rag.hybrid_entries rag_system self query k sw kw
  = foldl (Rag.keyword_step self (Rag.max_score res) kw)
      (foldl (Rag.semantic_step (length sem) sw) [] (Py.enumerate sem)) res.
Proof.
  intros -> Hsem Hinit Hres.
  unfold Rag.hybrid_entries, Rag.keyword_entries, Rag.semantic_entries.
  by rewrite Hsem, Hinit, Hres.
Qed.

(** Claim C2, as amended. In [hybrid_search] a document found by both the
    semantic search and the BM25 search gets, as its combined score, the sum
    of its weighted rank score [(1 - i/total) * semantic_weight] and its
    weighted normalized BM25 score [(score/max) * keyword_weight] (each from
    an occurrence of the document in the channel's results), whatever the
    weights. With weights that are not negative, on an object built by
    [initialize_bm25], neither weighted score is negative and the sum is at
    least the larger of the two. *)
Theorem hybrid_boost
    (rag_system : option (Py.json -> Z -> option (list Rag.SemResult)))
    (self : Rag.t) (query : Py.json) (k : Z)
    (semantic_weight keyword_weight : R)
    (retrieve : Py.json -> Z -> option (list Rag.SemResult))
    (semantic_results : list Rag.SemResult) (bm25_results : list (nat * R))
    (c : string) :
  rag_system = Some retrieve ->
  retrieve query (k * 2)%Z = Some semantic_results ->
  BM25._initialized (Rag.bm25 self) = true ->
  Rag.bm25_search self query (k * 2)%Z = Some bm25_results ->
  c ∈ map Rag.sem_content semantic_results ->
  c ∈ keyword_contents self bm25_results ->
  let combined :=
    map Rag.combine_entry
      (Rag.hybrid_entries rag_system self query k semantic_weight
         keyword_weight) in
  exists i x j s,
    semantic_results !! i = Some x /\ Rag.sem_content x = c
    /\ (j, s) ∈ bm25_results /\ Rag._documents_cache self !! j = Some c
    /\ let S :=
         ((1 - INR i / INR (length semantic_results)) * semantic_weight)%R in
       let K :=
         (normalized (Rag.max_score bm25_results) s * keyword_weight)%R in
       (exists r, r ∈ combined /\ Rag.content r = c)
       /\ (forall r,
             r ∈ combined -> Rag.content r = c ->
             Rag.relevance_score r = (S + K)%R)
       /\ (forall r,
             r ∈ Rag.hybrid_search rag_system self query k semantic_weight
                   keyword_weight ->
             Rag.content r = c -> Rag.relevance_score r = (S + K)%R)
       /\ (Rag.reachable self ->
           (0 <= semantic_weight)%R -> (0 <= keyword_weight)%R ->
           (0 <= S)%R /\ (0 <= K)%R /\ (Rmax S K <= S + K)%R).
Proof.
  intros Hrag Hsem Hinit Hres Hcs Hck combined.
  pose proof (hybrid_entries_nodup rag_system self query k semantic_weight
                keyword_weight) as Hnd.
  pose proof (hybrid_entries_unfold rag_system self query k semantic_weight
                keyword_weight retrieve semantic_results bm25_results
                Hrag Hsem Hinit Hres) as Hd.
  rewrite <- enumerate_contents in Hcs.
  destruct (semantic_fold_get (length semantic_results) semantic_weight
              (Py.enumerate semantic_results) [] c Hcs)
    as (e0 & i & x & He0 & Hix%enumerate_elem & Hx & Hs0 & _).
  destruct (keyword_fold_get self (Rag.max_score bm25_results) keyword_weight
              bm25_results
              (foldl (Rag.semantic_step (length semantic_results)
                        semantic_weight) [] (Py.enumerate semantic_results))
              c Hck)
    as (e' & j & s & He' & Hjs & Hj & Hk' & Hs').
  rewrite He0, Hs0 in Hs'. rewrite <- Hd in He'.
  exists i, x, j, s.
  split; [done|]. split; [done|]. split; [done|]. split; [done|].
  split; [|split; [|split]].
  - exists (Rag.combine_entry (c, e')). split; [|done].
    apply list_elem_of_fmap. exists (c, e'). split; [done|].
    by apply dict_elem_get.
  - intros r ([c' e''] & -> & Hin)%list_elem_of_fmap Hc. simpl in Hc.
    subst c'. apply dict_elem_get in Hin; [|done].
    rewrite He' in Hin. injection Hin as <-. simpl. by rewrite Hs', Hk'.
  - intros r Hr%take_elem%sort_desc_elem Hc.
    apply list_elem_of_fmap in Hr as ([c' e''] & -> & Hin). simpl in Hc.
    subst c'. apply dict_elem_get in Hin; [|done].
    rewrite He' in Hin. injection Hin as <-. simpl. by rewrite Hs', Hk'.
  - intros Hreach Hsw Hkw.
    assert (HS : (0 <= (1 - INR i / INR (length semantic_results))
                       * semantic_weight)%R).
    { apply Rmult_le_pos; [|done]. left. apply rank_score_pos.
      by eapply lookup_lt_Some. }
    assert (HK : (0 <= normalized (Rag.max_score bm25_results) s
                       * keyword_weight)%R).
    { apply Rmult_le_pos; [|done].
      pose proof (bm25_search_nonneg _ _ _ _ Hreach Hres) as Hnn.
      rewrite Forall_forall in Hnn.
      apply normalized_nonneg; [apply (Hnn _ Hjs)|].
      apply (max_score_ge bm25_results (j, s) Hjs). }
    split; [done|]. split; [done|]. apply Rmax_lub; lra.
Qed.

(** The index of the one document "lo au", asked for "lo". *)
Lemma single_document_search :
  exists s,
    Rag.bm25_search (Rag.initialize_bm25 Rag.new [single_document])
      (Py.JStr "lo") 2 = Some [(0, s)]
    /\ (0 <= s)%R.
Proof.
  pose proof sound_create as (Hk & Hb & Hidf).
  destruct (scores_fit_some BM25.create ["lo au"] "lo" Hk Hb)
    as (l & Hl & Hfst & Hnn).
  destruct l as [|[j s] [|? ?]]; try done.
  simpl in Hfst. injection Hfst as ->.
  exists s. split.
  - unfold Rag.bm25_search, BM25.search.
    change (Rag.bm25 (Rag.initialize_bm25 Rag.new [single_document]))
      with (BM25.fit BM25.create ["lo au"]).
    cbn [BM25._initialized BM25.fit negb]. by rewrite Hl.
  - specialize (Hnn sound_create). by apply Forall_cons_1 in Hnn as [? _].
Qed.

Lemma hybrid_boost_witness :
  exists s,
    let S := ((1 - INR 0 / INR 1) * 0.7)%R in
    let K := (normalized (Rag.max_score [(0%nat, s)]) s * 0.3)%R in
    (forall r,
       r ∈ Rag.hybrid_search (Some single_search)
             (Rag.initialize_bm25 Rag.new [single_document]) (Py.JStr "lo") 1
             0.7 0.3 ->
       Rag.content r = "lo au" -> Rag.relevance_score r = (S + K)%R)
    /\ (Rmax S K <= S + K)%R.
Proof.
  destruct single_document_search as (s & Hs & _). exists s.
  destruct (hybrid_boost (Some single_search)
              (Rag.initialize_bm25 Rag.new [single_document]) (Py.JStr "lo") 1
              0.7 0.3 single_search [Rag.SemText "lo au"] [(0, s)] "lo au")
    as (i & x & j & s' & Hi & _ & Hjs & _ & _ & _ & Hout & Hbound).
  - reflexivity.
  - reflexivity.
  - reflexivity.
  - exact Hs.
  - apply list_elem_of_here.
  - apply list_elem_of_here.
  - destruct i as [|i]; [|destruct i; discriminate Hi].
    apply list_elem_of_singleton in Hjs. injection Hjs as -> ->.
    split; [exact Hout|].
    apply Hbound; [apply Rag.reachable_init, Rag.reachable_new|lra..].
Defined.

(** Claim C2 as stated fails for a negative weight: with
    [semantic_weight = -1] the document "lo au", found by both searches, has
    the weighted scores [S = -1] and [K >= 0] and the combined score
    [S + K], which is below the larger of the two. *)
Lemma hybrid_negative_weight :
  exists s r,
    single_search (Py.JStr "lo") 2 = Some [Rag.SemText "lo au"]
    /\ Rag.bm25_search (Rag.initialize_bm25 Rag.new [single_document])
         (Py.JStr "lo") 2 = Some [(0, s)]
    /\ Rag.hybrid_search (Some single_search)
         (Rag.initialize_bm25 Rag.new [single_document]) (Py.JStr "lo") 1
         (-1) 0.3 = [r]
    /\ Rag.content r = "lo au"
    /\ let S := ((1 - INR 0 / INR 1) * -1)%R in
       let K := (normalized (Rag.max_score [(0%nat, s)]) s * 0.3)%R in
       Rag.relevance_score r = (S + K)%R /\ (S + K < Rmax S K)%R.
Proof.
  destruct single_document_search as (s & Hs & Hpos). exists s.
  eexists. split; [reflexivity|]. split; [exact Hs|].
  split; [|split].
  - unfold Rag.hybrid_search, Rag.hybrid_entries, Rag.keyword_entries.
    change (BM25._initialized
              (Rag.bm25 (Rag.initialize_bm25 Rag.new [single_document])))
      with true.
    change (1 * 2)%Z with 2%Z. cbv iota. rewrite Hs.
    reflexivity.
  - reflexivity.
  - cbv zeta. split; [reflexivity|].
    assert (HK : (0 <= normalized (Rag.max_score [(0%nat, s)]) s * 0.3)%R).
    { apply Rmult_le_pos; [|lra]. apply normalized_nonneg; [done|].
      simpl. lra. }
    assert (HS : ((1 - INR 0 / INR 1) * -1 = -1)%R) by (simpl; lra).
    rewrite HS. pose proof (Rmax_r (-1) (normalized (Rag.max_score [(0%nat, s)]) s * 0.3)).
    lra.
Qed.

(** ** Strings and boundaries *)

Lemma str_length_app (s1 s2 : string) :
  String.length (s1 +:+ s2) = String.length s1 + String.length s2.
Proof. induction s1 as [|c s1 IH]; simpl; [done|by rewrite IH]. Qed.

Lemma str_take_length (n : nat) (s : string) :
  String.length (Str.take n s) <= String.length s.
Proof.
  revert s. induction n as [|n IH]; intros [|c s]; simpl; try lia.
  specialize (IH s). lia.
Qed.

Lemma str_take_all (n : nat) (s : string) :
  String.length s <= n -> Str.take n s = s.
Proof.
  revert s. induction n as [|n IH]; intros [|c s]; simpl; try done; try lia.
  intros H. f_equal. apply IH. lia.
Qed.

Lemma str_take_slice (a b : nat) (s : string) :
  a <= b -> Str.take a s +:+ Str.slice a b s = Str.take b s.
Proof.
  unfold Str.slice. revert b s.
  induction a as [|a IH]; intros b s Hab.
  - rewrite Nat.sub_0_r. by destruct s.
  - destruct b as [|b]; [lia|]. destruct s as [|c s]; simpl.
    + by destruct (b - a).
    + change (String c (Str.take a s +:+ Str.take (b - a) (Str.drop a s))
              = String c (Str.take b s)).
      f_equal. apply IH. lia.
Qed.

Lemma lstrip_length (s : string) :
  String.length (Str.lstrip s) <= String.length s.
Proof.
  induction s as [|c s IH]; simpl; [done|].
  destruct (Str.is_space c); simpl; lia.
Qed.

Lemma rstrip_length (s : string) :
  String.length (Str.rstrip s) <= String.length s.
Proof.
  induction s as [|c s IH]; simpl; [done|].
  destruct (Str.rstrip s); [destruct (Str.is_space c)|]; simpl in *; lia.
Qed.

Lemma strip_length (s : string) :
  String.length (Str.strip s) <= String.length s.
Proof.
  unfold Str.strip.
  pose proof (rstrip_length (Str.lstrip s)). pose proof (lstrip_length s). lia.
Qed.

Lemma estimate_mono (s1 s2 : string) :
  String.length s1 <= String.length s2 ->
  SemanticChunker._estimate_tokens s1 <= SemanticChunker._estimate_tokens s2.
Proof. intros H. unfold SemanticChunker._estimate_tokens. by apply Nat.Div0.div_le_mono. Qed.

Lemma insert_uniq_elem (x y : nat) (l : list nat) :
  y ∈ SemanticChunker.insert_uniq x l <-> y = x \/ y ∈ l.
Proof.
  induction l as [|z l IH]; simpl.
  - rewrite list_elem_of_singleton, elem_of_nil. tauto.
  - destruct (Nat.ltb_spec x z); [by rewrite elem_of_cons|].
    destruct (Nat.eqb_spec x z) as [->|Hne].
    + rewrite elem_of_cons. tauto.
    + rewrite !elem_of_cons, IH. tauto.
Qed.

Lemma insert_uniq_sorted (x : nat) (l : list nat) :
  StronglySorted lt l -> StronglySorted lt (SemanticChunker.insert_uniq x l).
Proof.
  induction 1 as [|z l Hs IH Hz]; simpl; [repeat constructor|].
  destruct (Nat.ltb_spec x z).
  - constructor; [by constructor|]. constructor; [done|].
    eapply Forall_impl; [exact Hz|]. simpl. lia.
  - destruct (Nat.eqb_spec x z) as [->|Hne]; [by constructor|].
    constructor; [done|]. apply Forall_forall.
    intros y [->|Hy]%insert_uniq_elem; [lia|].
    rewrite Forall_forall in Hz. by apply Hz.
Qed.

Lemma sorted_set_sorted (l : list nat) :
  StronglySorted lt (SemanticChunker.sorted_set l).
Proof.
  induction l as [|x l IH]; simpl; [constructor|by apply insert_uniq_sorted].
Qed.

Lemma sorted_set_elem (x : nat) (l : list nat) :
  x ∈ SemanticChunker.sorted_set l <-> x ∈ l.
Proof.
  induction l as [|y l IH]; simpl; [done|].
  rewrite insert_uniq_elem, elem_of_cons, IH. tauto.
Qed.

Lemma last_cons_default {A : Type} (l : list A) (b a : A) :
  List.last (b :: l) a = List.last l b.
Proof.
  revert b a. induction l as [|c l IH]; intros b a; [done|].
  change (List.last (b :: c :: l) a) with (List.last (c :: l) a).
  by rewrite !IH.
Qed.

Lemma sorted_last_bound (a : nat) (bs : list nat) :
  StronglySorted lt (a :: bs) ->
  Forall (fun x => x <= List.last bs a) (a :: bs).
Proof.
  revert a. induction bs as [|b bs IH]; intros a Hs.
  - by repeat constructor.
  - apply StronglySorted_inv in Hs as [Hs Ha].
    apply Forall_cons_1 in Ha as [Hab _].
    specialize (IH b Hs).
    rewrite last_cons_default.
    constructor; [|done].
    apply Forall_cons_1 in IH as [Hb _]. lia.
Qed.

Lemma sorted_last_ge (a x : nat) (bs : list nat) :
  StronglySorted lt (a :: bs) -> x ∈ a :: bs -> x <= List.last bs a.
Proof.
  intros Hs%sorted_last_bound Hx. rewrite Forall_forall in Hs. by apply Hs.
Qed.

(** The boundaries start at 0, increase, and reach the end of the text. *)
Lemma boundaries_shape (text : string) :
  exists bs,
    SemanticChunker._find_semantic_boundaries text = 0 :: bs
    /\ StronglySorted lt (0 :: bs)
    /\ String.length text <= List.last bs 0.
Proof.
  unfold SemanticChunker._find_semantic_boundaries.
  set (L := [0] ++ _ ++ [String.length text]).
  assert (H0 : 0 ∈ L) by (unfold L; by left).
  assert (Hn : String.length text ∈ L).
  { unfold L. rewrite !elem_of_app. right. right. by left. }
  pose proof (sorted_set_sorted L) as Hs.
  apply sorted_set_elem in H0, Hn.
  destruct (SemanticChunker.sorted_set L) as [|b bs]; [by apply elem_of_nil in H0|].
  assert (b = 0) as ->.
  { apply elem_of_cons in H0 as [->|H0]; [done|].
    apply StronglySorted_inv in Hs as [_ Hb].
    rewrite Forall_forall in Hb. specialize (Hb 0 H0). lia. }
  exists bs. repeat split; [done|]. by apply sorted_last_ge.
Qed.

(** ** A text that fits in one chunk *)

Lemma chunk_loop_fits (self : SemanticChunker.t) (text : string)
    (bs : list nat) (a : nat) :
  (Z.of_nat (SemanticChunker._estimate_tokens text)
   <= SemanticChunker.max_chunk_size self)%Z ->
  StronglySorted lt (a :: bs) ->
  foldl (SemanticChunker.chunk_step self text)
        (SemanticChunker.mkState [] 0 (Str.take a text))
        (combine (a :: bs) bs)
  = SemanticChunker.mkState [] 0 (Str.take (List.last bs a) text).
Proof.
  intros Hfit. revert a. induction bs as [|b bs IH]; intros a Hs; [done|].
  apply StronglySorted_inv in Hs as [Hs Ha].
  apply Forall_cons_1 in Ha as [Hab _].
  rewrite last_cons_default. rewrite <- (IH b Hs).
  change (combine (a :: b :: bs) (b :: bs))
    with ((a, b) :: combine (b :: bs) bs).
  cbn [foldl]. f_equal.
  unfold SemanticChunker.chunk_step.
  cbn [SemanticChunker.current_chunk_text SemanticChunker.chunks
       SemanticChunker.current_chunk_start].
  rewrite str_take_slice by lia.
  pose proof (estimate_mono (Str.take b text) text (str_take_length b text)).
  destruct (Z.gtb_spec
              (Z.of_nat (SemanticChunker._estimate_tokens (Str.take b text)))
              (SemanticChunker.max_chunk_size self)); [lia|done].
Qed.

(** A text that fits [max_chunk_size] and is not blank gives one chunk. *)
Lemma chunk_fits (self : SemanticChunker.t) (text : string) :
  Str.strip text <> EmptyString ->
  (Z.of_nat (SemanticChunker._estimate_tokens text)
   <= SemanticChunker.max_chunk_size self)%Z ->
  SemanticChunker.chunk self text
  = [ {| SemanticChunker.content := Str.strip text;
         SemanticChunker.start := 0;
         SemanticChunker.end_ := String.length text;
         SemanticChunker.tokens := SemanticChunker._estimate_tokens text |} ].
Proof.
  intros Hne Hfit. unfold SemanticChunker.chunk, SemanticChunker.chunk_loop.
  destruct (boundaries_shape text) as (bs & -> & Hs & Hlast).
  unfold SemanticChunker.consecutive. cbn [tail].
  change EmptyString with (Str.take 0 text) at 1.
  rewrite (chunk_loop_fits self text bs 0 Hfit Hs).
  rewrite str_take_all by done.
  unfold SemanticChunker.finish.
  cbn [SemanticChunker.current_chunk_text SemanticChunker.chunks
       SemanticChunker.current_chunk_start].
  by destruct (Str.strip text).
Qed.

(** ** A text shorter than the minimum, in the sentence chunker *)

Lemma join_length (l : list string) :
  String.length (Str.join " " l) = sum_len l + (length l - 1).
Proof.
  induction l as [|x l IH]; [done|].
  destruct l as [|y l]; [simpl; lia|].
  change (Str.join " " (x :: y :: l))
    with (x +:+ " " +:+ Str.join " " (y :: l)).
  rewrite !str_length_app, IH. simpl. lia.
Qed.

(** The pieces of a split, with one character for each separator, fit in
    the text. *)
Lemma split_bound (pattern : string -> option nat) (skip : nat) (s : string) :
  sum_len (Re.split pattern skip s) + (length (Re.split pattern skip s) - 1)
  <= String.length s.
Proof.
  revert skip. induction s as [|c s IH]; intros skip; [simpl; lia|].
  cbn [Re.split]. destruct skip as [|k].
  - destruct (pattern (String c s)) as [[|len]|].
    + specialize (IH 0). destruct (Re.split pattern 0 s); simpl in *; lia.
    + specialize (IH len). simpl in *. lia.
    + specialize (IH 0). destruct (Re.split pattern 0 s); simpl in *; lia.
  - specialize (IH k). simpl. lia.
Qed.

Lemma sentences_bound (text : string) :
  sum_len (LoadKb.split_into_sentences text)
  + (length (LoadKb.split_into_sentences text) - 1)
  <= String.length text.
Proof.
  unfold LoadKb.split_into_sentences.
  pose proof (split_bound Re.sentence_end 0 text) as H.
  set (pieces := Re.split Re.sentence_end 0 text) in *.
  assert (Hle : forall l : list string,
             sum_len (map Str.strip
                        (filter (fun s => Str.nonempty (Str.strip s) = true) l))
             <= sum_len l
             /\ length (map Str.strip
                          (filter (fun s => Str.nonempty (Str.strip s) = true) l))
                <= length l).
  { induction l as [|x l [IH1 IH2]]; [done|]. rewrite filter_cons.
    pose proof (strip_length x). case_decide; simpl; lia. }
  destruct (Hle pieces). lia.
Qed.

Lemma sum_len_app (l1 l2 : list string) :
  sum_len (l1 ++ l2) = sum_len l1 + sum_len l2.
Proof. induction l1 as [|x l1 IH]; simpl; [done|]. rewrite IH. lia. Qed.

(** While the sentences read so far are shorter than [min_size] no chunk is
    closed. *)
Lemma sentence_loop_short (headings : list (nat * string))
    (target_size min_size overlap : Z) (sentences : list string)
    (st : LoadKb.State) :
  LoadKb.chunks st = [] ->
  LoadKb.current_size st = sum_len (LoadKb.current_chunk st) ->
  (Z.of_nat (sum_len (LoadKb.current_chunk st) + sum_len sentences)
   < min_size)%Z ->
  let st' :=
    foldl (LoadKb.sentence_step headings target_size min_size overlap) st
      sentences in
  LoadKb.chunks st' = []
  /\ LoadKb.current_chunk st' = LoadKb.current_chunk st ++ sentences.
Proof.
  revert st. induction sentences as [|x l IH]; intros st Hc Hsize Hmin.
  - simpl. by rewrite app_nil_r.
  - cbn [foldl]. simpl in Hmin.
    set (st1 := LoadKb.sentence_step headings target_size min_size overlap st x).
    assert (H1 : LoadKb.chunks st1 = []
                 /\ LoadKb.current_chunk st1 = LoadKb.current_chunk st ++ [x]
                 /\ LoadKb.current_size st1
                    = LoadKb.current_size st + String.length x).
    { unfold st1, LoadKb.sentence_step.
      destruct (Z.geb_spec (Z.of_nat (LoadKb.current_size st)) min_size);
        [lia|].
      rewrite andb_false_r. by cbn. }
    destruct H1 as (Hc1 & Hcur1 & Hsz1).
    destruct (IH st1) as [Hc' Hcur'].
    + done.
    + rewrite Hsz1, Hcur1, sum_len_app, Hsize. simpl. lia.
    + rewrite Hcur1, sum_len_app. simpl. lia.
    + split; [done|]. by rewrite Hcur', Hcur1, <- app_assoc.
Qed.

(** The sentence chunker drops a text shorter than [min_size]. *)
Lemma semantic_chunk_short (find_headings : string -> list (nat * string))
    (text : string) (target_size min_size overlap : Z) :
  (Z.of_nat (String.length text) < min_size)%Z ->
  LoadKb.semantic_chunk find_headings text target_size min_size overlap = [].
Proof.
  intros Hshort. unfold LoadKb.semantic_chunk, LoadKb.chunk_loop.
  pose proof (sentences_bound text) as Hb.
  set (sentences := LoadKb.split_into_sentences text) in *.
  destruct (sentence_loop_short (find_headings text) target_size min_size
              overlap sentences
              (LoadKb.mkState [] [] 0 None 0)) as [Hc Hcur]; [done..| |].
  - simpl. lia.
  - unfold LoadKb.finish. rewrite Hc, Hcur. simpl.
    destruct sentences as [|x l] eqn:E; [done|]. rewrite <- E in *.
    rewrite join_length.
    destruct (Z.geb_spec
                (Z.of_nat (sum_len sentences + (length sentences - 1)))
                min_size); [lia|].
    by rewrite andb_false_r.
Qed.

(** Claim C9, as amended. The chunker of [rag_precision.py] turns a text
    that is not blank and whose token estimate is within [max_chunk_size]
    (so every such text shorter than [min_chunk_size <= max_chunk_size])
    into exactly one chunk, whose content is the stripped text; the sentence
    chunker of [load_kb_enhanced.py] returns no chunk for a text shorter
    than [min_size]. *)
Theorem short_text_chunks (self : SemanticChunker.t)
    (find_headings : string -> list (nat * string)) (text : string)
    (target_size min_size overlap : Z) :
  (Str.strip text <> EmptyString ->
   (Z.of_nat (SemanticChunker._estimate_tokens text)
    <= SemanticChunker.max_chunk_size self)%Z ->
   SemanticChunker.chunk self text
   = [ {| SemanticChunker.content := Str.strip text;
          SemanticChunker.start := 0;
          SemanticChunker.end_ := String.length text;
          SemanticChunker.tokens := SemanticChunker._estimate_tokens text |} ])
  /\ ((Z.of_nat (String.length text) < min_size)%Z ->
      LoadKb.semantic_chunk find_headings text target_size min_size overlap
      = []).
Proof.
  split; [apply chunk_fits|apply semantic_chunk_short].
Qed.

Lemma short_text_chunks_witness :
  SemanticChunker.chunk SemanticChunker.create "Toi thay lo au."
  = [ {| SemanticChunker.content := "Toi thay lo au.";
         SemanticChunker.start := 0;
         SemanticChunker.end_ := 15;
         SemanticChunker.tokens := 3 |} ]
  /\ LoadKb.semantic_chunk (fun _ => []) "Toi thay lo au."
       LoadKb.CHUNK_SIZE LoadKb.MIN_CHUNK_SIZE LoadKb.CHUNK_OVERLAP = [].
Proof.
  destruct (short_text_chunks SemanticChunker.create (fun _ => [])
              "Toi thay lo au." LoadKb.CHUNK_SIZE LoadKb.MIN_CHUNK_SIZE
              LoadKb.CHUNK_OVERLAP) as [H1 H2].
  split.
  - apply H1; [discriminate|vm_compute; discriminate].
  - apply H2. vm_compute. reflexivity.
Defined.

(** Claim C9 as stated fails: the sentence chunker returns no chunk for the
    text "Toi thay lo au.", which is shorter than its minimum of 100, and
    the chunker of [rag_precision.py] returns no chunk for a blank text. *)
Lemma short_text_is_dropped :
  LoadKb.semantic_chunk (fun _ => []) "Toi thay lo au."
    LoadKb.CHUNK_SIZE LoadKb.MIN_CHUNK_SIZE LoadKb.CHUNK_OVERLAP = []
  /\ SemanticChunker.chunk SemanticChunker.create " " = [].
Proof. split; vm_compute; reflexivity. Qed.

(** ** Slices of a text *)

Lemma str_drop_drop (a b : nat) (s : string) :
  Str.drop a (Str.drop b s) = Str.drop (b + a) s.
Proof.
  revert s. induction b as [|b IH]; intros s; [done|].
  destruct s as [|c s]; cbn; [by destruct a|apply IH].
Qed.

Lemma str_drop_length (n : nat) (s : string) :
  String.length (Str.drop n s) = String.length s - n.
Proof.
  revert s. induction n as [|n IH]; intros [|c s]; cbn; try done; try lia.
Qed.

Lemma str_take_length_min (n : nat) (s : string) :
  String.length (Str.take n s) = Nat.min n (String.length s).
Proof.
  revert s. induction n as [|n IH]; intros [|c s]; cbn; try done.
  by rewrite IH.
Qed.

Lemma str_drop_0 (s : string) : Str.drop 0 s = s.
Proof. by destruct s. Qed.

Lemma str_take_0 (s : string) : Str.take 0 s = EmptyString.
Proof. by destruct s. Qed.

Lemma str_drop_take (k m : nat) (s : string) :
  Str.drop k (Str.take m s) = Str.take (m - k) (Str.drop k s).
Proof.
  revert m s. induction k as [|k IH]; intros m s.
  - by rewrite !str_drop_0, Nat.sub_0_r.
  - destruct m as [|m], s as [|c s]; cbn [Str.take Str.drop Nat.sub].
    + done.
    + done.
    + by destruct (m - k).
    + apply IH.
Qed.

Lemma slice_length (a b : nat) (s : string) :
  b <= String.length s -> String.length (Str.slice a b s) = b - a.
Proof.
  intros H. unfold Str.slice. rewrite str_take_length_min, str_drop_length.
  lia.
Qed.

Lemma slice_app (a p b : nat) (s : string) :
  a <= p -> p <= b ->
  Str.slice a p s +:+ Str.slice p b s = Str.slice a b s.
Proof.
  intros Hap Hpb. unfold Str.slice.
  replace (Str.drop p s) with (Str.drop (p - a) (Str.drop a s))
    by (rewrite str_drop_drop; f_equal; lia).
  replace (b - p) with ((b - a) - (p - a)) by lia.
  apply (str_take_slice (p - a) (b - a) (Str.drop a s)). lia.
Qed.

Lemma slice_last_n (n a p : nat) (s : string) :
  a <= p -> p <= String.length s ->
  Str.last_n n (Str.slice a p s) = Str.slice (p - Nat.min n (p - a)) p s.
Proof.
  intros Hap Hp. unfold Str.last_n. rewrite slice_length by done.
  unfold Str.slice. rewrite str_drop_take, str_drop_drop.
  f_equal; [lia|f_equal; lia].
Qed.

Lemma slice_empty (a : nat) (s : string) : Str.slice a a s = EmptyString.
Proof. unfold Str.slice. by rewrite Nat.sub_diag, str_take_0. Qed.

(** ** Chunk sizes *)

Lemma overlap_loop_size (overlap : Z) (rest kept : list string) (size : nat) :
  size = sum_len kept ->
  snd (LoadKb.overlap_loop overlap rest kept size)
  = sum_len (fst (LoadKb.overlap_loop overlap rest kept size)).
Proof.
  revert kept size. induction rest as [|s rest IH]; intros kept size Hs;
    simpl; [done|].
  destruct (Z.leb_spec (Z.of_nat (size + String.length s)) overlap);
    [|done].
  apply IH. simpl. lia.
Qed.

Lemma overlap_loop_spec (overlap : Z) (rest kept : list string) (size : nat) :
  exists taken remaining,
    rest = taken ++ remaining
    /\ LoadKb.overlap_loop overlap rest kept size
       = (rev taken ++ kept, size + sum_len taken)
    /\ (taken <> [] -> (Z.of_nat (size + sum_len taken) <= overlap)%Z)
    /\ (forall s, head remaining = Some s ->
          (overlap < Z.of_nat (size + sum_len taken + String.length s))%Z).
Proof.
  revert kept size. induction rest as [|s rest IH]; intros kept size.
  { exists [], []. cbn. split; [done|]. split; [do 2 f_equal; lia|].
    split; [done|]. by intros s [=]. }
  cbn [LoadKb.overlap_loop].
  destruct (Z.leb_spec (Z.of_nat (size + String.length s)) overlap) as [Hle|Hgt].
  - destruct (IH (s :: kept) (size + String.length s))
      as (taken & remaining & -> & Heq & Hbudget & Hnext).
    exists (s :: taken), remaining. split; [done|]. split.
    { rewrite Heq. cbn [rev sum_len foldr]. rewrite <- app_assoc.
      cbn [app]. f_equal. fold (sum_len taken). lia. }
    split.
    + intros _. cbn [sum_len foldr]. fold (sum_len taken).
      destruct taken as [|t taken]; [cbn; lia|].
      assert (t :: taken <> []) as Hne by done. apply Hbudget in Hne. lia.
    + intros s' Hs'. apply Hnext in Hs'. cbn [sum_len foldr].
      fold (sum_len taken). lia.
  - exists [], (s :: rest). cbn. split; [done|]. split; [do 2 f_equal; lia|].
    split; [done|]. intros s' [= <-]. lia.
Qed.

Lemma sentence_step_invariant (headings : list (nat * string))
    (target_size min_size overlap : Z) (st : LoadKb.State) (sentence : string) :
  kb_invariant min_size st ->
  kb_invariant min_size
    (LoadKb.sentence_step headings target_size min_size overlap st sentence).
Proof.
  intros [Hsize Hch]. unfold LoadKb.sentence_step.
  destruct (Z.geb_spec (Z.of_nat (LoadKb.current_size st)) min_size)
    as [Hmin|Hmin].
  - destruct (Z.of_nat (LoadKb.current_size st + String.length sentence)
              >? target_size)%Z; simpl.
    + pose proof (overlap_loop_size overlap (rev (LoadKb.current_chunk st))
                    [] 0 eq_refl) as Hov.
      destruct (LoadKb.overlap_loop overlap (rev (LoadKb.current_chunk st))
                  [] 0) as [kept kept_size].
      simpl in Hov. split; simpl.
      * rewrite sum_len_app, Hov. simpl. lia.
      * destruct (Str.nonempty _); [|done].
        apply Forall_app. split; [done|]. constructor; [|constructor].
        simpl. rewrite join_length. lia.
    + split; simpl; [|done]. rewrite sum_len_app, Hsize. simpl. lia.
  - rewrite andb_false_r. split; simpl; [|done].
    rewrite sum_len_app, Hsize. simpl. lia.
Qed.

(** No chunk of the sentence chunker is shorter than [min_size]. *)
Lemma semantic_chunk_min (find_headings : string -> list (nat * string))
    (text : string) (target_size min_size overlap : Z) (c : LoadKb.Chunk) :
  c ∈ LoadKb.semantic_chunk find_headings text target_size min_size overlap ->
  (min_size <= Z.of_nat (String.length (LoadKb.content c)))%Z.
Proof.
  unfold LoadKb.semantic_chunk, LoadKb.chunk_loop.
  assert (Hinv : kb_invariant min_size
            (foldl (LoadKb.sentence_step (find_headings text) target_size
                      min_size overlap)
                   (LoadKb.mkState [] [] 0 None 0)
                   (LoadKb.split_into_sentences text))).
  { apply (foldl_invariant (kb_invariant min_size)).
    - intros. by apply sentence_step_invariant.
    - split; [done|constructor]. }
  set (st := foldl _ _ _) in *. destruct Hinv as [_ Hch].
  rewrite Forall_forall in Hch. unfold LoadKb.finish.
  destruct (LoadKb.current_chunk st) as [|x l]; [apply Hch|].
  set (chunk_text := Str.join " " (x :: l)).
  destruct (Str.nonempty (Str.strip chunk_text)
            && (Z.of_nat (String.length chunk_text) >=? min_size)%Z) eqn:E;
    [|apply Hch].
  apply andb_true_iff in E as [_ E]. apply Z.geb_le in E.
  intros [Hc|Hc]%elem_of_app; [by apply Hch|].
  by apply list_elem_of_singleton in Hc as ->.
Qed.

Lemma running_cases (self : SemanticChunker.t) (text raw : string) :
  running self text raw ->
  raw = EmptyString
  \/ (Z.of_nat (SemanticChunker._estimate_tokens raw)
      <= SemanticChunker.max_chunk_size self)%Z
  \/ restarted self text raw.
Proof.
  destruct 1 as [|current previous boundary Hrun Hin Hfit
                 |current previous boundary Hrun Hin Hover].
  - by left.
  - right. by left.
  - right. right. by exists current, previous, boundary.
Qed.

Lemma emitted_made_from (self : SemanticChunker.t) (text raw : string)
    (start0 : Z) (end0 : nat) :
  running self text raw ->
  Str.nonempty (Str.strip raw) = true ->
  made_from self text
    {| SemanticChunker.content := Str.strip raw;
       SemanticChunker.start := start0;
       SemanticChunker.end_ := end0;
       SemanticChunker.tokens := SemanticChunker._estimate_tokens raw |}.
Proof.
  intros Hrun Hne. exists raw. split; [done|]. split; [done|].
  destruct (running_cases self text raw Hrun) as [->|[?|?]];
    [done|by left|by right].
Qed.

Lemma chunk_step_running (self : SemanticChunker.t) (text : string)
    (st : SemanticChunker.State) (previous boundary : nat) :
  (previous, boundary)
  ∈ SemanticChunker.consecutive (SemanticChunker._find_semantic_boundaries text) ->
  running self text (SemanticChunker.current_chunk_text st) ->
  Forall (made_from self text) (SemanticChunker.chunks st) ->
  let st' := SemanticChunker.chunk_step self text st (previous, boundary) in
  running self text (SemanticChunker.current_chunk_text st')
  /\ Forall (made_from self text) (SemanticChunker.chunks st').
Proof.
  intros Hin Hrun Hchunks. unfold SemanticChunker.chunk_step.
  destruct (Z.gtb_spec
              (Z.of_nat
                 (SemanticChunker._estimate_tokens
                    (SemanticChunker.current_chunk_text st
                     +:+ Str.slice previous boundary text)))
              (SemanticChunker.max_chunk_size self)) as [Hover|Hfit];
    cbn [SemanticChunker.current_chunk_text SemanticChunker.chunks].
  - split.
    + by apply (running_restart self text _ previous boundary).
    + destruct (Str.nonempty _) eqn:Hne; [|done].
      apply Forall_app. split; [done|]. constructor; [|constructor].
      by apply emitted_made_from.
  - split; [|done]. by apply running_grow.
Qed.

Lemma chunk_loop_running (self : SemanticChunker.t) (text : string)
    (items : list (nat * nat)) (st : SemanticChunker.State) :
  (forall item,
     item ∈ items ->
     item ∈ SemanticChunker.consecutive
              (SemanticChunker._find_semantic_boundaries text)) ->
  running self text (SemanticChunker.current_chunk_text st) ->
  Forall (made_from self text) (SemanticChunker.chunks st) ->
  let st' := foldl (SemanticChunker.chunk_step self text) st items in
  running self text (SemanticChunker.current_chunk_text st')
  /\ Forall (made_from self text) (SemanticChunker.chunks st').
Proof.
  revert st. induction items as [|[a b] items IH]; intros st Hitems Hcur Hch.
  - by split.
  - cbn [foldl].
    destruct (chunk_step_running self text st a b) as [H1 H2];
      [apply Hitems; by left|done..|].
    apply IH; [|done..].
    intros item Hitem. apply Hitems. by right.
Qed.

(** Every chunk of the chunker of [rag_precision.py] is the stripped form
    of a running text that is within [max_chunk_size] or was just
    restarted. *)
Lemma chunk_made_from (self : SemanticChunker.t) (text : string)
    (c : SemanticChunker.Chunk) :
  c ∈ SemanticChunker.chunk self text -> made_from self text c.
Proof.
  unfold SemanticChunker.chunk, SemanticChunker.chunk_loop.
  destruct (chunk_loop_running self text
              (SemanticChunker.consecutive
                 (SemanticChunker._find_semantic_boundaries text))
              (SemanticChunker.mkState [] 0 EmptyString))
    as [Hcur Hch]; [done|constructor|constructor|].
  set (st := foldl _ _ _) in *. unfold SemanticChunker.finish.
  rewrite Forall_forall in Hch.
  destruct (Str.nonempty _) eqn:Hne; [|apply Hch].
  intros [Hc|Hc]%elem_of_app; [by apply Hch|].
  apply list_elem_of_singleton in Hc as ->. by apply emitted_made_from.
Qed.

Lemma str_take_drop (k : nat) (s : string) :
  Str.take k s +:+ Str.drop k s = s.
Proof.
  revert s. induction k as [|k IH]; intros [|c s]; try done.
  change (String c (Str.take k s +:+ Str.drop k s) = String c s).
  by rewrite IH.
Qed.

Lemma str_app_empty (s : string) : s +:+ EmptyString = s.
Proof.
  induction s as [|c s IH]; [done|].
  change (String c (s +:+ EmptyString) = String c s). by rewrite IH.
Qed.

Lemma int_nonpositive (x : Q) : (x <= 0)%Q -> (SemanticChunker.int x <= 0)%Z.
Proof.
  unfold Qle, SemanticChunker.int. cbn. rewrite Z.mul_1_r. intros H.
  assert (0 <= - Qnum x ÷ Z.pos (Qden x))%Z as Hq
    by (apply Z.quot_pos; lia).
  rewrite Z.quot_opp_l in Hq by lia. lia.
Qed.

(** The overlap is a suffix of the running text, of at most
    [int(len(current) * overlap_percentage)] characters, and it is empty
    when the percentage is not positive. *)
Lemma overlap_of_suffix (self : SemanticChunker.t) (current : string) :
  (exists dropped, current = dropped +:+ overlap_of self current)
  /\ (Z.of_nat (String.length (overlap_of self current))
      <= Z.max 0
           (SemanticChunker.int
              (inject_Z (Z.of_nat (String.length current))
               * SemanticChunker.overlap_percentage self)))%Z
  /\ ((SemanticChunker.overlap_percentage self <= 0)%Q ->
      overlap_of self current = EmptyString).
Proof.
  unfold overlap_of.
  set (n := SemanticChunker.int _).
  split; [|split].
  - destruct (n >? 0)%Z; [|exists current; by rewrite str_app_empty].
    unfold Str.last_n. eexists. symmetry. apply str_take_drop.
  - destruct (Z.gtb_spec n 0); [|cbn; lia].
    unfold Str.last_n. rewrite str_drop_length. lia.
  - intros Hp. destruct (Z.gtb_spec n 0) as [Hn|]; [|done].
    assert (n <= 0)%Z; [|lia]. apply int_nonpositive.
    unfold Qle, Qmult, inject_Z in *. cbn in *. nia.
Qed.

Lemma sentence_step_sizes (text : string) (headings : list (nat * string))
    (target_size min_size overlap : Z) (st : LoadKb.State) (sentence : string) :
  sentence ∈ LoadKb.split_into_sentences text ->
  size_invariant text target_size min_size overlap st ->
  size_invariant text target_size min_size overlap
    (LoadKb.sentence_step headings target_size min_size overlap st sentence).
Proof.
  intros Hsent (Hsize & Hcur & Hmem & Hch). unfold LoadKb.sentence_step.
  set (closing := (_ >? _)%Z && _).
  assert (Hchunks :
    Forall (sized text target_size min_size overlap)
      (if closing && Str.nonempty (Str.strip (Str.join " " (LoadKb.current_chunk st)))
       then LoadKb.chunks st ++
            [ {| LoadKb.content := Str.join " " (LoadKb.current_chunk st);
                 LoadKb.type := "content";
                 LoadKb.heading := LoadKb.current_heading st |} ]
       else LoadKb.chunks st)).
  { destruct (closing && _) eqn:E; [|done].
    apply andb_prop in E as [_ Hne].
    apply Forall_app. split; [done|]. constructor; [|constructor].
    exists (LoadKb.current_chunk st). cbn [LoadKb.content].
    split; [done|]. split; [apply join_length|]. split; [done|].
    destruct Hcur as [Hnil|Hw]; [|done]. by rewrite Hnil in Hne. }
  destruct closing eqn:Hclosing.
  - destruct (overlap_loop_spec overlap (rev (LoadKb.current_chunk st)) [] 0)
      as (taken & remaining & Hrev & Heq & Hbudget & _).
    rewrite Heq. rewrite app_nil_r, Nat.add_0_l in *.
    assert (Hsum : sum_len (rev taken) = sum_len taken).
    { clear. induction taken as [|t taken IH]; [done|].
      cbn [rev]. rewrite sum_len_app, IH. unfold sum_len. cbn. lia. }
    split; [|split; [|split]];
      cbn [LoadKb.current_size LoadKb.current_chunk LoadKb.chunks].
    + rewrite sum_len_app, Hsum. unfold sum_len. cbn. lia.
    + right. right. exists (rev taken), sentence. split; [done|].
      destruct taken as [|t taken]; [by left|].
      right. right. rewrite Hsum. apply Hbudget. done.
    + intros s [Hs|Hs%list_elem_of_singleton]%elem_of_app; [|by subst].
      apply Hmem. rewrite <- (rev_involutive (LoadKb.current_chunk st)), Hrev.
      rewrite rev_app_distr. apply elem_of_app. by right.
    + done.
  - split; [|split; [|split]];
      cbn [LoadKb.current_size LoadKb.current_chunk LoadKb.chunks].
    + rewrite sum_len_app, Hsize. unfold sum_len. cbn. lia.
    + right. unfold closing in Hclosing.
      apply andb_false_iff in Hclosing as [Hfit|Hshort].
      * left. rewrite sum_len_app, <- Hsize.
        destruct (Z.gtb_spec
                    (Z.of_nat (LoadKb.current_size st + String.length sentence))
                    target_size); [done|].
        unfold sum_len. cbn. lia.
      * right. exists (LoadKb.current_chunk st), sentence. split; [done|].
        right. left. rewrite <- Hsize.
        destruct (Z.geb_spec (Z.of_nat (LoadKb.current_size st)) min_size);
          [done|lia].
    + intros s [Hs|Hs%list_elem_of_singleton]%elem_of_app;
        [by apply Hmem|by subst].
    + done.
Qed.

Lemma chunk_loop_sizes (text : string) (headings : list (nat * string))
    (target_size min_size overlap : Z) (sentences : list string)
    (st : LoadKb.State) :
  (forall s, s ∈ sentences -> s ∈ LoadKb.split_into_sentences text) ->
  size_invariant text target_size min_size overlap st ->
  size_invariant text target_size min_size overlap
    (foldl (LoadKb.sentence_step headings target_size min_size overlap) st
       sentences).
Proof.
  revert st. induction sentences as [|x sentences IH]; intros st Hall Hinv;
    [done|].
  cbn [foldl]. apply IH.
  - intros s Hs. apply Hall. by right.
  - apply sentence_step_sizes; [|done]. apply Hall. by left.
Qed.

(** Every chunk of the sentence chunker holds sentences of the text that
    are within the target or few in front of the last one. *)
Lemma semantic_chunk_sized (find_headings : string -> list (nat * string))
    (text : string) (target_size min_size overlap : Z) (c : LoadKb.Chunk) :
  c ∈ LoadKb.semantic_chunk find_headings text target_size min_size overlap ->
  sized text target_size min_size overlap c.
Proof.
  unfold LoadKb.semantic_chunk, LoadKb.chunk_loop.
  pose proof (chunk_loop_sizes text (find_headings text) target_size min_size
                overlap (LoadKb.split_into_sentences text)
                (LoadKb.mkState [] [] 0 None 0) ltac:(done)) as Hinv.
  destruct Hinv as (_ & Hcur & Hmem & Hch).
  { split; [done|]. split; [by left|]. split; [|constructor].
    by intros s ?%elem_of_nil. }
  set (st := foldl _ _ _) in *. rewrite Forall_forall in Hch.
  unfold LoadKb.finish.
  destruct (LoadKb.current_chunk st) as [|x l] eqn:Hcurrent; [apply Hch|].
  destruct (_ && _); [|apply Hch].
  intros [Hc|Hc%list_elem_of_singleton]%elem_of_app; [by apply Hch|].
  subst c. exists (x :: l). cbn [LoadKb.content].
  split; [done|]. split; [apply join_length|]. split; [done|].
  by destruct Hcur.
Qed.

(** Claim C6, as amended. Every chunk of the chunker of [rag_precision.py]
    is the stripped form of a running text whose token estimate is within
    [max_chunk_size], unless that text was started when a segment did not
    fit: it is then the overlap of the text accumulated before (a suffix of
    it of at most [int(len * overlap_percentage)] characters, none for a
    percentage that is not positive) followed by that single segment, and it
    is emitted whatever its size. The [tokens] field is the estimate of the
    running text and bounds the estimate of the content. Every chunk of the
    sentence chunker of [load_kb_enhanced.py], the last included, has at
    least [min_size] characters; it is made of sentences of the text joined
    by single spaces, whose total length without the spaces is within
    [target_size] unless the sentences in front of the last one are none,
    total less than [min_size] or are within [overlap]. *)
Theorem chunk_size_bounds (self : SemanticChunker.t)
    (find_headings : string -> list (nat * string)) (text : string)
    (target_size min_size overlap : Z) :
  (forall c,
     c ∈ SemanticChunker.chunk self text ->
     exists raw,
       SemanticChunker.content c = Str.strip raw
       /\ SemanticChunker.tokens c = SemanticChunker._estimate_tokens raw
       /\ SemanticChunker._estimate_tokens (SemanticChunker.content c)
          <= SemanticChunker.tokens c
       /\ ((Z.of_nat (SemanticChunker._estimate_tokens raw)
            <= SemanticChunker.max_chunk_size self)%Z
           \/ restarted self text raw))
  /\ (forall current,
        (exists dropped, current = dropped +:+ overlap_of self current)
        /\ (Z.of_nat (String.length (overlap_of self current))
            <= Z.max 0
                 (SemanticChunker.int
                    (inject_Z (Z.of_nat (String.length current))
                     * SemanticChunker.overlap_percentage self)))%Z
        /\ ((SemanticChunker.overlap_percentage self <= 0)%Q ->
            overlap_of self current = EmptyString))
  /\ (forall c,
        c ∈ LoadKb.semantic_chunk find_headings text target_size min_size
              overlap ->
        (min_size <= Z.of_nat (String.length (LoadKb.content c)))%Z
        /\ exists l,
             LoadKb.content c = Str.join " " l
             /\ String.length (LoadKb.content c) = sum_len l + (length l - 1)
             /\ (forall s, s ∈ l -> s ∈ LoadKb.split_into_sentences text)
             /\ within_target target_size min_size overlap l).
Proof.
  split; [|split].
  - intros c (raw & Hc & Ht & Hb)%chunk_made_from.
    exists raw. repeat split; [done..| |exact Hb].
    rewrite Hc, Ht. apply estimate_mono, strip_length.
  - apply overlap_of_suffix.
  - intros c Hc. split; [by eapply semantic_chunk_min|].
    by eapply semantic_chunk_sized.
Qed.

(** Claim C6 as stated fails. With [min_chunk_size = 2] and
    [max_chunk_size = 3] the first chunk of the text below, "Hi.", has an
    estimate of 0 tokens and the second, also not the last, one of 6. With a
    target of 10 characters the first chunk of the sentence chunker has 11. *)
Lemma chunk_bounds_violated :
  SemanticChunker.chunk (SemanticChunker.mk 2 3 (15 # 100))
    "Hi. Aaaaaaaaaaaaaaaaaaaa bbbb. End."
  = [ SemanticChunker.mkChunk "Hi." 0 4 1;
      SemanticChunker.mkChunk "Aaaaaaaaaaaaaaaaaaaa bbbb." 4 31 6;
      SemanticChunker.mkChunk "bb. End." 27 35 2 ]
  /\ SemanticChunker._estimate_tokens "Hi." < 2
  /\ 3 < SemanticChunker._estimate_tokens "Aaaaaaaaaaaaaaaaaaaa bbbb."
  /\ LoadKb.semantic_chunk (fun _ => []) "aaaaa. bbbbb. c" 10 1 0
     = [ LoadKb.mkChunk "aaaaa bbbbb" "content" None;
         LoadKb.mkChunk "c" "content" None ]
  /\ 10 < String.length "aaaaa bbbbb".
Proof.
  split; [vm_compute; reflexivity|].
  split; [vm_compute; lia|]. split; [vm_compute; lia|].
  split; [vm_compute; reflexivity|]. vm_compute; lia.
Qed.

(** * Further properties of the code *)

(** ** BM25: refitting, bounds and matching *)

(** The inverse document frequency a fitted index uses for a token of one of
    its documents does not depend on the index that was fitted. *)
Lemma score_step_fit_indep (self1 self2 : BM25.t) (documents : list string)
    (d : string) (acc : option R) (token : string) :
  BM25.k1 self1 = BM25.k1 self2 -> BM25.b self1 = BM25.b self2 ->
  d ∈ documents ->
  BM25.score_step (BM25.fit self1 documents)
    (BM25.Counter (BM25._tokenize d)) (length (BM25._tokenize d)) acc token
  = BM25.score_step (BM25.fit self2 documents)
      (BM25.Counter (BM25._tokenize d)) (length (BM25._tokenize d)) acc token.
Proof.
  intros Hk Hb Hd. unfold BM25.score_step.
  destruct acc as [score|]; [|done]. cbn [mbind option_bind].
  destruct (BM25.Counter (BM25._tokenize d) !! token) as [freq|] eqn:E;
    [|done].
  apply Counter_lookup in E as [_ Hin].
  assert (Hidx : indexed token documents) by (exists d; done).
  rewrite !(fit_idf_lookup _ documents token Hidx).
  cbn [BM25.k1 BM25.b BM25.avgdl BM25.fit]. by rewrite Hk, Hb.
Qed.

Lemma index_elem {A : Type} (l : list A) (i : Z) (x : A) :
  Py.index l i = Some x -> x ∈ l.
Proof.
  unfold Py.index.
  destruct (0 <=? i)%Z; [apply list_elem_of_lookup_2|].
  destruct (_ <=? i)%Z; [apply list_elem_of_lookup_2|done].
Qed.

Lemma index_fmap {A B : Type} (f : A -> B) (l : list A) (i : Z) :
  Py.index (map f l) i = f <$> Py.index l i.
Proof.
  unfold Py.index. rewrite length_map.
  destruct (0 <=? i)%Z; [apply list_lookup_fmap|].
  destruct (_ <=? i)%Z; [apply list_lookup_fmap|done].
Qed.

Lemma foldl_ext_all {A B : Type} (f g : A -> B -> A) (l : list B) (a : A) :
  (forall a b, f a b = g a b) -> foldl f a l = foldl g a l.
Proof.
  intros H. revert a. induction l as [|b l IH]; intros a; simpl; [done|].
  by rewrite H, IH.
Qed.

Lemma score_fit_indep (self1 self2 : BM25.t) (documents : list string)
    (query : string) (i : Z) :
  BM25.k1 self1 = BM25.k1 self2 -> BM25.b self1 = BM25.b self2 ->
  BM25.score (BM25.fit self1 documents) query i
  = BM25.score (BM25.fit self2 documents) query i.
Proof.
  intros Hk Hb. unfold BM25.score.
  cbn [BM25._initialized BM25.fit negb BM25.doc_freqs BM25.doc_len].
  rewrite !index_fmap.
  destruct (Py.index documents i) as [d|] eqn:E; [|done]. cbn.
  apply foldl_ext_all. intros acc token.
  apply score_step_fit_indep; [done..|]. by eapply index_elem.
Qed.

Lemma mapM_ext_all {A B : Type} (f g : A -> option B) (l : list A) :
  (forall x, f x = g x) -> mapM f l = mapM g l.
Proof.
  intros H. induction l as [|x l IH]; [done|]. cbn [mapM]. by rewrite H, IH.
Qed.

(** Property X1. [fit] replaces the index: after a second [fit] the scores and the search
    results are those of an index fitted on the second corpus alone. *)
Theorem refit_replaces_index (self : BM25.t) (earlier documents : list string)
    (query : string) (i top_k : Z) :
  BM25.score (BM25.fit (BM25.fit self earlier) documents) query i
  = BM25.score (BM25.fit self documents) query i
  /\ BM25.search (BM25.fit (BM25.fit self earlier) documents) query top_k
     = BM25.search (BM25.fit self documents) query top_k.
Proof.
  split; [by apply score_fit_indep|].
  unfold BM25.search, BM25.scores.
  cbn [BM25._initialized BM25.doc_count BM25.fit negb].
  erewrite mapM_ext_all; [reflexivity|].
  intros n. by rewrite (score_fit_indep (BM25.fit self earlier) self).
Qed.

(** Property X2. [fit] never removes an entry of the [idf] table: the value stored for a
    token that is absent from the new corpus stays as it was. *)
Theorem fit_keeps_stale_idf (self : BM25.t) (documents : list string)
    (token : string) :
  (is_Some (BM25.idf self !! token) ->
   is_Some (BM25.idf (BM25.fit self documents) !! token))
  /\ (~ indexed token documents ->
      BM25.idf (BM25.fit self documents) !! token = BM25.idf self !! token).
Proof.
  assert (Hnew : ~ indexed token documents ->
                 (BM25.idf_value (length documents)
                    <$> foldl BM25.count_doc ∅ (map BM25._tokenize documents))
                 !! token = None).
  { intros Hno. rewrite lookup_fmap, count_docs_lookup, containing_tokenized.
    destruct (containing token documents) as [|n] eqn:E.
    - by rewrite lookup_empty.
    - exfalso. apply Hno, indexed_containing. lia. }
  split.
  - intros [v Hv]. cbn [BM25.idf BM25.fit].
    destruct (containing token documents) as [|n] eqn:E.
    + exists v. rewrite lookup_union_r; [done|]. apply Hnew.
      intros Hin%indexed_containing. lia.
    + assert (Hin : indexed token documents)
        by (apply indexed_containing; lia).
      pose proof (fit_idf_lookup self documents token Hin) as Hl.
      cbn [BM25.idf BM25.fit] in Hl. rewrite Hl. by eexists.
  - intros Hno. cbn [BM25.idf BM25.fit]. apply lookup_union_r. by apply Hnew.
Qed.

(** Property X3. Indexing past either end of the corpus raises; a negative index counts
    from the end. *)
Theorem score_index_bounds (self : BM25.t) (documents : list string)
    (query : string) (i : Z) :
  ((Z.of_nat (length documents) <= i
    \/ i < - Z.of_nat (length documents))%Z ->
   BM25.score (BM25.fit self documents) query i = None)
  /\ ((- Z.of_nat (length documents) <= i < 0)%Z ->
      BM25.score (BM25.fit self documents) query i
      = BM25.score (BM25.fit self documents) query
          (Z.of_nat (length documents) + i)).
Proof.
  unfold BM25.score.
  cbn [BM25._initialized BM25.fit negb BM25.doc_freqs BM25.doc_len].
  rewrite !index_fmap. split.
  - intros Hout.
    assert (Py.index documents i = None) as ->; [|done].
    unfold Py.index.
    destruct (Z.leb_spec 0 i).
    + apply lookup_ge_None. lia.
    + destruct (Z.leb_spec (- Z.of_nat (length documents)) i); [lia|done].
  - intros Hneg.
    assert (Py.index documents i
            = Py.index documents (Z.of_nat (length documents) + i)) as ->;
      [|done].
    unfold Py.index.
    destruct (Z.leb_spec 0 i); [lia|].
    destruct (Z.leb_spec (- Z.of_nat (length documents)) i); [|lia].
    destruct (Z.leb_spec 0 (Z.of_nat (length documents) + i)); [done|lia].
Qed.

Lemma Counter_absent (tokens : list string) (t : string) :
  t ∉ tokens -> BM25.Counter tokens !! t = None.
Proof.
  intros Hnot. destruct (BM25.Counter tokens !! t) as [n|] eqn:E; [|done].
  by apply Counter_lookup in E as [_ ?].
Qed.

Lemma Counter_present (tokens : list string) (t : string) :
  t ∈ tokens -> exists n, BM25.Counter tokens !! t = Some n /\ 1 <= n.
Proof.
  induction tokens as [|t' l IH]; [by intros ?%elem_of_nil|].
  intros Hin. simpl. rewrite incr_lookup. case_decide as Heq.
  - eexists. split; [done|lia].
  - apply elem_of_cons in Hin as [->|Hin]; [done|]. by apply IH.
Qed.

(** A matching token adds a positive term. *)
Lemma score_step_pos (self : BM25.t) (freqs : gmap string nat) (len : nat)
    (r0 : R) (token : string) (f : nat) (v : R) :
  (0 <= BM25.k1 self)%R -> (0 <= BM25.b self <= 1)%R ->
  (0 < BM25.avgdl self)%R ->
  freqs !! token = Some f -> 1 <= f ->
  BM25.idf self !! token = Some v -> (0 < v)%R ->
  exists r, BM25.score_step self freqs len (Some r0) token = Some r
            /\ (r0 < r)%R.
Proof.
  intros Hk Hb Havg Hf Hf1 Hv Hvpos. unfold BM25.score_step.
  cbn [mbind option_bind]. rewrite Hf, Hv. cbn [default].
  destruct (Req_dec_T (BM25.avgdl self) 0) as [?|_]; [lra|].
  assert (Hfr : (1 <= INR f)%R) by (change 1%R with (INR 1); by apply le_INR).
  assert (Hlen : (0 <= INR len)%R) by apply pos_INR.
  assert (Hq : (0 <= BM25.b self * INR len / BM25.avgdl self)%R).
  { apply Rdiv_nonneg; [|done]. apply Rmult_le_pos; lra. }
  set (d := (INR f + BM25.k1 self
                     * (1 - BM25.b self
                        + BM25.b self * INR len / BM25.avgdl self))%R).
  assert (Hd : (1 <= d)%R).
  { unfold d.
    assert (0 <= BM25.k1 self
                 * (1 - BM25.b self
                    + BM25.b self * INR len / BM25.avgdl self))%R; [|lra].
    apply Rmult_le_pos; lra. }
  destruct (Req_dec_T d 0) as [?|_]; [lra|].
  eexists; split; [done|]. simpl. fold d.
  assert (0 < v * (INR f * (BM25.k1 self + 1)) / d)%R; [|lra].
  apply Rdiv_lt_0_compat; [|lra].
  apply Rmult_lt_0_compat; [done|]. apply Rmult_lt_0_compat; lra.
Qed.

Lemma fit_avgdl_pos (self : BM25.t) (documents : list string) (n : nat)
    (d : string) :
  documents !! n = Some d -> 1 <= length (BM25._tokenize d) ->
  (0 < BM25.avgdl (BM25.fit self documents))%R.
Proof.
  intros Hd Hlen. cbn [BM25.avgdl BM25.fit].
  assert (n < length documents) by by eapply lookup_lt_Some.
  destruct (length documents) eqn:En; [lia|].
  assert (length (BM25._tokenize d)
          <= BM25.total_len (map length (map BM25._tokenize documents))).
  { apply (total_len_ge _ n). by rewrite !list_lookup_fmap, Hd. }
  apply Rdiv_lt_0_compat; apply (lt_INR 0); lia.
Qed.

(** Property X4. The score of a document is 0 when it shares no token with the query,
    and positive when it shares one (for [k1 >= 0] and [0 <= b <= 1]). *)
Theorem score_zero_iff_no_match (self : BM25.t) (documents : list string)
    (query : string) (n : nat) (d : string) :
  documents !! n = Some d ->
  ((forall t, t ∈ BM25._tokenize query -> t ∉ BM25._tokenize d) ->
   BM25.score (BM25.fit self documents) query (Z.of_nat n) = Some 0%R)
  /\ ((0 <= BM25.k1 self)%R -> (0 <= BM25.b self <= 1)%R ->
      (exists t, t ∈ BM25._tokenize query /\ t ∈ BM25._tokenize d) ->
      exists r,
        BM25.score (BM25.fit self documents) query (Z.of_nat n) = Some r
        /\ (0 < r)%R).
Proof.
  intros Hd.
  assert (Hscore : BM25.score (BM25.fit self documents) query (Z.of_nat n)
            = foldl (BM25.score_step (BM25.fit self documents)
                       (BM25.Counter (BM25._tokenize d))
                       (length (BM25._tokenize d)))
                    (Some 0%R) (BM25._tokenize query)).
  { unfold BM25.score. cbn [BM25._initialized BM25.fit negb].
    unfold Py.index. destruct (Z.leb_spec 0 (Z.of_nat n)); [|lia].
    rewrite Nat2Z.id. cbn [BM25.doc_freqs BM25.doc_len BM25.fit].
    by rewrite !list_lookup_fmap, Hd. }
  rewrite Hscore. clear Hscore. split.
  - generalize (BM25._tokenize query). intros tokens Hno.
    induction tokens as [|t l IH]; [done|]. cbn [foldl].
    assert (BM25.score_step (BM25.fit self documents)
              (BM25.Counter (BM25._tokenize d)) (length (BM25._tokenize d))
              (Some 0%R) t = Some 0%R) as ->.
    { unfold BM25.score_step. cbn [mbind option_bind].
      rewrite Counter_absent; [done|]. apply Hno. by left. }
    apply IH. intros t' Ht'. apply Hno. by right.
  - intros Hk Hb (t & Htq & Htd).
    set (S0 := BM25.fit (BM25.new (BM25.k1 self) (BM25.b self)) documents).
    assert (Hd' : d ∈ documents) by by eapply list_elem_of_lookup_2.
    rewrite (foldl_ext_all _
               (BM25.score_step S0 (BM25.Counter (BM25._tokenize d))
                  (length (BM25._tokenize d)))).
    2: { intros acc tok. apply score_step_fit_indep; done. }
    assert (Hk0 : (0 <= BM25.k1 S0)%R) by exact Hk.
    assert (Hb0 : (0 <= BM25.b S0 <= 1)%R) by exact Hb.
    assert (Hidf : map_Forall (fun _ v => (0 < v)%R) (BM25.idf S0)).
    { apply (sound_fit (BM25.new (BM25.k1 self) (BM25.b self)) documents).
      repeat split; try done; tauto. }
    assert (Havg : (0 < BM25.avgdl S0)%R).
    { eapply fit_avgdl_pos; [done|].
      destruct (BM25._tokenize d); [by apply elem_of_nil in Htd|simpl; lia]. }
    assert (Hfreqs : forall t' f,
               BM25.Counter (BM25._tokenize d) !! t' = Some f ->
               1 <= f /\ (0 < BM25.avgdl S0)%R).
    { intros t' f [? _]%Counter_lookup. by split. }
    apply list_elem_of_split in Htq as (l1 & l2 & ->).
    rewrite foldl_app. cbn [foldl].
    destruct (score_loop_some S0 _ (length (BM25._tokenize d)) l1 0
                Hk0 Hb0 Hfreqs) as (r1 & -> & Hr1).
    destruct (Counter_present _ _ Htd) as (f & Hf & Hf1).
    assert (Hidx : indexed t documents) by (exists d; done).
    destruct (score_step_pos S0 _ (length (BM25._tokenize d)) r1 t f _
                Hk0 Hb0 Havg Hf Hf1
                (fit_idf_lookup (BM25.new (BM25.k1 self) (BM25.b self))
                   documents t Hidx))
      as (r2 & -> & Hr2); [apply idf_value_pos, containing_le|].
    destruct (score_loop_some S0 _ (length (BM25._tokenize d)) l2 r2
                Hk0 Hb0 Hfreqs) as (r & -> & Hr).
    exists r. split; [done|]. specialize (Hr1 Hidf). specialize (Hr Hidf). lra.
Qed.

Lemma score_zero_iff_no_match_witness :
  BM25.score (BM25.fit BM25.create ["lo au"; "ngu ngon"]) "lo" 1 = Some 0%R
  /\ exists r,
       BM25.score (BM25.fit BM25.create ["lo au"; "ngu ngon"]) "lo" 0 = Some r
       /\ (0 < r)%R.
Proof.
  split.
  - apply (score_zero_iff_no_match BM25.create ["lo au"; "ngu ngon"] "lo" 1
             "ngu ngon" eq_refl).
    intros t Ht. vm_compute in Ht. apply list_elem_of_singleton in Ht as ->.
    vm_compute. intros H. apply elem_of_cons in H as [H|H]; [done|].
    by apply list_elem_of_singleton in H.
  - apply (score_zero_iff_no_match BM25.create ["lo au"; "ngu ngon"] "lo" 0
             "lo au" eq_refl); [unfold BM25.create; simpl; lra..|].
    exists "lo". split; vm_compute; apply list_elem_of_here.
Defined.

Lemma mapM_indexed_elem {B : Type} (g : nat -> option B) (l : list nat)
    (k : list (nat * B)) (p : nat * B) :
  mapM (fun i => s ← g i; Some (i, s)) l = Some k ->
  p ∈ k -> g (fst p) = Some (snd p).
Proof.
  revert k. induction l as [|i l IH]; intros k; cbn [mapM].
  - intros [= <-] Hp. by apply elem_of_nil in Hp.
  - destruct (g i) as [r|] eqn:E; [|done]. cbn.
    destruct (mapM _ l) as [k'|]; [|done]. cbn. intros [= <-].
    intros [->|Hp]%elem_of_cons; [done|]. by apply (IH k').
Qed.

(** Property X5. Every pair that [search] returns is a document of the corpus with its
    own score, no document is returned twice, and with
    [top_k >= len(documents)] every document is returned. *)
Theorem search_returns_documents (self : BM25.t) (documents : list string)
    (query : string) (top_k : Z) (res : list (nat * R)) :
  BM25.search (BM25.fit self documents) query top_k = Some res ->
  NoDup (map fst res)
  /\ (forall p,
        p ∈ res ->
        fst p < length documents
        /\ BM25.score (BM25.fit self documents) query (Z.of_nat (fst p))
           = Some (snd p))
  /\ ((Z.of_nat (length documents) <= top_k)%Z ->
      Permutation (map fst res) (seq 0 (length documents))).
Proof.
  unfold BM25.search. cbn [BM25._initialized BM25.fit negb].
  destruct (BM25.scores (BM25.fit self documents) query) as [l|] eqn:E;
    [|done].
  cbn. intros [= <-]. unfold BM25.scores in E.
  cbn [BM25.doc_count BM25.fit] in E.
  pose proof (mapM_indexed_fst _ _ _ E) as Hfst.
  assert (Hperm : Permutation (map fst (Py.sort_desc snd l))
                    (seq 0 (length documents))).
  { rewrite <- Hfst. apply Permutation_map. symmetry. apply sort_desc_perm. }
  destruct (take_prefix top_k (Py.sort_desc snd l)) as [n Hn].
  split; [|split].
  - rewrite Hn, <- firstn_map. apply NoDup_firstn.
    rewrite Hperm. apply NoDup_seq.
  - intros p Hp%take_elem%sort_desc_elem. split.
    + assert (fst p ∈ seq 0 (length documents)) as Hin%elem_of_seq; [|lia].
      rewrite <- Hfst. by apply list_elem_of_fmap_2.
    + by apply (mapM_indexed_elem _ _ _ p E).
  - intros Hall. rewrite <- Hperm. apply Permutation_map.
    unfold Py.take. destruct (Z.leb_spec 0 top_k); [|lia].
    rewrite firstn_all2; [done|].
    rewrite sort_desc_length, <- (length_map fst), Hfst, length_seq. lia.
Qed.

Lemma search_returns_documents_witness :
  exists res,
    BM25.search (BM25.fit BM25.create ["lo au"; "ngu ngon"]) "lo" 5 = Some res
    /\ Permutation (map fst res) [0; 1].
Proof.
  destruct (search_fit_some BM25.create ["lo au"; "ngu ngon"] "lo" 5)
    as (l & _ & _ & Hres); [unfold BM25.create; simpl; lra..|].
  eexists. split; [exact Hres|].
  apply (search_returns_documents BM25.create ["lo au"; "ngu ngon"] "lo" 5 _
           Hres).
  simpl. lia.
Defined.

(** ** Order of the results *)

Lemma StronglySorted_True {A : Type} (l : list A) :
  StronglySorted (fun _ _ => True) l.
Proof.
  induction l; constructor; [done|]. by apply Forall_forall.
Qed.

Lemma StronglySorted_weaken {A : Type} (P Q : A -> A -> Prop) (l : list A) :
  (forall x y, P x y -> Q x y) -> StronglySorted P l -> StronglySorted Q l.
Proof.
  intros HPQ. induction 1 as [|x l Hl IH Hx]; constructor; [done|].
  eapply Forall_impl; [exact Hx|]. intros y. apply HPQ.
Qed.

Lemma sort_desc_descending (l : list Rag.RetrievalResult) :
  descending (Py.sort_desc Rag.relevance_score l).
Proof.
  eapply StronglySorted_weaken;
    [|apply (sort_desc_sorted Rag.relevance_score (fun _ _ => True)),
        StronglySorted_True].
  intros x y. apply precedes_key.
Qed.

Lemma take_descending (k : Z) (l : list Rag.RetrievalResult) :
  descending l -> descending (Py.take k l).
Proof.
  intros H. destruct (take_prefix k l) as [n ->].
  by apply StronglySorted_firstn.
Qed.

(** A list in descending order is left as it is by the stable sort. *)
Lemma sort_desc_fixed (l : list Rag.RetrievalResult) :
  descending l -> Py.sort_desc Rag.relevance_score l = l.
Proof.
  induction 1 as [|x l Hl IH Hx]; [done|].
  unfold Py.sort_desc in *. cbn [foldr]. rewrite IH.
  destruct l as [|y l']; [done|]. cbn [Py.insert_desc].
  apply Forall_cons_1 in Hx as [Hxy _].
  destruct (Rlt_dec _ _); [lra|done].
Qed.

(** ** Hybrid search: shape of the result and single-channel scores *)

Lemma semantic_entries_keys
    (rag_system : option (Py.json -> Z -> option (list Rag.SemResult)))
    (query : Py.json) (k : Z) (sw : R) (c : string) :
  c ∈ map fst (Rag.semantic_entries rag_system query k sw) ->
  exists retrieve sem,
    rag_system = Some retrieve /\ retrieve query (k * 2)%Z = Some sem
    /\ c ∈ map Rag.sem_content sem.
Proof.
  unfold Rag.semantic_entries.
  destruct rag_system as [retrieve|]; [|by intros ?%elem_of_nil].
  destruct (retrieve query (k * 2)%Z) as [sem|] eqn:E;
    [|by intros ?%elem_of_nil].
  intros Hc. exists retrieve, sem. split; [done|]. split; [done|].
  destruct (decide (c ∈ map Rag.sem_content sem)) as [|Hn]; [done|].
  exfalso. apply dict_get_keys in Hc as [e He].
  rewrite semantic_fold_other in He; [done|].
  by rewrite enumerate_contents.
Qed.

Lemma keyword_contents_cache (self : Rag.t) (items : list (nat * R))
    (c : string) :
  c ∈ keyword_contents self items -> c ∈ Rag._documents_cache self.
Proof.
  unfold keyword_contents. intros (item & _ & H)%list_elem_of_omap.
  by eapply list_elem_of_lookup_2.
Qed.

Lemma keyword_entries_keys (self : Rag.t) (query : Py.json) (k : Z) (kw : R)
    (d : Py.dict Rag.Entry) (c : string) :
  c ∈ map fst (Rag.keyword_entries self query k kw d) ->
  c ∈ map fst d
  \/ (BM25._initialized (Rag.bm25 self) = true
      /\ c ∈ Rag._documents_cache self).
Proof.
  unfold Rag.keyword_entries.
  destruct (BM25._initialized (Rag.bm25 self)); [|by left].
  destruct (Rag.bm25_search self query (k * 2)%Z) as [res|]; [|by left].
  intros Hc.
  destruct (decide (c ∈ keyword_contents self res)) as [Hin|Hn].
  - right. split; [done|]. by eapply keyword_contents_cache.
  - left. apply dict_get_keys. apply dict_get_keys in Hc.
    by rewrite keyword_fold_other in Hc.
Qed.

Lemma combine_entry_content (item : string * Rag.Entry) :
  Rag.content (Rag.combine_entry item) = fst item
  /\ Rag.retrieval_method (Rag.combine_entry item) = "hybrid".
Proof. by destruct item. Qed.

(** Property X7. Whatever the collaborators return, the results of
    [hybrid_search] have distinct contents, are in descending order of
    score, number at most [k] when [k >= 0], are all labelled "hybrid", and
    each content comes from the semantic results of the call or from the
    cache of a fitted index. *)
Theorem hybrid_search_shape
    (rag_system : option (Py.json -> Z -> option (list Rag.SemResult)))
    (self : Rag.t) (query : Py.json) (k : Z)
    (semantic_weight keyword_weight : R) :
  let out :=
    Rag.hybrid_search rag_system self query k semantic_weight keyword_weight in
  NoDup (map Rag.content out)
  /\ descending out
  /\ ((0 <= k)%Z -> length out <= Z.to_nat k)
  /\ forall r,
       r ∈ out ->
       Rag.retrieval_method r = "hybrid"
       /\ ((exists retrieve semantic_results,
              rag_system = Some retrieve
              /\ retrieve query (k * 2)%Z = Some semantic_results
              /\ Rag.content r ∈ map Rag.sem_content semantic_results)
           \/ (BM25._initialized (Rag.bm25 self) = true
               /\ Rag.content r ∈ Rag._documents_cache self)).
Proof.
  intros out. split; [apply hybrid_search_nodup|].
  split; [apply take_descending, sort_desc_descending|].
  split.
  { intros Hk. unfold out, Rag.hybrid_search. rewrite take_length by done.
    lia. }
  intros r Hr%take_elem%sort_desc_elem.
  apply list_elem_of_fmap in Hr as (item & -> & Hitem).
  destruct (combine_entry_content item) as [-> ->]. split; [done|].
  assert (Hkey : fst item ∈ map fst
            (Rag.hybrid_entries rag_system self query k semantic_weight
               keyword_weight)) by by apply list_elem_of_fmap_2.
  apply keyword_entries_keys in Hkey as [Hkey|Hkey]; [left|by right].
  by apply semantic_entries_keys in Hkey.
Qed.

Lemma dict_set_fresh {V : Type} (key : string) (v : V) (d : Py.dict V) :
  Py.dict_get key d = None -> Py.dict_set key v d = d ++ [(key, v)].
Proof.
  induction d as [|[k w] d IH]; [done|]. cbn.
  destruct (String.eqb k key); [done|]. intros H. by rewrite IH.
Qed.

Lemma semantic_fold_distinct (total : nat) (w : R)
    (items : list (nat * Rag.SemResult)) (d : Py.dict Rag.Entry) :
  NoDup (map (fun item => Rag.sem_content (snd item)) items) ->
  (forall c, c ∈ map (fun item => Rag.sem_content (snd item)) items ->
             c ∉ map fst d) ->
  map Rag.combine_entry (foldl (Rag.semantic_step total w) d items)
  = map Rag.combine_entry d ++ map (semantic_result total w) items.
Proof.
  revert d. induction items as [|[i x] items IH]; intros d Hnd Hfresh.
  { cbn. by rewrite app_nil_r. }
  cbn [foldl]. apply NoDup_cons in Hnd as [Hx Hnd].
  assert (Hget : Py.dict_get (Rag.sem_content x) d = None).
  { destruct (Py.dict_get (Rag.sem_content x) d) eqn:E; [|done].
    exfalso. apply (Hfresh (Rag.sem_content x)); [by left|].
    apply dict_get_keys. by rewrite E. }
  unfold Rag.semantic_step at 2. rewrite Hget.
  rewrite dict_set_fresh by done.
  rewrite IH; [| done |].
  - rewrite map_app, <- app_assoc. f_equal. cbn [map app]. f_equal.
    unfold semantic_result. cbn. f_equal. lra.
  - intros c Hc. rewrite map_app. cbn. intros [Hin|Hin]%elem_of_app.
    + apply (Hfresh c); [by right|done].
    + apply list_elem_of_singleton in Hin. subst c. by apply Hx.
Qed.

Lemma semantic_results_descending (total : nat) (w : R)
    (l : list Rag.SemResult) (a : nat) :
  0 < total -> (0 <= w)%R ->
  descending (map (semantic_result total w) (combine (seq a (length l)) l)).
Proof.
  intros Ht Hw. revert a. induction l as [|x l IH]; intros a; [constructor|].
  cbn. constructor; [apply IH|].
  apply Forall_forall. intros r (item & -> & Hitem)%list_elem_of_fmap.
  destruct item as [j y]. apply enumerate_from_elem in Hitem as [Hj _].
  cbn. apply Rmult_le_compat_r; [done|].
  assert (INR a / INR total <= INR j / INR total)%R; [|lra].
  apply Rmult_le_compat_r.
  - left. apply Rinv_0_lt_compat. apply lt_0_INR. lia.
  - apply le_INR. lia.
Qed.

(** Property X8. On an object whose index was never fitted, [hybrid_search]
    returns the semantic results in their order, cut to [k], the result of
    rank [i] among [n] scoring [(1 - i/n) * semantic_weight]; this for
    semantic results of distinct contents and a weight that is not
    negative. *)
Theorem hybrid_without_index
    (rag_system : option (Py.json -> Z -> option (list Rag.SemResult)))
    (self : Rag.t) (query : Py.json) (k : Z)
    (semantic_weight keyword_weight : R)
    (retrieve : Py.json -> Z -> option (list Rag.SemResult))
    (semantic_results : list Rag.SemResult) :
  BM25._initialized (Rag.bm25 self) = false ->
  rag_system = Some retrieve ->
  retrieve query (k * 2)%Z = Some semantic_results ->
  NoDup (map Rag.sem_content semantic_results) ->
  (0 <= semantic_weight)%R ->
  Rag.hybrid_search rag_system self query k semantic_weight keyword_weight
  = Py.take k
      (map (semantic_result (length semantic_results) semantic_weight)
           (Py.enumerate semantic_results)).
Proof.
  intros Hinit -> Hsem Hnd Hw.
  unfold Rag.hybrid_search, Rag.hybrid_entries, Rag.keyword_entries,
    Rag.semantic_entries.
  rewrite Hinit, Hsem. f_equal.
  rewrite semantic_fold_distinct.
  - cbn [map app]. apply sort_desc_fixed.
    destruct semantic_results as [|x l]; [constructor|].
    apply semantic_results_descending; [cbn; lia|done].
  - by rewrite enumerate_contents.
  - intros c _ H. by apply elem_of_nil in H.
Qed.

Lemma hybrid_without_index_witness :
  Rag.hybrid_search (Some single_search) Rag.new (Py.JStr "lo") 1 0.7 0.3
  = Py.take 1
      (map (semantic_result 1 0.7) (Py.enumerate [Rag.SemText "lo au"])).
Proof.
  apply (hybrid_without_index (Some single_search) Rag.new (Py.JStr "lo") 1
           0.7 0.3 single_search [Rag.SemText "lo au"]).
  - reflexivity.
  - reflexivity.
  - reflexivity.
  - simpl. apply NoDup_singleton.
  - lra.
Defined.

(** ** Reranking and the orchestrator: order, size and provenance *)

Lemma rerank_contents (json_loads : string -> option Py.json)
    (generate_content : nat -> string -> option string) (call : nat)
    (query : string) (results : list Rag.RetrievalResult) :
  map Rag.content
    (map (Rag.rerank_one json_loads generate_content call query)
         (Py.enumerate results))
  = map Rag.content results.
Proof.
  rewrite <- (enumerate_from_snd results 0) at 2. unfold Py.enumerate.
  rewrite !map_map. apply map_ext. intros [i r].
  by destruct (rerank_one_spec json_loads generate_content call query i r)
    as [-> _].
Qed.

Lemma ranking_contents (json_loads : string -> option Py.json)
    (model : option (nat -> string -> option string)) (call : nat)
    (query : string) (results : list Rag.RetrievalResult) :
  Permutation (map Rag.content (ranking json_loads model call query results))
    (map Rag.content results).
Proof.
  rewrite ranking_unfold. destruct model as [g|]; [|done].
  destruct results as [|r l]; [done|].
  rewrite <- (rerank_contents json_loads g call query (r :: l)).
  apply Permutation_map. symmetry. apply sort_desc_perm.
Qed.

Lemma rerank_results_prefix (json_loads : string -> option Py.json)
    (model : option (nat -> string -> option string)) (call : nat)
    (query : string) (results : list Rag.RetrievalResult) (top_k : Z) :
  exists n,
    Rag.rerank_results json_loads model call query results top_k
    = firstn n (ranking json_loads model call query results).
Proof.
  rewrite ranking_unfold. unfold Rag.rerank_results.
  destruct model as [g|]; [destruct results as [|r l]|]; apply take_prefix.
Qed.

Lemma NoDup_contents_firstn (n : nat) (l : list Rag.RetrievalResult) :
  NoDup (map Rag.content l) -> NoDup (map Rag.content (firstn n l)).
Proof. intros H. rewrite <- firstn_map. by apply NoDup_firstn. Qed.

Lemma rerank_results_nodup (json_loads : string -> option Py.json)
    (model : option (nat -> string -> option string)) (call : nat)
    (query : string) (results : list Rag.RetrievalResult) (top_k : Z) :
  NoDup (map Rag.content results) ->
  NoDup (map Rag.content
           (Rag.rerank_results json_loads model call query results top_k)).
Proof.
  intros H.
  destruct (rerank_results_prefix json_loads model call query results top_k)
    as [n ->].
  apply NoDup_contents_firstn. by rewrite ranking_contents.
Qed.

Lemma rerank_results_descending (json_loads : string -> option Py.json)
    (model : option (nat -> string -> option string)) (call : nat)
    (query : string) (results : list Rag.RetrievalResult) (top_k : Z) :
  model = None -> descending results ->
  descending (Rag.rerank_results json_loads model call query results top_k).
Proof. intros -> H. by apply take_descending. Qed.

(** Property X11. Without a model [rerank_results] returns the candidates
    as they come, cut to [top_k]. With or without one, its result is the
    front of a ranking that holds the contents of the candidates, each as
    often as they do: candidates of distinct contents give results of
    distinct contents, and all contents are returned when [top_k] is at
    least the number of candidates. *)
Theorem rerank_keeps_contents (json_loads : string -> option Py.json)
    (model : option (nat -> string -> option string)) (call : nat)
    (query : string) (results : list Rag.RetrievalResult) (top_k : Z) :
  let out := Rag.rerank_results json_loads model call query results top_k in
  (model = None -> out = Py.take top_k results)
  /\ (exists n,
        out = firstn n (ranking json_loads model call query results))
  /\ Permutation
       (map Rag.content (ranking json_loads model call query results))
       (map Rag.content results)
  /\ (NoDup (map Rag.content results) -> NoDup (map Rag.content out))
  /\ ((Z.of_nat (length results) <= top_k)%Z ->
      Permutation (map Rag.content out) (map Rag.content results)).
Proof.
  intros out. split; [|split; [|split; [|split]]].
  - by intros ->.
  - apply rerank_results_prefix.
  - apply ranking_contents.
  - apply rerank_results_nodup.
  - intros Hk.
    destruct (rerank_results_take json_loads model call query results top_k)
      as [Heq Hlen]; [lia|].
    unfold out. rewrite Heq, firstn_all2 by lia. apply ranking_contents.
Qed.

(** Property X12. The results of [retrieve_with_precision] have distinct
    contents, number at most [k] when [k >= 0], and each of them was
    retrieved by one of the expanded queries; they are in descending order
    of score when no model rescored them (reranking off, or no model). *)
Theorem retrieve_shape (json_loads : string -> option Py.json)
    (model : option (nat -> string -> option string))
    (rag_system : option (Py.json -> Z -> option (list Rag.SemResult)))
    (self : Rag.t) (query : string) (k : Z)
    (use_multi_query use_hybrid use_rerank : bool)
    (final_results : list Rag.RetrievalResult) :
  Rag.retrieve_with_precision json_loads model rag_system self query k
    use_multi_query use_hybrid use_rerank = Some final_results ->
  NoDup (map Rag.content final_results)
  /\ (use_rerank = false \/ model = None -> descending final_results)
  /\ ((0 <= k)%Z -> length final_results <= Z.to_nat k)
  /\ forall r,
       r ∈ final_results ->
       exists q l r0,
         q ∈ Rag.expanded_queries json_loads model query use_multi_query
         /\ Rag.query_results rag_system self q k use_hybrid = Some l
         /\ r0 ∈ l /\ Rag.content r0 = Rag.content r.
Proof.
  unfold Rag.retrieve_with_precision.
  destruct (mapM _ _) as [per_query|] eqn:E; [|done].
  cbn [mbind option_bind]. intros [= <-].
  pose proof (merged_results_nodup per_query) as Hnd.
  assert (Hsorted : descending (Rag.merged_results per_query))
    by apply sort_desc_descending.
  assert (Hfrom : forall c,
            c ∈ map Rag.content (Rag.merged_results per_query) ->
            exists q l r0,
              q ∈ Rag.expanded_queries json_loads model query use_multi_query
              /\ Rag.query_results rag_system self q k use_hybrid = Some l
              /\ r0 ∈ l /\ Rag.content r0 = c).
  { intros c (r & -> & Hr)%list_elem_of_fmap.
    pose proof (merged_results_score per_query r Hr) as Hb.
    destruct (occurrences (Rag.content r) (concat per_query)) as [|s occ]
      eqn:Hocc; [done|].
    assert (Hs : s ∈ occurrences (Rag.content r) (concat per_query))
      by (rewrite Hocc; left).
    unfold occurrences in Hs.
    apply list_elem_of_fmap in Hs as (r0 & _ & Hr0).
    apply list_elem_of_filter in Hr0 as [Hc Hr0].
    apply list_elem_of_In, in_concat in Hr0 as (l & Hl & Hr0).
    apply list_elem_of_In in Hl, Hr0.
    pose proof (mapM_Some_elem _ _ _ E) as Hall.
    rewrite Forall_forall in Hall. destruct (Hall l Hl) as (q & Hq & Hql).
    by exists q, l, r0. }
  destruct use_rerank.
  - split; [|split; [|split]].
    + apply rerank_results_nodup.
      destruct (take_prefix (k * 2) (Rag.merged_results per_query)) as [n ->].
      by apply NoDup_contents_firstn.
    + intros [?| ->]; [done|].
      apply rerank_results_descending; [done|]. by apply take_descending.
    + intros Hk.
      destruct (rerank_results_take json_loads model
                  (Rag.calls_made model use_multi_query) query
                  (Py.take (k * 2) (Rag.merged_results per_query)) k Hk)
        as [-> _].
      rewrite length_firstn. lia.
    + intros r Hr. apply Hfrom.
      destruct (rerank_results_prefix json_loads model
                  (Rag.calls_made model use_multi_query) query
                  (Py.take (k * 2) (Rag.merged_results per_query)) k)
        as [n Hn].
      rewrite Hn in Hr. apply (subseteq_take n) in Hr.
      apply (list_elem_of_fmap_2 Rag.content) in Hr.
      rewrite ranking_contents in Hr.
      apply list_elem_of_fmap in Hr as (r1 & -> & Hr1%take_elem).
      by apply list_elem_of_fmap_2.
  - split; [|split; [|split]].
    + destruct (take_prefix k (Rag.merged_results per_query)) as [n ->].
      by apply NoDup_contents_firstn.
    + intros _. by apply take_descending.
    + intros Hk. rewrite take_length by done. lia.
    + intros r Hr%take_elem. apply Hfrom. by apply list_elem_of_fmap_2.
Qed.

Lemma retrieve_shape_witness :
  exists final_results,
    Rag.retrieve_with_precision failing_loads None (Some double_search)
      Rag.new "lo" 2 false true false = Some final_results
    /\ NoDup (map Rag.content final_results)
    /\ descending final_results
    /\ length final_results <= 2.
Proof.
  eexists. split; [reflexivity|].
  destruct (retrieve_shape failing_loads None (Some double_search) Rag.new
              "lo" 2 false true false _ eq_refl)
    as (Hnd & Hsorted & Hlen & _).
  split; [exact Hnd|]. split; [apply Hsorted; by left|]. apply Hlen. lia.
Defined.

(** ** Citations and query expansion *)

Lemma join_sep_length (sep : string) (l : list string) :
  String.length (Str.join sep l)
  = sum_len l + String.length sep * (length l - 1).
Proof.
  induction l as [|x [|y l] IH]; [cbn; lia|cbn; lia|].
  change (Str.join sep (x :: y :: l)) with (x +:+ sep +:+ Str.join sep (y :: l)).
  rewrite !str_length_app, IH. cbn [sum_len foldr length]. lia.
Qed.

Lemma combine_seq_lookup {A : Type} (l : list A) (a i : nat) (x : A) :
  l !! i = Some x -> combine (seq a (length l)) l !! i = Some (a + i, x).
Proof.
  revert a i. induction l as [|y l IH]; intros a [|i]; try done.
  - intros [= ->]. cbn. do 2 f_equal. lia.
  - intros H. cbn [length seq combine]. rewrite lookup_cons.
    cbn in H. rewrite (IH (S a) i H). do 2 f_equal. lia.
Qed.

(** Property X13. [get_context_with_citations] gives one citation per
    result, the citation at position [i] carrying the number [i + 1] and the
    source, page, title and score of the result at position [i]; the
    context is the contents with a separator of seven characters between
    two of them and none at either end, and is empty for no result. *)
Theorem citations_numbered (results : list Rag.RetrievalResult) :
  let context := fst (Rag.get_context_with_citations results) in
  let citations := snd (Rag.get_context_with_citations results) in
  length citations = length results
  /\ (forall i r,
        results !! i = Some r -> citations !! i = Some (citation_of (S i) r))
  /\ String.length context
     = sum_len (map Rag.content results) + 7 * (length results - 1)
  /\ (results = [] -> context = EmptyString).
Proof.
  cbn [fst snd Rag.get_context_with_citations]. split; [|split; [|split]].
  - rewrite length_map, length_combine, length_seq. lia.
  - intros i r Hr. rewrite list_lookup_fmap.
    by rewrite (combine_seq_lookup results 1 i r Hr).
  - rewrite join_sep_length, length_map. done.
  - by intros ->.
Qed.

Lemma prefix_letters (p s : string) (c : ascii) :
  String.prefix p s = true -> c ∈ letters p -> c ∈ letters s.
Proof.
  revert s. induction p as [|a p IH]; intros s.
  { intros _ H. cbn in H. by apply elem_of_nil in H. }
  destruct s as [|b s]; [done|]. cbn.
  destruct (Ascii.ascii_dec a b) as [->|]; [|done].
  intros Hp [->|Hc]%elem_of_cons; [left|right; by apply IH].
Qed.

Lemma find_letters (p s : string) (c : ascii) :
  is_Some (Str.find p s) -> c ∈ letters p -> c ∈ letters s.
Proof.
  induction s as [|b s IH]; cbn [Str.find].
  - destruct (String.prefix p EmptyString) eqn:E;
      [|by intros ?%is_Some_None].
    intros _. by apply prefix_letters.
  - destruct (String.prefix p (String b s)) eqn:E.
    + intros _. by apply prefix_letters.
    + destruct (Str.find p s); [|by intros ?%is_Some_None].
      intros _ Hc. cbn [letters]. right. apply IH; [by eexists|done].
Qed.

Lemma lower_char_not_upper (c : ascii) : Str.is_upper (Str.lower_char c) = false.
Proof.
  destruct c as [[] [] [] [] [] [] [] []]; reflexivity.
Qed.

Lemma lower_letters (s : string) (c : ascii) :
  c ∈ letters (Str.lower s) -> Str.is_upper c = false.
Proof.
  induction s as [|a s IH]; cbn; [by intros ?%elem_of_nil|].
  intros [->|H]%elem_of_cons; [apply lower_char_not_upper|by apply IH].
Qed.

Lemma upper_term_absent (term query : string) (c : ascii) :
  c ∈ letters term -> Str.is_upper c = true ->
  Str.contains term (Str.lower query) = false.
Proof.
  intros Hc Hup. unfold Str.contains.
  destruct (Str.find term (Str.lower query)) as [i|] eqn:E; [|done].
  assert (Hl : c ∈ letters (Str.lower query)).
  { apply (find_letters term); [by rewrite E|done]. }
  apply lower_letters in Hl. congruence.
Qed.

(** Property X14. [_simple_query_expansion] looks its terms up in the
    lower-cased query, so a term with an upper-case letter never matches:
    the entry "CBT" of the synonym table gives no expansion for any
    query. *)
Theorem upper_case_key_never_matches (query : string) :
  (forall term c,
     c ∈ letters term -> Str.is_upper c = true ->
     Str.contains term (Str.lower query) = false)
  /\ Rag._simple_query_expansion query
     = expansion_from
         (filter (fun entry => fst entry <> "CBT") Rag.synonym_map) query.
Proof.
  split; [intros term c; apply upper_term_absent|].
  unfold Rag._simple_query_expansion, expansion_from. f_equal.
  set (table := filter _ _). vm_compute in table. subst table.
  unfold Rag.synonym_map. cbn [flat_map].
  rewrite (upper_term_absent "CBT" query "C"); [done| |done].
  left.
Qed.

(** ** Semantic chunker: offsets and order of the chunks *)

Lemma run_le (p : ascii -> bool) (s : string) : Re.run p s <= String.length s.
Proof. induction s as [|c s IH]; cbn; [done|]. destruct (p c); lia. Qed.

Lemma paragraph_break_le (s : string) (n : nat) :
  Re.paragraph_break s = Some n -> n <= String.length s.
Proof.
  destruct s as [|c1 [|c2 s]]; cbn; try done.
  destruct (_ && _); [|done]. intros [= <-].
  pose proof (run_le Re.is_newline s). lia.
Qed.

Lemma line_start_le (s : string) (n : nat) :
  Re.line_start s = Some n -> n <= String.length s.
Proof.
  destruct s as [|c1 [|c2 s]]; cbn; try done.
  destruct (_ && _); [|done]. intros [= <-]. lia.
Qed.

Lemma period_capital_le (s : string) (n : nat) :
  Re.period_capital s = Some n -> n <= String.length s.
Proof.
  destruct s as [|c1 [|c2 [|c3 s]]]; cbn; try done.
  destruct (_ && _); [|done]. intros [= <-]. lia.
Qed.

Lemma sentence_end_le (s : string) (n : nat) :
  Re.sentence_end s = Some n -> n <= String.length s.
Proof.
  destruct s as [|c s]; cbn; try done.
  destruct (Re.is_sentence_end c); [|done].
  pose proof (run_le Str.is_space s).
  destruct (Re.run Str.is_space s); [done|]. intros [= <-]. lia.
Qed.

Lemma match_ends_bound (pattern : string -> option nat) (s : string)
    (pos skip e : nat) :
  (forall s' n, pattern s' = Some n -> n <= String.length s') ->
  e ∈ Re.match_ends pattern pos skip s -> e <= pos + String.length s.
Proof.
  intros Hp. revert pos skip. induction s as [|c s IH]; intros pos skip.
  { by intros ?%elem_of_nil. }
  cbn [Re.match_ends String.length]. destruct skip as [|k].
  - destruct (pattern (String c s)) as [[|len]|] eqn:E.
    + intros H%IH. lia.
    + apply Hp in E. cbn in E.
      intros [->|H%IH]%elem_of_cons; lia.
    + intros H%IH. lia.
  - intros H%IH. lia.
Qed.

Lemma boundaries_le (text : string) (x : nat) :
  x ∈ SemanticChunker._find_semantic_boundaries text ->
  x <= String.length text.
Proof.
  unfold SemanticChunker._find_semantic_boundaries.
  rewrite sorted_set_elem. cbn [flat_map].
  rewrite !elem_of_app, !list_elem_of_singleton, elem_of_nil.
  intros [->|[[H|[H|[H|[H|[]]]]]| ->]]; [lia| | | | |lia].
  - apply match_ends_bound in H; [done|apply paragraph_break_le].
  - apply match_ends_bound in H; [done|apply line_start_le].
  - apply match_ends_bound in H; [done|apply period_capital_le].
  - apply match_ends_bound in H; [done|apply sentence_end_le].
Qed.

Lemma StronglySorted_snoc {A : Type} (R : A -> A -> Prop) (l : list A)
    (y : A) :
  StronglySorted R l -> Forall (fun x => R x y) l ->
  StronglySorted R (l ++ [y]).
Proof.
  induction 1 as [|x l Hl IH Hx]; intros Hy; cbn.
  - repeat constructor.
  - apply Forall_cons_1 in Hy as [Hxy Hy]. constructor; [by apply IH|].
    apply Forall_app. split; [done|]. by constructor.
Qed.

Lemma strip_empty : Str.strip EmptyString = EmptyString.
Proof. reflexivity. Qed.

Lemma nonempty_true (s : string) : Str.nonempty s = true <-> s <> EmptyString.
Proof. by destruct s. Qed.

(** The chunk cut from the running text is faithful. *)
Lemma emitted_faithful (text : string) (s p : nat) :
  s <= p -> p <= String.length text ->
  Str.nonempty (Str.strip (Str.slice s p text)) = true ->
  faithful text
    {| SemanticChunker.content := Str.strip (Str.slice s p text);
       SemanticChunker.start := Z.of_nat s;
       SemanticChunker.end_ := p;
       SemanticChunker.tokens :=
         SemanticChunker._estimate_tokens (Str.slice s p text) |}.
Proof.
  intros Hsp Hp Hne. exists s. cbn.
  assert (s <> p).
  { intros ->. by rewrite slice_empty in Hne. }
  split; [done|]. split; [lia|]. split; [done|].
  split; [by apply nonempty_true|].
  unfold SemanticChunker._estimate_tokens. by rewrite slice_length.
Qed.

Lemma chunk_step_invariant (self : SemanticChunker.t) (text : string)
    (st : SemanticChunker.State) (p b : nat) :
  p < b -> b <= String.length text ->
  chunk_invariant text p st ->
  chunk_invariant text b (SemanticChunker.chunk_step self text st (p, b)).
Proof.
  intros Hpb Hb (s & Hstart & Hsp & Htext & Hfaith & Hsorted & Hbelow).
  unfold SemanticChunker.chunk_step. rewrite !Htext, !Hstart.
  set (chunks' := if Str.nonempty _ then _ else _).
  set (overlap_text := if (_ >? 0)%Z then _ else _).
  assert (Hchunks :
    Forall (faithful text) chunks' /\ StronglySorted advances chunks'
    /\ Forall (fun c => (SemanticChunker.start c <= Z.of_nat s)%Z
                        /\ SemanticChunker.end_ c < b) chunks').
  { assert (Hold : Forall (fun c => (SemanticChunker.start c <= Z.of_nat s)%Z
                        /\ SemanticChunker.end_ c < b)
                     (SemanticChunker.chunks st)).
    { eapply Forall_impl; [exact Hbelow|]. cbn. intros c [? ?]. lia. }
    unfold chunks'.
    destruct (Str.nonempty (Str.strip (Str.slice s p text))) eqn:Hne;
      [|done].
    split; [|split].
    - apply Forall_app. split; [done|]. constructor; [|constructor].
      apply emitted_faithful; [done|lia|done].
    - apply StronglySorted_snoc; [done|].
      eapply Forall_impl; [exact Hbelow|]. intros c [? ?]. by split.
    - apply Forall_app. split; [done|]. constructor; [|constructor].
      cbn. lia. }
  assert (Hov : exists m, m <= p - s
                  /\ overlap_text = Str.slice (p - m) p text).
  { unfold overlap_text.
    destruct (_ >? 0)%Z.
    - eexists. split; [|apply slice_last_n; lia]. lia.
    - exists 0. split; [lia|]. by rewrite Nat.sub_0_r, slice_empty. }
  destruct Hov as (m & Hm & Hov).
  assert (Hlen : String.length overlap_text = m).
  { rewrite Hov, slice_length by lia. lia. }
  destruct Hchunks as (Hf' & Hs' & Hb').
  clearbody overlap_text chunks'.
  destruct (_ >? _)%Z.
  - exists (p - m). cbn. split; [rewrite Hlen; lia|]. split; [lia|].
    split; [rewrite Hov; apply slice_app; lia|].
    split; [done|]. split; [done|].
    eapply Forall_impl; [exact Hb'|]. cbn. intros c [? ?]. lia.
  - exists s. cbn. split; [done|]. split; [lia|].
    split; [apply slice_app; lia|].
    split; [done|]. split; [done|].
    eapply Forall_impl; [exact Hbelow|]. cbn. intros c [? ?]. lia.
Qed.

Lemma chunk_loop_invariant (self : SemanticChunker.t) (text : string)
    (bs : list nat) (a : nat) (st : SemanticChunker.State) :
  StronglySorted lt (a :: bs) ->
  Forall (fun x => x <= String.length text) (a :: bs) ->
  chunk_invariant text a st ->
  chunk_invariant text (List.last bs a)
    (foldl (SemanticChunker.chunk_step self text) st
       (SemanticChunker.consecutive (a :: bs))).
Proof.
  revert a st. induction bs as [|b bs IH]; intros a st Hsorted Hle Hinv.
  { done. }
  apply StronglySorted_inv in Hsorted as [Hsorted Ha].
  apply Forall_cons_1 in Ha as [Hab _].
  apply Forall_cons_1 in Hle as [_ Hle].
  rewrite last_cons_default.
  change (SemanticChunker.consecutive (a :: b :: bs))
    with ((a, b) :: SemanticChunker.consecutive (b :: bs)).
  cbn [foldl]. apply IH; [done|done|].
  apply chunk_step_invariant; [done| |done].
  by apply Forall_cons_1 in Hle as [? _].
Qed.

Lemma last_elem {A : Type} (l : list A) (a : A) : List.last l a ∈ a :: l.
Proof.
  revert a. induction l as [|b l IH]; intros a; [left|].
  rewrite last_cons_default. right. apply IH.
Qed.

Lemma chunk_final_invariant (self : SemanticChunker.t) (text : string) :
  chunk_invariant text (String.length text)
    (SemanticChunker.chunk_loop self text
       (SemanticChunker._find_semantic_boundaries text)).
Proof.
  destruct (boundaries_shape text) as (bs & Hbs & Hsorted & Hlast).
  assert (Hle : Forall (fun x => x <= String.length text) (0 :: bs)).
  { apply Forall_forall. intros x Hx. apply boundaries_le. by rewrite Hbs. }
  assert (Hend : List.last bs 0 = String.length text).
  { pose proof (last_elem bs 0) as Hin.
    rewrite Forall_forall in Hle. apply Hle in Hin. lia. }
  unfold SemanticChunker.chunk_loop. rewrite Hbs, <- Hend.
  apply chunk_loop_invariant; [done|done|].
  exists 0. split; [done|]. split; [done|].
  split; [by rewrite slice_empty|]. repeat split; constructor.
Qed.

(** Property X16. The offsets of a chunk are faithful, whatever the sizes
    and the overlap: [0 <= start < end <= len(text)], the content is
    [text[start:end]] stripped and is not empty, and the token count is
    [(end - start) // 4]. *)
Theorem chunk_offsets (self : SemanticChunker.t) (text : string)
    (c : SemanticChunker.Chunk) :
  c ∈ SemanticChunker.chunk self text -> faithful text c.
Proof.
  destruct (chunk_final_invariant self text)
    as (s & Hstart & Hsp & Htext & Hfaith & _ & _).
  unfold SemanticChunker.chunk, SemanticChunker.finish.
  rewrite Forall_forall in Hfaith.
  destruct (Str.nonempty _) eqn:Hne; [|by apply Hfaith].
  intros [Hc|Hc%list_elem_of_singleton]%elem_of_app; [by apply Hfaith|].
  subst c. rewrite Htext, Hstart. rewrite Htext in Hne.
  by apply emitted_faithful.
Qed.

Lemma chunk_offsets_witness :
  faithful "Xin chao. Ban khoe khong?"
    (SemanticChunker.mkChunk "Xin chao. Ban khoe khong?" 0 25 6).
Proof.
  apply (chunk_offsets SemanticChunker.create).
  vm_compute. left.
Defined.

(** Property X17. The chunks come in the order of the text: from one chunk
    to any later one the start does not decrease and the end increases. *)
Theorem chunk_order (self : SemanticChunker.t) (text : string) :
  StronglySorted advances (SemanticChunker.chunk self text).
Proof.
  destruct (chunk_final_invariant self text)
    as (s & Hstart & Hsp & Htext & _ & Hsorted & Hbelow).
  unfold SemanticChunker.chunk, SemanticChunker.finish.
  destruct (Str.nonempty _); [|done].
  apply StronglySorted_snoc; [done|].
  eapply Forall_impl; [exact Hbelow|]. intros c [? ?].
  split; cbn [SemanticChunker.start SemanticChunker.end_];
    [rewrite Hstart|]; lia.
Qed.

(** ** Sentence chunker: sentences, overlap and runs *)

Lemma rstrip_idem (s : string) : Str.rstrip (Str.rstrip s) = Str.rstrip s.
Proof.
  induction s as [|c s IH]; [done|]. cbn [Str.rstrip].
  destruct (Str.rstrip s) as [|d r] eqn:E.
  - destruct (Str.is_space c) eqn:Ec; [done|]. cbn. by rewrite Ec.
  - cbn [Str.rstrip]. cbn [Str.rstrip] in IH. by rewrite IH.
Qed.

Lemma lstrip_head (s : string) :
  match Str.lstrip s with
  | EmptyString => True
  | String c _ => Str.is_space c = false
  end.
Proof.
  induction s as [|c s IH]; [done|]. cbn.
  destruct (Str.is_space c) eqn:E; [done|]. by cbn.
Qed.

Lemma rstrip_head (c : ascii) (s : string) :
  Str.is_space c = false ->
  exists r, Str.rstrip (String c s) = String c r.
Proof.
  intros Hc. cbn. destruct (Str.rstrip s); [|by eexists].
  rewrite Hc. by eexists.
Qed.

Lemma strip_idem (s : string) : Str.strip (Str.strip s) = Str.strip s.
Proof.
  unfold Str.strip. pose proof (lstrip_head s) as H.
  destruct (Str.lstrip s) as [|c t]; [done|].
  destruct (rstrip_head c t H) as [r Hr]. rewrite Hr.
  cbn [Str.lstrip]. rewrite H, <- Hr. apply rstrip_idem.
Qed.

Lemma sentences_are_stripped (text : string) :
  Forall (fun s => s <> EmptyString /\ Str.strip s = s)
    (LoadKb.split_into_sentences text).
Proof.
  unfold LoadKb.split_into_sentences. apply Forall_forall.
  intros s (piece & -> & Hpiece)%list_elem_of_fmap.
  apply list_elem_of_filter in Hpiece as [Hne _].
  split; [by apply nonempty_true|apply strip_idem].
Qed.

(** Property X18. The sentences of [split_into_sentences] are not empty and
    have no white space at either end, and together with one separator
    between two of them they are no longer than the text. *)
Theorem sentences_stripped (text : string) :
  Forall (fun s => s <> EmptyString /\ Str.strip s = s)
    (LoadKb.split_into_sentences text)
  /\ sum_len (LoadKb.split_into_sentences text)
     + (length (LoadKb.split_into_sentences text) - 1)
     <= String.length text.
Proof.
  split; [apply sentences_are_stripped|apply sentences_bound].
Qed.

(** Property X19. The sentences carried over into the next chunk are a
    suffix of the chunk that was closed, their total length (separators not
    counted) is within [overlap], and the sentence in front of them would
    have passed it. *)
Theorem overlap_is_a_bounded_suffix (overlap : Z) (current : list string) :
  let kept := fst (LoadKb.overlap_loop overlap (rev current) [] 0) in
  let size := snd (LoadKb.overlap_loop overlap (rev current) [] 0) in
  size = sum_len kept
  /\ (kept <> [] -> (Z.of_nat size <= overlap)%Z)
  /\ exists dropped,
       current = dropped ++ kept
       /\ forall s, last dropped = Some s ->
            (overlap < Z.of_nat (size + String.length s))%Z.
Proof.
  destruct (overlap_loop_spec overlap (rev current) [] 0)
    as (taken & remaining & Hrev & -> & Hbudget & Hnext).
  cbn [fst snd]. rewrite app_nil_r, Nat.add_0_l in *.
  assert (Hsum : sum_len (rev taken) = sum_len taken).
  { clear. induction taken as [|t taken IH]; [done|].
    cbn [rev]. rewrite sum_len_app, IH. unfold sum_len. cbn. lia. }
  split; [by rewrite Hsum|]. split.
  { intros Hne. apply Hbudget. by intros ->. }
  exists (rev remaining). split.
  - rewrite <- (rev_involutive current), Hrev. apply rev_app_distr.
  - intros s Hs. apply Hnext.
    destruct remaining as [|r remaining]; [done|].
    cbn [rev] in Hs. rewrite last_snoc in Hs. done.
Qed.

Lemma overlap_loop_suffix (overlap : Z) (current : list string) :
  exists dropped,
    current = dropped ++ fst (LoadKb.overlap_loop overlap (rev current) [] 0).
Proof.
  destruct (overlap_loop_spec overlap (rev current) [] 0)
    as (taken & remaining & Hrev & -> & _).
  cbn [fst]. rewrite app_nil_r. exists (rev remaining).
  rewrite <- (rev_involutive current), Hrev. apply rev_app_distr.
Qed.

Lemma run_of_extend (seen : list string) (x : string) (c : LoadKb.Chunk) :
  run_of seen c -> run_of (seen ++ [x]) c.
Proof.
  intros (before & l & after & -> & Hl & Hc).
  exists before, l, (after ++ [x]). by rewrite <- !app_assoc.
Qed.

Lemma join_blank : Str.strip (Str.join " " []) = EmptyString.
Proof. reflexivity. Qed.

Lemma sentence_step_runs (headings : list (nat * string))
    (target_size min_size overlap : Z) (seen : list string)
    (st : LoadKb.State) (x : string) :
  run_invariant seen st ->
  run_invariant (seen ++ [x])
    (LoadKb.sentence_step headings target_size min_size overlap st x).
Proof.
  intros [[before Hseen] Hchunks]. unfold LoadKb.sentence_step.
  set (closing := (_ >? _)%Z && _).
  destruct (if closing then _ else _) as [kept kept_size] eqn:Hkept.
  split; cbn [LoadKb.current_chunk LoadKb.chunks].
  - assert (exists dropped, LoadKb.current_chunk st = dropped ++ kept)
      as [dropped Hd].
    { destruct closing.
      - destruct (overlap_loop_suffix overlap (LoadKb.current_chunk st))
          as [dropped Hd].
        rewrite Hkept in Hd. by exists dropped.
      - injection Hkept as <- _. by exists []. }
    exists (before ++ dropped). rewrite Hseen, Hd. by rewrite <- !app_assoc.
  - assert (Hold : Forall (fun c => run_of (seen ++ [x]) c
                                    /\ LoadKb.type c = "content")
                     (LoadKb.chunks st)).
    { eapply Forall_impl; [exact Hchunks|]. intros c [? ?].
      split; [by apply run_of_extend|done]. }
    destruct (closing && _) eqn:E; [|done].
    apply andb_prop in E as [_ Hne].
    apply Forall_app. split; [done|]. constructor; [|constructor].
    split; [|done]. apply run_of_extend.
    exists before, (LoadKb.current_chunk st), []. rewrite app_nil_r.
    split; [done|]. split; [|done].
    intros Hnil. by rewrite Hnil in Hne.
Qed.

Lemma chunk_loop_runs (headings : list (nat * string))
    (target_size min_size overlap : Z) (sentences seen : list string)
    (st : LoadKb.State) :
  run_invariant seen st ->
  run_invariant (seen ++ sentences)
    (foldl (LoadKb.sentence_step headings target_size min_size overlap) st
       sentences).
Proof.
  revert seen st. induction sentences as [|x sentences IH]; intros seen st H.
  { by rewrite app_nil_r. }
  cbn [foldl]. replace (seen ++ x :: sentences) with ((seen ++ [x]) ++ sentences)
    by by rewrite <- app_assoc.
  apply IH. by apply sentence_step_runs.
Qed.

Lemma join_nonempty (l : list string) :
  l <> [] -> Forall (fun s => s <> EmptyString) l ->
  Str.join " " l <> EmptyString.
Proof.
  destruct l as [|x [|y l]]; [done| |].
  - intros _ [Hx _]%Forall_cons_1. done.
  - intros _ [Hx _]%Forall_cons_1. cbn. by destruct x.
Qed.

(** Property X20. Every chunk of [semantic_chunk] has the type "content"
    and a content that is not empty: one or more sentences of the text that
    follow one another, joined by single spaces. *)
Theorem chunks_are_runs_of_sentences
    (find_headings : string -> list (nat * string)) (text : string)
    (target_size min_size overlap : Z) (c : LoadKb.Chunk) :
  c ∈ LoadKb.semantic_chunk find_headings text target_size min_size overlap ->
  LoadKb.type c = "content"
  /\ LoadKb.content c <> EmptyString
  /\ run_of (LoadKb.split_into_sentences text) c.
Proof.
  unfold LoadKb.semantic_chunk, LoadKb.chunk_loop.
  pose proof (chunk_loop_runs (find_headings text) target_size min_size overlap
                (LoadKb.split_into_sentences text) []
                (LoadKb.mkState [] [] 0 None 0)) as Hinv.
  cbn [app] in Hinv. destruct Hinv as [[before Hseen] Hchunks].
  { split; [by exists []|constructor]. }
  set (st := foldl _ _ _) in *.
  assert (Hall : Forall (fun c => run_of (LoadKb.split_into_sentences text) c
                                  /\ LoadKb.type c = "content")
                   (LoadKb.finish min_size st)).
  { unfold LoadKb.finish.
    destruct (LoadKb.current_chunk st) as [|y l] eqn:Hcur; [done|].
    destruct (_ && _); [|done].
    apply Forall_app. split; [done|]. constructor; [|constructor].
    split; [|done]. exists before, (y :: l), []. by rewrite app_nil_r. }
  rewrite Forall_forall in Hall. intros [Hrun Htype]%Hall.
  split; [done|]. split; [|done].
  destruct Hrun as (pre & l & post & Hsplit & Hl & ->).
  apply join_nonempty; [done|].
  pose proof (sentences_are_stripped text) as Hs.
  rewrite Hsplit, !Forall_app in Hs. destruct Hs as (_ & Hs & _).
  eapply Forall_impl; [exact Hs|]. by intros s [? _].
Qed.

Lemma chunks_are_runs_of_sentences_witness :
  run_of (LoadKb.split_into_sentences "aaaaa. bbbbb. c")
    (LoadKb.mkChunk "aaaaa bbbbb" "content" None).
Proof.
  apply (chunks_are_runs_of_sentences (fun _ => []) "aaaaa. bbbbb. c" 10 1 0).
  vm_compute. left.
Defined.

(** ** Case, cache and keyword-only scores *)

Lemma lower_char_idem (c : ascii) :
  Str.lower_char (Str.lower_char c) = Str.lower_char c.
Proof. destruct c as [[] [] [] [] [] [] [] []]; reflexivity. Qed.

Lemma lower_idem (s : string) : Str.lower (Str.lower s) = Str.lower s.
Proof.
  induction s as [|c s IH]; [done|]. cbn. by rewrite lower_char_idem, IH.
Qed.

Lemma tokenize_lower (text : string) :
  BM25._tokenize (Str.lower text) = BM25._tokenize text.
Proof. unfold BM25._tokenize. by rewrite lower_idem. Qed.

(** Property X6. The index does not see the case of letters: fitting on the
    lower-cased documents gives the same index, and a query scores and
    searches like its lower-cased form. *)
Theorem bm25_ignores_case (self : BM25.t) (documents : list string)
    (query : string) (i top_k : Z) :
  BM25.fit self (map Str.lower documents) = BM25.fit self documents
  /\ BM25.score self (Str.lower query) i = BM25.score self query i
  /\ BM25.search self (Str.lower query) top_k = BM25.search self query top_k.
Proof.
  assert (Htok : map BM25._tokenize (map Str.lower documents)
                 = map BM25._tokenize documents).
  { rewrite map_map. apply map_ext. intros d. apply tokenize_lower. }
  split; [|split].
  - unfold BM25.fit. by rewrite Htok, length_map.
  - unfold BM25.score. by rewrite tokenize_lower.
  - unfold BM25.search, BM25.scores, BM25.score. by rewrite tokenize_lower.
Qed.

Lemma reachable_aligned (self : Rag.t) : Rag.reachable self -> aligned self.
Proof.
  induction 1 as [|self documents _ _]; [done|].
  unfold aligned, Rag.initialize_bm25. cbn. by rewrite !length_map.
Qed.

Lemma bm25_search_indices (self : Rag.t) (query : Py.json) (top_k : Z)
    (res : list (nat * R)) (p : nat * R) :
  Rag.bm25_search self query top_k = Some res -> p ∈ res ->
  fst p < BM25.doc_count (Rag.bm25 self).
Proof.
  unfold Rag.bm25_search. destruct query as [| | |q| |].
  4: { unfold BM25.search.
       destruct (BM25._initialized (Rag.bm25 self)); cbn [negb];
         [|by intros [= <-] ?%elem_of_nil].
       destruct (BM25.scores (Rag.bm25 self) q) as [l|] eqn:E; [|done].
       cbn. intros [= <-] Hp%take_elem%sort_desc_elem.
       pose proof (mapM_indexed_fst _ _ _ E) as Hfst.
       assert (fst p ∈ seq 0 (BM25.doc_count (Rag.bm25 self)))
         as Hin%elem_of_seq; [|lia].
       rewrite <- Hfst. by apply list_elem_of_fmap_2. }
  all: destruct (BM25._initialized (Rag.bm25 self)); cbn [negb];
    [|by intros [= <-] ?%elem_of_nil];
    destruct (BM25.doc_count (Rag.bm25 self)); [|done];
    rewrite take_nil; by intros [= <-] ?%elem_of_nil.
Qed.

(** Property X10. [initialize_bm25] keeps the cache, the metadata and the
    index aligned, so that every index the keyword search returns has its
    document in the cache and its metadata: the guard
    [doc_idx < len(self._documents_cache)] of [hybrid_search] never
    fails. *)
Theorem index_matches_cache (self : Rag.t) (query : Py.json) (top_k : Z)
    (res : list (nat * R)) :
  Rag.reachable self ->
  Rag.bm25_search self query top_k = Some res ->
  aligned self
  /\ forall j s,
       (j, s) ∈ res ->
       exists doc,
         Rag._documents_metadata self !! j = Some doc
         /\ Rag._documents_cache self !! j
            = Some (default EmptyString (Rag.doc_content doc)).
Proof.
  intros Hreach Hres. pose proof (reachable_aligned self Hreach) as Hal.
  split; [done|]. destruct Hal as (Hlen & Hcount & Hcache).
  intros j s Hjs.
  pose proof (bm25_search_indices self query top_k res (j, s) Hres Hjs) as Hj.
  cbn in Hj. rewrite Hcount, Hlen in Hj.
  destruct (lookup_lt_is_Some_2 _ _ Hj) as [doc Hdoc]. exists doc.
  split; [done|]. by rewrite Hcache, list_lookup_fmap, Hdoc.
Qed.

Lemma index_matches_cache_witness :
  aligned (Rag.initialize_bm25 Rag.new [single_document]).
Proof.
  destruct single_document_search as (s & Hres & _).
  apply (index_matches_cache (Rag.initialize_bm25 Rag.new [single_document])
           (Py.JStr "lo") 2 [(0, s)]); [|exact Hres].
  apply Rag.reachable_init, Rag.reachable_new.
Defined.

Lemma normalized_le_1 (m s : R) :
  (0 <= s)%R -> (s <= m)%R -> (normalized m s <= 1)%R.
Proof.
  intros Hs Hm. unfold normalized, Py.truthy.
  destruct (Req_dec_T m 0); [lra|].
  apply Rmult_le_reg_r with m; [lra|]. field_simplify; lra.
Qed.

(** Property X9. A document that only the keyword search found scores its
    BM25 score divided by the best score of the batch, times
    [keyword_weight]: a value between 0 and [keyword_weight]. *)
Theorem keyword_only_score
    (rag_system : option (Py.json -> Z -> option (list Rag.SemResult)))
    (self : Rag.t) (query : Py.json) (k : Z)
    (semantic_weight keyword_weight : R) (bm25_results : list (nat * R))
    (c : string) :
  BM25._initialized (Rag.bm25 self) = true ->
  Rag.bm25_search self query (k * 2)%Z = Some bm25_results ->
  c ∈ keyword_contents self bm25_results ->
  (forall retrieve semantic_results,
     rag_system = Some retrieve ->
     retrieve query (k * 2)%Z = Some semantic_results ->
     c ∉ map Rag.sem_content semantic_results) ->
  Rag.reachable self -> (0 <= keyword_weight)%R ->
  exists j s,
    (j, s) ∈ bm25_results /\ Rag._documents_cache self !! j = Some c
    /\ forall r,
         r ∈ Rag.hybrid_search rag_system self query k semantic_weight
               keyword_weight ->
         Rag.content r = c ->
         Rag.relevance_score r
         = (normalized (Rag.max_score bm25_results) s * keyword_weight)%R
         /\ (0 <= Rag.relevance_score r <= keyword_weight)%R.
Proof.
  intros Hinit Hres Hck Hnot Hreach Hkw.
  pose proof (hybrid_entries_nodup rag_system self query k semantic_weight
                keyword_weight) as Hnd.
  assert (Hnone : Py.dict_get c
            (Rag.semantic_entries rag_system query k semantic_weight) = None).
  { destruct (Py.dict_get c _) as [e|] eqn:E; [|done]. exfalso.
    assert (Hkey : c ∈ map fst
              (Rag.semantic_entries rag_system query k semantic_weight)).
    { apply dict_get_keys. by rewrite E. }
    apply semantic_entries_keys in Hkey as (retrieve & sem & Hr & Hs & Hc).
    by apply (Hnot retrieve sem). }
  destruct (keyword_fold_get self (Rag.max_score bm25_results) keyword_weight
              bm25_results
              (Rag.semantic_entries rag_system query k semantic_weight) c Hck)
    as (e' & j & s & He' & Hjs & Hj & Hk' & Hs').
  rewrite Hnone in Hs'.
  exists j, s. split; [done|]. split; [done|].
  intros r Hr%take_elem%sort_desc_elem Hc.
  apply list_elem_of_fmap in Hr as ([c' e''] & -> & Hin). cbn in Hc.
  subst c'. apply dict_elem_get in Hin; [|done].
  unfold Rag.hybrid_entries, Rag.keyword_entries in Hin.
  rewrite Hinit, Hres, He' in Hin. injection Hin as <-.
  cbn [Rag.combine_entry Rag.relevance_score]. rewrite Hs', Hk'.
  split; [lra|].
  pose proof (bm25_search_nonneg _ _ _ _ Hreach Hres) as Hnn.
  rewrite Forall_forall in Hnn. pose proof (Hnn _ Hjs) as Hs0.
  pose proof (max_score_ge bm25_results (j, s) Hjs) as Hmax. cbn in Hs0, Hmax.
  pose proof (normalized_nonneg _ _ Hs0 Hmax).
  pose proof (normalized_le_1 _ _ Hs0 Hmax). nra.
Qed.

Lemma keyword_only_score_witness :
  exists s,
    forall r,
      r ∈ Rag.hybrid_search None
            (Rag.initialize_bm25 Rag.new [single_document]) (Py.JStr "lo") 1
            0.7 0.3 ->
      Rag.content r = "lo au" ->
      Rag.relevance_score r
      = (normalized (Rag.max_score [(0%nat, s)]) s * 0.3)%R.
Proof.
  destruct single_document_search as (s & Hres & Hs).
  destruct (keyword_only_score None
              (Rag.initialize_bm25 Rag.new [single_document]) (Py.JStr "lo")
              1 0.7 0.3 [(0%nat, s)] "lo au")
    as (j & s' & Hjs & _ & Hscore).
  - reflexivity.
  - exact Hres.
  - unfold keyword_contents. simpl. left.
  - intros retrieve sem [=].
  - apply Rag.reachable_init, Rag.reachable_new.
  - lra.
  - apply list_elem_of_singleton in Hjs. injection Hjs as -> ->.
    exists s. intros r Hr Hc. by apply Hscore.
Defined.

(** Property X15. The boundaries of a text start at 0, increase strictly,
    end at the length of the text and never pass it. *)
Theorem boundaries_partition (text : string) :
  exists inner,
    SemanticChunker._find_semantic_boundaries text = 0 :: inner
    /\ StronglySorted lt (0 :: inner)
    /\ List.last inner 0 = String.length text
    /\ Forall (fun x => 0 < x <= String.length text) inner.
Proof.
  destruct (boundaries_shape text) as (bs & Hbs & Hsorted & Hlast).
  assert (Hle : Forall (fun x => x <= String.length text) (0 :: bs)).
  { apply Forall_forall. intros x Hx. apply boundaries_le. by rewrite Hbs. }
  exists bs. split; [done|]. split; [done|]. split.
  - pose proof (last_elem bs 0) as Hin.
    rewrite Forall_forall in Hle. apply Hle in Hin. lia.
  - apply StronglySorted_inv in Hsorted as [_ Hpos].
    apply Forall_cons_1 in Hle as [_ Hle].
    rewrite Forall_forall in Hpos, Hle. apply Forall_forall.
    intros x Hx. split; [by apply Hpos|by apply Hle].
Qed.

(** ** Embedding generator: retries, truncation and batches *)

Lemma key_error_final : LoadKb.is_rate_limit LoadKb.key_error = false.
Proof. reflexivity. Qed.

Lemma backoff_total (n : nat) : list_sum (backoff n) = 10 * (2 ^ n - 1).
Proof.
  unfold backoff. induction n as [|n IH]; [done|].
  rewrite seq_S, map_app, list_sum_app, IH. cbn [map list_sum fold_right].
  change (0 + n) with n. rewrite Nat.pow_succ_r'.
  assert (1 <= 2 ^ n) by (apply Nat.neq_0_lt_0, Nat.pow_nonzero; lia). lia.
Qed.

Lemma attempts_spec
    (embed_content : nat -> string -> string -> string -> LoadKb.EmbedOutcome)
    (text task_type : string) (n a : nat) (self : LoadKb.Generator) :
  let out := LoadKb.attempts embed_content text task_type (seq a n) self in
  LoadKb.model (snd out) = LoadKb.model self
  /\ LoadKb.max_retries (snd out) = LoadKb.max_retries self
  /\ LoadKb.request_count self <= LoadKb.request_count (snd out)
     <= S (LoadKb.request_count self)
  /\ (is_Some (fst out) ->
      LoadKb.request_count (snd out) = S (LoadKb.request_count self))
  /\ exists m,
       m <= n
       /\ LoadKb.slept (snd out)
          = LoadKb.slept self
            ++ map (fun attempt => 2 ^ attempt * 10) (seq a m)
       /\ LoadKb.api_calls self + m <= LoadKb.api_calls (snd out)
          <= LoadKb.api_calls self + m + 1
       /\ LoadKb.api_calls (snd out) <= LoadKb.api_calls self + n.
Proof.
  revert a text self. induction n as [|n IH]; intros a text self.
  { cbn. repeat split; try lia; try by intros [? [=]].
    exists 0. cbn. rewrite app_nil_r. repeat split; lia. }
  cbn [seq LoadKb.attempts]. unfold LoadKb.try_embed.
  destruct (embed_content _ _ _ _) as [error_str|[embedding|]].
  - destruct (LoadKb.is_rate_limit error_str).
    + specialize (IH (S a) (LoadKb.truncate text)
                    (LoadKb.sleep (2 ^ a * 10) (LoadKb.called self))).
      cbn zeta in IH.
      destruct IH as (Hm & Hr & Hc & Hs & m & Hmn & Hslept & Hcalls & Hmax).
      cbn [LoadKb.sleep LoadKb.called LoadKb.model LoadKb.max_retries
             LoadKb.request_count LoadKb.api_calls LoadKb.slept] in *.
      repeat split; try done; try lia.
      exists (S m). rewrite Hslept, <- app_assoc. cbn [seq map app].
      repeat split; try done; lia.
    + cbn. repeat split; try lia; try by intros [? [=]].
      exists 0. cbn. rewrite app_nil_r. repeat split; lia.
  - cbn. repeat split; try lia.
    exists 0. cbn. rewrite app_nil_r. repeat split; lia.
  - rewrite key_error_final. cbn. repeat split; try lia.
    exists 0. cbn. rewrite app_nil_r. repeat split; lia.
Qed.

Lemma truncate_idem (text : string) :
  LoadKb.truncate (LoadKb.truncate text) = LoadKb.truncate text.
Proof.
  unfold LoadKb.truncate. apply str_take_all.
  rewrite str_take_length_min. lia.
Qed.

Lemma attempts_trace
    (embed_content : nat -> string -> string -> string -> LoadKb.EmbedOutcome)
    (text task_type : string) (n a : nat) (self : LoadKb.Generator) :
  let out := LoadKb.attempts embed_content text task_type (seq a n) self in
  exists m,
    m <= n
    /\ LoadKb.slept (snd out)
       = LoadKb.slept self ++ map (fun attempt => 2 ^ attempt * 10) (seq a m)
    /\ (forall j,
          j < m ->
          exists error_str,
            embed_content (LoadKb.api_calls self + j) (LoadKb.model self)
              (LoadKb.truncate text) task_type
            = LoadKb.EmbedRaises error_str
            /\ LoadKb.is_rate_limit error_str = true)
    /\ (m < n ->
        LoadKb.api_calls (snd out) = LoadKb.api_calls self + m + 1
        /\ last_call
             (embed_content (LoadKb.api_calls self + m) (LoadKb.model self)
                (LoadKb.truncate text) task_type)
             (fst out) self (snd out))
    /\ (m = n ->
        fst out = None
        /\ LoadKb.api_calls (snd out) = LoadKb.api_calls self + m
        /\ LoadKb.request_count (snd out) = LoadKb.request_count self).
Proof.
  revert a text self. induction n as [|n IH]; intros a text self.
  { exists 0. cbn. rewrite app_nil_r, Nat.add_0_r.
    repeat split; try done; lia. }
  cbn [seq LoadKb.attempts]. unfold LoadKb.try_embed.
  destruct (embed_content (LoadKb.api_calls self) (LoadKb.model self)
              (LoadKb.truncate text) task_type)
    as [error_str|response] eqn:Hcall.
  - destruct (LoadKb.is_rate_limit error_str) eqn:Hrate.
    + specialize (IH (S a) (LoadKb.truncate text)
                    (LoadKb.sleep (2 ^ a * 10) (LoadKb.called self))).
      cbn zeta in IH. rewrite truncate_idem in IH.
      destruct IH as (m & Hmn & Hslept & Hretry & Hlast & Hall).
      cbn [LoadKb.sleep LoadKb.called LoadKb.model LoadKb.max_retries
             LoadKb.request_count LoadKb.api_calls LoadKb.slept] in *.
      exists (S m). split; [lia|]. split.
      { rewrite Hslept, <- app_assoc. done. }
      split.
      { intros [|j] Hj.
        - rewrite Nat.add_0_r. by exists error_str.
        - destruct (Hretry j ltac:(lia)) as (e & He & Hr).
          exists e. split; [|done]. rewrite <- He. f_equal. lia. }
      split.
      { intros Hlt. destruct (Hlast ltac:(lia)) as [Hcalls Hl].
        split; [lia|].
        replace (LoadKb.api_calls self + S m)
          with (S (LoadKb.api_calls self) + m) by lia.
        unfold last_call in *.
        destruct (embed_content _ _ _ _); cbn in *; done. }
      intros Heq. destruct (Hall ltac:(lia)) as (? & ? & ?).
      split; [done|]. split; [lia|done].
    + exists 0. cbn [seq map]. rewrite app_nil_r, Nat.add_0_r.
      split; [lia|]. split; [done|]. split; [intros j Hj; lia|].
      split; [|intros [=]].
      intros _. split; [cbn; lia|]. rewrite Hcall. by cbn.
  - exists 0. cbn [seq map]. rewrite app_nil_r, Nat.add_0_r.
    assert (Hout :
      (let '(outcome, self0) :=
         match response with
         | Some embedding => (inl embedding, LoadKb.counted (LoadKb.called self))
         | None => (inr LoadKb.key_error, LoadKb.counted (LoadKb.called self))
         end in
       match outcome with
       | inl embedding => (Some embedding, self0)
       | inr error_str =>
           if LoadKb.is_rate_limit error_str
           then LoadKb.attempts embed_content (LoadKb.truncate text) task_type
                  (seq (S a) n) (LoadKb.sleep (2 ^ a * 10) self0)
           else (None, self0)
       end) = (response, LoadKb.counted (LoadKb.called self))).
    { destruct response; [done|]. by rewrite key_error_final. }
    rewrite Hout. cbn [fst snd].
    split; [lia|]. split; [done|]. split; [intros j Hj; lia|].
    split; [|intros [=]].
    intros _. split; [cbn; lia|]. rewrite Hcall. by cbn.
Qed.

(** Property X21. [generate_single] makes at most [max_retries] API calls.
    It sleeps after a call only when that call raised a rate-limit error,
    on the schedule 10, 20, 40, ... seconds, at most
    [10 * (2 ^ max_retries - 1)] seconds in all; the first call that returns
    a response or raises another error ends it at once, with the embedding
    of the response or with [None]. It counts a request exactly when a call
    returned a response; the model name and [max_retries] stay as they
    are. *)
Theorem generate_single_bounded
    (embed_content : nat -> string -> string -> string -> LoadKb.EmbedOutcome)
    (text task_type : string) (self : LoadKb.Generator) :
  let embedding :=
    fst (LoadKb.generate_single embed_content text task_type self) in
  let after :=
    snd (LoadKb.generate_single embed_content text task_type self) in
  LoadKb.model after = LoadKb.model self
  /\ LoadKb.max_retries after = LoadKb.max_retries self
  /\ LoadKb.api_calls after
     <= LoadKb.api_calls self + LoadKb.max_retries self
  /\ (is_Some embedding ->
      LoadKb.request_count after = S (LoadKb.request_count self))
  /\ LoadKb.request_count self <= LoadKb.request_count after
     <= S (LoadKb.request_count self)
  /\ exists retries,
       retries <= LoadKb.max_retries self
       /\ LoadKb.slept after = LoadKb.slept self ++ backoff retries
       /\ list_sum (backoff retries)
          <= 10 * (2 ^ LoadKb.max_retries self - 1)
       /\ (forall j,
             j < retries ->
             exists error_str,
               embed_content (LoadKb.api_calls self + j) (LoadKb.model self)
                 (LoadKb.truncate text) task_type
               = LoadKb.EmbedRaises error_str
               /\ LoadKb.is_rate_limit error_str = true)
       /\ (retries < LoadKb.max_retries self ->
           LoadKb.api_calls after = LoadKb.api_calls self + retries + 1
           /\ last_call
                (embed_content (LoadKb.api_calls self + retries)
                   (LoadKb.model self) (LoadKb.truncate text) task_type)
                embedding self after)
       /\ (retries = LoadKb.max_retries self ->
           embedding = None
           /\ LoadKb.api_calls after = LoadKb.api_calls self + retries
           /\ LoadKb.request_count after = LoadKb.request_count self).
Proof.
  intros embedding after.
  destruct (attempts_spec embed_content text task_type
              (LoadKb.max_retries self) 0 self)
    as (Hm & Hr & Hc & Hs & _ & _ & _ & _ & Hmax).
  destruct (attempts_trace embed_content text task_type
              (LoadKb.max_retries self) 0 self)
    as (m & Hmn & Hslept & Hretry & Hlast & Hall).
  split; [done|]. split; [done|]. split; [done|]. split; [done|].
  split; [done|]. exists m.
  split; [done|]. split; [done|]. split.
  { rewrite !backoff_total.
    assert (2 ^ m <= 2 ^ LoadKb.max_retries self)
      by (apply Nat.pow_le_mono_r; lia).
    lia. }
  split; [done|]. split; done.
Qed.

Lemma attempts_exhaust
    (embed_content : nat -> string -> string -> string -> LoadKb.EmbedOutcome)
    (text task_type : string) (n a : nat) (self : LoadKb.Generator) :
  (forall i m t k,
     exists error_str,
       embed_content i m t k = LoadKb.EmbedRaises error_str
       /\ LoadKb.is_rate_limit error_str = true) ->
  LoadKb.attempts embed_content text task_type (seq a n) self
  = (None,
     {| LoadKb.model := LoadKb.model self;
        LoadKb.request_count := LoadKb.request_count self;
        LoadKb.max_retries := LoadKb.max_retries self;
        LoadKb.api_calls := LoadKb.api_calls self + n;
        LoadKb.slept :=
          LoadKb.slept self
          ++ map (fun attempt => 2 ^ attempt * 10) (seq a n) |}).
Proof.
  intros Hall. revert a text self.
  induction n as [|n IH]; intros a text self.
  { cbn. rewrite app_nil_r, Nat.add_0_r. by destruct self. }
  cbn [seq LoadKb.attempts]. unfold LoadKb.try_embed.
  destruct (Hall (LoadKb.api_calls self) (LoadKb.model self)
              (LoadKb.truncate text) task_type) as (e & -> & ->).
  rewrite IH. cbn. rewrite <- app_assoc. do 2 f_equal. lia.
Qed.

(** Property X22. When every call fails with a rate-limit error,
    [generate_single] returns [None] after [max_retries] calls, counts no
    request and has slept after each call, the last one included. *)
Theorem generate_single_exhausts
    (embed_content : nat -> string -> string -> string -> LoadKb.EmbedOutcome)
    (text task_type : string) (self : LoadKb.Generator) :
  (forall i m t k,
     exists error_str,
       embed_content i m t k = LoadKb.EmbedRaises error_str
       /\ LoadKb.is_rate_limit error_str = true) ->
  LoadKb.generate_single embed_content text task_type self
  = (None,
     {| LoadKb.model := LoadKb.model self;
        LoadKb.request_count := LoadKb.request_count self;
        LoadKb.max_retries := LoadKb.max_retries self;
        LoadKb.api_calls := LoadKb.api_calls self + LoadKb.max_retries self;
        LoadKb.slept :=
          LoadKb.slept self ++ backoff (LoadKb.max_retries self) |}).
Proof. intros Hall. by apply attempts_exhaust. Qed.

Lemma generate_single_exhausts_witness :
  LoadKb.generate_single rate_limited_api "lo au" "RETRIEVAL_DOCUMENT"
    (LoadKb.new_generator "models/text-embedding-004")
  = (None,
     {| LoadKb.model := "models/text-embedding-004";
        LoadKb.request_count := 0; LoadKb.max_retries := 3;
        LoadKb.api_calls := 3; LoadKb.slept := [10; 20; 40] |}).
Proof.
  apply (generate_single_exhausts rate_limited_api "lo au"
           "RETRIEVAL_DOCUMENT"
           (LoadKb.new_generator "models/text-embedding-004")).
  intros i m t k. eexists. split; reflexivity.
Defined.

Lemma attempts_truncate
    (embed_content : nat -> string -> string -> string -> LoadKb.EmbedOutcome)
    (text task_type : string) (rest : list nat) (self : LoadKb.Generator) :
  LoadKb.attempts embed_content text task_type rest self
  = LoadKb.attempts
      (fun i m content k => embed_content i m (LoadKb.truncate content) k)
      (LoadKb.truncate text) task_type rest self.
Proof.
  revert text self. induction rest as [|attempt rest IH]; intros text self;
    [done|].
  cbn [LoadKb.attempts]. unfold LoadKb.try_embed. rewrite !truncate_idem.
  destruct (embed_content _ _ _ _) as [error_str|[embedding|]]; try done.
  destruct (LoadKb.is_rate_limit error_str); [|done].
  rewrite IH. by rewrite truncate_idem.
Qed.

(** Property X23. Only the first 8000 characters of the text reach the
    API: [generate_single] behaves as on the truncated text with an API that
    truncates what it is given, and a text of at most 8000 characters is
    sent whole. *)
Theorem generate_single_truncates
    (embed_content : nat -> string -> string -> string -> LoadKb.EmbedOutcome)
    (text task_type : string) (self : LoadKb.Generator) :
  LoadKb.generate_single embed_content text task_type self
  = LoadKb.generate_single
      (fun i m content k => embed_content i m (LoadKb.truncate content) k)
      (LoadKb.truncate text) task_type self
  /\ String.length (LoadKb.truncate text) <= Z.to_nat 8000
  /\ (String.length text <= Z.to_nat 8000 -> LoadKb.truncate text = text).
Proof.
  split; [apply attempts_truncate|]. unfold LoadKb.truncate. split.
  - rewrite str_take_length_min. lia.
  - apply str_take_all.
Qed.

Lemma generate_batch_app
    (embed_content : nat -> string -> string -> string -> LoadKb.EmbedOutcome)
    (front back : list string) (task_type : string) (self : LoadKb.Generator) :
  LoadKb.generate_batch embed_content (front ++ back) task_type self
  = (fst (LoadKb.generate_batch embed_content front task_type self)
     ++ fst (LoadKb.generate_batch embed_content back task_type
               (snd (LoadKb.generate_batch embed_content front task_type
                       self))),
     snd (LoadKb.generate_batch embed_content back task_type
            (snd (LoadKb.generate_batch embed_content front task_type self)))).
Proof.
  revert self. induction front as [|text front IH]; intros self.
  { cbn. by destruct (LoadKb.generate_batch _ back _ _). }
  cbn [app LoadKb.generate_batch].
  destruct (LoadKb.generate_single embed_content text task_type self)
    as [embedding self1].
  rewrite IH.
  destruct (LoadKb.generate_batch embed_content front task_type self1)
    as [embeddings self2].
  done.
Qed.

Lemma generate_batch_length
    (embed_content : nat -> string -> string -> string -> LoadKb.EmbedOutcome)
    (texts : list string) (task_type : string) (self : LoadKb.Generator) :
  length (fst (LoadKb.generate_batch embed_content texts task_type self))
  = length texts.
Proof.
  revert self. induction texts as [|text texts IH]; intros self; [done|].
  cbn [LoadKb.generate_batch].
  destruct (LoadKb.generate_single embed_content text task_type self)
    as [embedding self1].
  specialize (IH self1).
  destruct (LoadKb.generate_batch embed_content texts task_type self1).
  cbn in *. by rewrite IH.
Qed.

Lemma generate_batch_counts
    (embed_content : nat -> string -> string -> string -> LoadKb.EmbedOutcome)
    (texts : list string) (task_type : string) (self : LoadKb.Generator) :
  let embeddings :=
    fst (LoadKb.generate_batch embed_content texts task_type self) in
  let after :=
    snd (LoadKb.generate_batch embed_content texts task_type self) in
  LoadKb.max_retries after = LoadKb.max_retries self
  /\ LoadKb.api_calls after
     <= LoadKb.api_calls self + LoadKb.max_retries self * length texts
  /\ LoadKb.request_count self + length (obtained embeddings)
     <= LoadKb.request_count after
     <= LoadKb.request_count self + length texts.
Proof.
  revert self. induction texts as [|text texts IH]; intros self.
  { cbn. lia. }
  cbn [LoadKb.generate_batch].
  pose proof (attempts_spec embed_content text task_type
                (LoadKb.max_retries self) 0 self) as H.
  cbn zeta in H. fold (LoadKb.generate_single embed_content text task_type self)
    in H.
  destruct (LoadKb.generate_single embed_content text task_type self)
    as [embedding self1].
  cbn [fst snd] in H.
  destruct H as (_ & Hr & Hcount & Hsome & m & _ & _ & _ & Hc).
  specialize (IH self1). cbn zeta in IH.
  destruct (LoadKb.generate_batch embed_content texts task_type self1)
    as [embeddings self2].
  cbn [fst snd] in *. destruct IH as (Hr' & Hc' & Hcount').
  rewrite Hr in *. split; [done|].
  split; [cbn [length]; rewrite Nat.mul_succ_r; lia|].
  destruct embedding as [e|].
  - assert (is_Some (Some e)) as Hs%Hsome by by eexists.
    change (obtained (Some e :: embeddings)) with (e :: obtained embeddings).
    cbn [length]. lia.
  - change (obtained (None :: embeddings)) with (obtained embeddings).
    cbn [length]. lia.
Qed.

(** Property X24. [generate_batch] returns one entry per text, in the order
    of the texts: the entry at position [i] is what [generate_single] gives
    for the text at position [i] in the state the texts before it left, a
    [None] included, and the texts after it are still processed. Each text
    costs at most [max_retries] API calls, and the request count grows by at
    least the number of embeddings obtained and at most the number of
    texts. *)
Theorem generate_batch_keeps_positions
    (embed_content : nat -> string -> string -> string -> LoadKb.EmbedOutcome)
    (texts : list string) (task_type : string) (self : LoadKb.Generator) :
  let embeddings :=
    fst (LoadKb.generate_batch embed_content texts task_type self) in
  let after :=
    snd (LoadKb.generate_batch embed_content texts task_type self) in
  length embeddings = length texts
  /\ (forall i text,
        texts !! i = Some text ->
        let before :=
          snd (LoadKb.generate_batch embed_content (firstn i texts) task_type
                 self) in
        let single :=
          LoadKb.generate_single embed_content text task_type before in
        embeddings !! i = Some (fst single)
        /\ snd (LoadKb.generate_batch embed_content (firstn (S i) texts)
                  task_type self) = snd single
        /\ LoadKb.api_calls (snd single)
           <= LoadKb.api_calls before + LoadKb.max_retries self)
  /\ LoadKb.max_retries after = LoadKb.max_retries self
  /\ LoadKb.api_calls after
     <= LoadKb.api_calls self + LoadKb.max_retries self * length texts
  /\ LoadKb.request_count self + length (obtained embeddings)
     <= LoadKb.request_count after
     <= LoadKb.request_count self + length texts.
Proof.
  intros embeddings after.
  split; [apply generate_batch_length|].
  split; [|apply generate_batch_counts].
  intros i text Hi before single.
  pose proof (take_drop_middle texts i text Hi) as Hsplit.
  assert (Hlen : length (firstn i texts) = i).
  { rewrite length_firstn. apply lookup_lt_Some in Hi. lia. }
  split; [|split].
  - unfold embeddings. rewrite <- Hsplit at 1.
    rewrite generate_batch_app. cbn [fst].
    rewrite lookup_app_r; rewrite generate_batch_length, Hlen; [|lia].
    rewrite Nat.sub_diag. cbn [LoadKb.generate_batch]. fold before.
    fold single. destruct single as [embedding self1].
    by destruct (LoadKb.generate_batch embed_content _ task_type self1).
  - rewrite (take_S_r texts i text Hi), generate_batch_app.
    cbn [snd LoadKb.generate_batch]. fold before. fold single.
    by destruct single.
  - pose proof (attempts_spec embed_content text task_type
                  (LoadKb.max_retries before) 0 before) as H.
    cbn zeta in H.
    fold (LoadKb.generate_single embed_content text task_type before) in H.
    fold single in H. destruct H as (_ & _ & _ & _ & m & _ & _ & _ & Hc).
    destruct (generate_batch_counts embed_content (firstn i texts) task_type
                self) as (Hr & _).
    fold before in Hr. lia.
Qed.

Lemma str_app_assoc (s1 s2 s3 : string) :
  (s1 +:+ s2) +:+ s3 = s1 +:+ (s2 +:+ s3).
Proof.
  induction s1 as [|c s1 IH]; [done|].
  change (String c ((s1 +:+ s2) +:+ s3) = String c (s1 +:+ s2 +:+ s3)).
  by rewrite IH.
Qed.

Lemma join_firstn3 (topics : list string) :
  match topics with
  | [] => @nil string
  | _ => ["Chủ đề: " +:+ Str.join ", " (firstn 3 topics)]
  end
  = match firstn 3 topics with
    | [] => []
    | _ => ["Chủ đề: " +:+ Str.join ", " (firstn 3 (firstn 3 topics))]
    end.
Proof.
  destruct topics as [|a [|b [|c topics]]]; try done.
Qed.

Lemma str_take_app_short (n : nat) (s1 s2 : string) :
  String.length s1 <= n ->
  Str.take n (s1 +:+ s2) = s1 +:+ Str.take (n - String.length s1) s2.
Proof.
  revert n. induction s1 as [|c s1 IH]; intros n Hn.
  { cbn. by rewrite Nat.sub_0_r. }
  destruct n as [|n]; [cbn in Hn; lia|].
  change (String c s1 +:+ s2) with (String c (s1 +:+ s2)).
  cbn [Str.take String.length Nat.sub].
  change (String c s1 +:+ ?x) with (String c (s1 +:+ x)).
  rewrite IH; [done|]. cbn in Hn. lia.
Qed.

Lemma str_take_app_long (n : nat) (s1 s2 : string) :
  n <= String.length s1 -> Str.take n (s1 +:+ s2) = Str.take n s1.
Proof.
  revert n. induction s1 as [|c s1 IH]; intros n Hn.
  { cbn in Hn. replace n with 0 by lia. by rewrite !str_take_0. }
  destruct n as [|n]; [done|].
  change (String c s1 +:+ s2) with (String c (s1 +:+ s2)).
  cbn [Str.take]. rewrite IH; [done|]. cbn in Hn. lia.
Qed.

Lemma enriched_text_header (content title heading : string)
    (topics : list string) :
  LoadKb.enriched_text content title heading topics
  = context_header title heading topics +:+ content.
Proof.
  unfold LoadKb.enriched_text, context_header.
  destruct (_ ++ _ ++ _) as [|part parts]; [done|].
  by rewrite str_app_assoc.
Qed.

(** Property X25. [generate_with_context] puts a header made of the title,
    the heading and the first three topics in front of the content (no
    header when all three are empty), and what reaches the API is the first
    8000 characters of the two: the content whole when header and content
    have at most 8000 characters together, only its beginning otherwise,
    and nothing of it when the header alone has 8000 characters or more. *)
Theorem context_enrichment
    (embed_content : nat -> string -> string -> string -> LoadKb.EmbedOutcome)
    (content title heading : string) (topics : list string)
    (self : LoadKb.Generator) :
  let header := context_header title heading topics in
  LoadKb.generate_with_context embed_content content title heading topics self
  = LoadKb.generate_single
      (fun i m sent k => embed_content i m (LoadKb.truncate sent) k)
      (LoadKb.truncate (header +:+ content)) "RETRIEVAL_DOCUMENT" self
  /\ (String.length header + String.length content <= Z.to_nat 8000 ->
      LoadKb.truncate (header +:+ content) = header +:+ content)
  /\ (String.length header <= Z.to_nat 8000 ->
      LoadKb.truncate (header +:+ content)
      = header
        +:+ Str.take (Z.to_nat 8000 - String.length header) content)
  /\ (Z.to_nat 8000 <= String.length header ->
      LoadKb.truncate (header +:+ content) = LoadKb.truncate header)
  /\ header = context_header title heading (firstn 3 topics)
  /\ context_header EmptyString EmptyString [] = EmptyString.
Proof.
  intros header. split; [|split; [|split; [|split; [|split]]]].
  - unfold LoadKb.generate_with_context. rewrite enriched_text_header.
    apply attempts_truncate.
  - intros H. apply str_take_all. rewrite str_length_app. lia.
  - apply str_take_app_short.
  - apply str_take_app_long.
  - unfold header, context_header. by rewrite join_firstn3.
  - done.
Qed.

(** ** Summaries *)

Lemma fields_field (w : string) : is_field w -> Str.fields w = [w].
Proof.
  intros [Hne Hw]. induction w as [|c w IH]; [done|].
  cbn in Hw. apply andb_prop in Hw as [Hc Hw]. apply negb_true_iff in Hc.
  cbn [Str.fields]. rewrite Hc. destruct w as [|c' w]; [done|].
  pose proof Hw as Hw'. cbn in Hw'. apply andb_prop in Hw' as [Hc' _].
  apply negb_true_iff in Hc'. rewrite Hc'. by rewrite IH.
Qed.

Lemma fields_cons (w rest : string) :
  is_field w ->
  Str.fields (w +:+ String " " rest) = w :: Str.fields rest.
Proof.
  intros [Hne Hw]. induction w as [|c w IH]; [done|].
  cbn in Hw. apply andb_prop in Hw as [Hc Hw]. apply negb_true_iff in Hc.
  change (String c w +:+ String " " rest)
    with (String c (w +:+ String " " rest)).
  cbn [Str.fields]. rewrite Hc. destruct w as [|c' w].
  - change (EmptyString +:+ String " " rest) with (String " " rest).
    change (Str.is_space " ") with true. cbn iota.
    cbn [Str.fields]. by change (Str.is_space " ") with true.
  - change (String c' w +:+ String " " rest)
      with (String c' (w +:+ String " " rest)) in *.
    pose proof Hw as Hw'. cbn in Hw'. apply andb_prop in Hw' as [Hc' _].
    apply negb_true_iff in Hc'. rewrite Hc'. by rewrite IH.
Qed.

Lemma fields_are_fields (s : string) : Forall is_field (Str.fields s).
Proof.
  induction s as [|c s IH]; [constructor|]. cbn [Str.fields].
  destruct (Str.is_space c) eqn:Hc; [done|].
  destruct s as [|c' s]; [repeat constructor; [done|cbn; by rewrite Hc]|].
  destruct (Str.is_space c') eqn:Hc'.
  - constructor; [|done]. split; [done|]. cbn. by rewrite Hc.
  - destruct (Str.fields (String c' s)) as [|w ws].
    + repeat constructor; [done|cbn; by rewrite Hc].
    + apply Forall_cons_1 in IH as [[Hne Hw] Hws]. constructor; [|done].
      split; [done|]. cbn. by rewrite Hc, Hw.
Qed.

Lemma spaceless_app (s1 s2 : string) :
  spaceless (s1 +:+ s2) = spaceless s1 && spaceless s2.
Proof.
  induction s1 as [|c s1 IH]; [done|].
  change (String c s1 +:+ s2) with (String c (s1 +:+ s2)). cbn.
  by rewrite IH, andb_assoc.
Qed.

Lemma field_app (w s : string) :
  is_field w -> spaceless s = true -> is_field (w +:+ s).
Proof.
  intros [Hne Hw] Hs. split; [by destruct w|].
  by rewrite spaceless_app, Hw, Hs.
Qed.

(** The words of a summary that was cut. *)
Lemma fields_join_dots (ws : list string) :
  ws <> [] -> Forall is_field ws ->
  length (Str.fields (Str.join " " ws +:+ "...")) = length ws.
Proof.
  induction ws as [|w [|w' ws] IH]; [done| |]; intros _ Hall.
  - apply Forall_cons_1 in Hall as [Hw _]. cbn [Str.join].
    by rewrite fields_field by by apply field_app.
  - apply Forall_cons_1 in Hall as [Hw Hall].
    change (Str.join " " (w :: w' :: ws))
      with (w +:+ " " +:+ Str.join " " (w' :: ws)).
    assert (Heq : (w +:+ " " +:+ Str.join " " (w' :: ws)) +:+ "..."
                  = w +:+ String " " (Str.join " " (w' :: ws) +:+ "...")).
    { clear. induction w as [|c w IH]; [done|].
      change (String c w +:+ ?x) with (String c (w +:+ x)).
      change (String c ?y +:+ "...") with (String c (y +:+ "...")).
      by rewrite IH. }
    rewrite Heq, fields_cons by done. cbn [length]. by rewrite IH.
Qed.

Lemma fields_nonempty (s : string) :
  Str.strip s <> EmptyString -> Str.fields (Str.strip s) <> [].
Proof.
  unfold Str.strip. intros Hne.
  assert (Hhead : match Str.rstrip (Str.lstrip s) with
                  | EmptyString => True
                  | String c _ => Str.is_space c = false
                  end).
  { assert (Hl : match Str.lstrip s with
                 | EmptyString => True
                 | String c _ => Str.is_space c = false
                 end).
    { clear. induction s as [|c s IH]; [done|]. cbn.
      destruct (Str.is_space c) eqn:E; [done|]. by cbn. }
    destruct (Str.lstrip s) as [|c t]; [done|]. cbn.
    destruct (Str.rstrip t); [by rewrite Hl|done]. }
  destruct (Str.rstrip (Str.lstrip s)) as [|c t]; [done|].
  cbn [Str.fields]. rewrite Hhead. destruct t as [|c' t]; [done|].
  destruct (Str.is_space c'); [done|].
  by destruct (Str.fields (String c' t)).
Qed.

(** Property X26. [summarize] returns a summary only when it is enabled,
    the content has at least 200 characters and the model replies. A reply
    within [max_length] words is returned stripped; for [max_length >= 1]
    the summary never has more than [max_length] words; for [max_length = 0]
    a reply that is not blank becomes "...". *)
Theorem summary_word_limit (generate_content : string -> option string)
    (enabled : bool) (content : string) (max_length : Z) (summary : string) :
  LoadKb.summarize generate_content enabled content max_length = Some summary ->
  enabled = true /\ 200 <= String.length content
  /\ exists text,
       generate_content
         (LoadKb.SUMMARY_PROMPT max_length (Str.take 2000 content))
       = Some text
       /\ ((Z.of_nat (length (Str.fields (Str.strip text))) <= max_length)%Z ->
           summary = Str.strip text)
       /\ ((0 < max_length)%Z ->
           (Z.of_nat (length (Str.fields summary)) <= max_length)%Z)
       /\ (max_length = 0%Z -> Str.strip text <> EmptyString ->
           summary = "...").
Proof.
  unfold LoadKb.summarize. destruct enabled; [|done]. cbn [negb].
  destruct (Nat.ltb_spec (String.length content) 200) as [|Hlen]; [done|].
  destruct (generate_content _) as [text|] eqn:E; [|done].
  cbn [mbind option_bind]. intros [= <-].
  split; [done|]. split; [done|]. exists text. split; [done|].
  set (words := Str.fields (Str.strip text)).
  destruct (Z.gtb_spec (Z.of_nat (length words)) max_length) as [Hgt|Hle].
  - split; [lia|]. split.
    + intros Hpos. unfold Py.take.
      destruct (Z.leb_spec 0 max_length); [|lia].
      rewrite fields_join_dots.
      * rewrite length_firstn. lia.
      * destruct words as [|w ws]; [cbn in Hgt; lia|].
        destruct (Z.to_nat max_length) eqn:En; [lia|done].
      * apply Forall_forall. intros w Hw%(subseteq_take _).
        pose proof (fields_are_fields (Str.strip text)) as Hall.
        rewrite Forall_forall in Hall. by apply Hall.
    + by intros -> _.
  - split; [done|]. split; [fold words; lia|].
    intros -> Hne. apply fields_nonempty in Hne. fold words in Hne.
    destruct words; [done|cbn in Hle; lia].
Qed.

Lemma summary_word_limit_witness :
  exists text,
    three_words (LoadKb.SUMMARY_PROMPT 2 (Str.take 2000 long_passage))
    = Some text
    /\ (Z.of_nat (length (Str.fields "mot hai...")) <= 2)%Z.
Proof.
  destruct (summary_word_limit three_words true long_passage 2 "mot hai...")
    as (_ & _ & text & Htext & _ & Hlimit & _).
  - vm_compute. reflexivity.
  - exists text. split; [exact Htext|]. apply Hlimit. lia.
Defined.

(** ** BM25: the score over the words of the query *)

Lemma lower_app (s1 s2 : string) :
  Str.lower (s1 +:+ s2) = Str.lower s1 +:+ Str.lower s2.
Proof.
  induction s1 as [|c s1 IH]; [done|].
  change (String c s1 +:+ s2) with (String c (s1 +:+ s2)). cbn [Str.lower].
  by rewrite IH.
Qed.

Lemma words_cons (c : ascii) (s : string) :
  Str.words (String c s)
  = if Str.is_word c then
      match s with
      | String c' _ =>
          if Str.is_word c' then
            match Str.words s with
            | w :: ws => String c w :: ws
            | [] => [String c EmptyString]
            end
          else String c EmptyString :: Str.words s
      | EmptyString => [String c EmptyString]
      end
    else Str.words s.
Proof. by destruct s. Qed.

Lemma words_head (c : ascii) (s : string) :
  Str.is_word c = true -> Str.words (String c s) <> [].
Proof.
  intros Hc. rewrite words_cons, Hc. destruct s as [|c' s]; [done|].
  destruct (Str.is_word c'); [|done]. by destruct (Str.words (String c' s)).
Qed.

Lemma words_app_space (s1 s2 : string) :
  Str.words (s1 +:+ String " " s2) = Str.words s1 ++ Str.words s2.
Proof.
  induction s1 as [|c s1 IH]; [done|].
  change (String c s1 +:+ String " " s2)
    with (String c (s1 +:+ String " " s2)).
  rewrite !(words_cons c). destruct (Str.is_word c) eqn:Hc; [|done].
  destruct s1 as [|c' s1]; [done|].
  change (String c' s1 +:+ String " " s2)
    with (String c' (s1 +:+ String " " s2)) in *.
  destruct (Str.is_word c') eqn:Hc'.
  - rewrite IH, ?Hc'. pose proof (words_head c' s1 Hc') as Hne.
    by destruct (Str.words (String c' s1)).
  - by rewrite IH, ?Hc'.
Qed.

Lemma tokenize_app_space (q1 q2 : string) :
  BM25._tokenize (q1 +:+ String " " q2)
  = BM25._tokenize q1 ++ BM25._tokenize q2.
Proof.
  unfold BM25._tokenize. rewrite lower_app.
  change (Str.lower (String " " q2)) with (String " " (Str.lower q2)).
  apply words_app_space.
Qed.

Lemma score_step_shift (self : BM25.t) (freqs : gmap string nat) (len : nat)
    (r : R) (token : string) :
  BM25.score_step self freqs len (Some r) token
  = (fun x => (r + x)%R) <$> BM25.score_step self freqs len (Some 0%R) token.
Proof.
  unfold BM25.score_step. cbn [mbind option_bind].
  destruct (freqs !! token) as [f|]; [|cbn; f_equal; lra].
  destruct (Req_dec_T _ _); [done|]. destruct (Req_dec_T _ _); [done|].
  cbn. f_equal. lra.
Qed.

Lemma score_loop_none (self : BM25.t) (freqs : gmap string nat) (len : nat)
    (tokens : list string) :
  foldl (BM25.score_step self freqs len) None tokens = None.
Proof. induction tokens as [|t tokens IH]; [done|]. apply IH. Qed.

Lemma score_loop_shift (self : BM25.t) (freqs : gmap string nat) (len : nat)
    (tokens : list string) (r : R) :
  foldl (BM25.score_step self freqs len) (Some r) tokens
  = (fun x => (r + x)%R)
      <$> foldl (BM25.score_step self freqs len) (Some 0%R) tokens.
Proof.
  revert r. induction tokens as [|t tokens IH]; intros r.
  { cbn. f_equal. lra. }
  cbn [foldl]. rewrite (score_step_shift self freqs len r t).
  destruct (BM25.score_step self freqs len (Some 0%R) t) as [x|].
  - cbn [fmap option_fmap option_map]. rewrite (IH (r + x)%R), (IH x).
    destruct (foldl _ (Some 0%R) tokens) as [y|]; [|done].
    cbn. f_equal. lra.
  - cbn [fmap option_fmap option_map]. by rewrite score_loop_none.
Qed.

Lemma score_concat (self : BM25.t) (q1 q2 : string) (i : Z) (a b : R) :
  BM25.score self q1 i = Some a ->
  BM25.score self q2 i = Some b ->
  BM25.score self (q1 +:+ " " +:+ q2) i = Some (a + b)%R.
Proof.
  unfold BM25.score. destruct (BM25._initialized self); cbn [negb].
  2: { intros [= <-] [= <-]. f_equal. lra. }
  change (q1 +:+ " " +:+ q2) with (q1 +:+ String " " q2).
  rewrite tokenize_app_space.
  destruct (Py.index (BM25.doc_freqs self) i) as [freqs|]; [|done].
  destruct (Py.index (BM25.doc_len self) i) as [len|]; [|done].
  cbn [mbind option_bind]. intros H1 H2.
  rewrite foldl_app, H1, score_loop_shift, H2. done.
Qed.

(** Property X27. The words of two queries joined by a space are the words
    of the first followed by those of the second, and on a fitted index
    whose parameters are in the usual range a document scores for the
    joined query at least what it scores for either part: adding words to a
    query never lowers a score. *)
Theorem score_grows_with_query (self : BM25.t) (documents : list string)
    (q1 q2 : string) (i : nat) :
  sound self -> i < length documents ->
  BM25._tokenize (q1 +:+ " " +:+ q2)
  = BM25._tokenize q1 ++ BM25._tokenize q2
  /\ exists a b r,
       BM25.score (BM25.fit self documents) q1 (Z.of_nat i) = Some a
       /\ BM25.score (BM25.fit self documents) q2 (Z.of_nat i) = Some b
       /\ BM25.score (BM25.fit self documents) (q1 +:+ " " +:+ q2)
            (Z.of_nat i) = Some r
       /\ (0 <= a <= r)%R /\ (0 <= b <= r)%R.
Proof.
  intros Hsound Hi. split; [apply tokenize_app_space|].
  destruct Hsound as (Hk & Hb & Hidf).
  destruct (score_fit_some self documents q1 i Hk Hb Hi) as (a & Ha & Ha0).
  destruct (score_fit_some self documents q2 i Hk Hb Hi) as (b & Hb' & Hb0).
  specialize (Ha0 (conj Hk (conj Hb Hidf))).
  specialize (Hb0 (conj Hk (conj Hb Hidf))).
  exists a, b, (a + b)%R. split; [done|]. split; [done|].
  split; [by apply score_concat|]. lra.
Qed.

Lemma score_grows_with_query_witness :
  exists a r,
    BM25.score (BM25.fit BM25.create ["lo au"; "ngu ngon"]) "lo" 0 = Some a
    /\ BM25.score (BM25.fit BM25.create ["lo au"; "ngu ngon"]) "lo au" 0
       = Some r
    /\ (0 <= a <= r)%R.
Proof.
  destruct (score_grows_with_query BM25.create ["lo au"; "ngu ngon"] "lo" "au"
              0 sound_create)
    as (_ & a & b & r & Ha & _ & Hr & Har & _); [simpl; lia|].
  by exists a, r.
Defined.

(** ** Semantic chunker: the chunks span the text *)

Lemma rstrip_blank (s : string) (q : nat) (c : ascii) :
  Str.rstrip s = EmptyString -> String.get q s = Some c ->
  Str.is_space c = true.
Proof.
  revert q. induction s as [|a s IH]; intros q; [done|].
  cbn [Str.rstrip]. destruct (Str.rstrip s) eqn:E; [|done].
  destruct (Str.is_space a) eqn:Ha; [|done]. intros _.
  destruct q as [|q]; cbn; [by intros [= <-]|]. by apply IH.
Qed.

Lemma lstrip_blank (s : string) (q : nat) (c : ascii) :
  (forall q, String.get q (Str.lstrip s) = Some c -> Str.is_space c = true) ->
  String.get q s = Some c -> Str.is_space c = true.
Proof.
  revert q. induction s as [|a s IH]; intros q Hall; [done|].
  cbn [Str.lstrip] in Hall. destruct (Str.is_space a) eqn:Ha.
  - destruct q as [|q]; cbn; [by intros [= <-]|]. by apply IH.
  - apply Hall.
Qed.

Lemma strip_blank (s : string) (q : nat) (c : ascii) :
  Str.strip s = EmptyString -> String.get q s = Some c ->
  Str.is_space c = true.
Proof.
  intros Hs. apply lstrip_blank. intros q'. by apply rstrip_blank.
Qed.

Lemma get_drop (n k : nat) (s : string) :
  String.get k (Str.drop n s) = String.get (n + k) s.
Proof.
  revert s. induction n as [|n IH]; intros s; [by rewrite str_drop_0|].
  destruct s as [|a s]; [by destruct k|]. cbn. apply IH.
Qed.

Lemma get_take (n k : nat) (s : string) :
  k < n -> String.get k (Str.take n s) = String.get k s.
Proof.
  revert k s. induction n as [|n IH]; intros k s Hk; [lia|].
  destruct s as [|a s]; [done|]. destruct k as [|k]; [done|].
  cbn. apply IH. lia.
Qed.

Lemma get_slice (a p q : nat) (s : string) :
  a <= q < p -> String.get (q - a) (Str.slice a p s) = String.get q s.
Proof.
  intros H. unfold Str.slice. rewrite get_take by lia.
  rewrite get_drop. f_equal. lia.
Qed.

Lemma blank_window (text : string) (s p q : nat) (c : ascii) :
  Str.nonempty (Str.strip (Str.slice s p text)) = false ->
  s <= q < p -> String.get q text = Some c -> Str.is_space c = true.
Proof.
  intros Hblank Hq Hc. rewrite <- (get_slice s p q text Hq) in Hc.
  apply (strip_blank (Str.slice s p text) (q - s) c); [|done].
  by destruct (Str.strip (Str.slice s p text)).
Qed.

Lemma chunk_step_coverage (self : SemanticChunker.t) (text : string)
    (st : SemanticChunker.State) (p b : nat) :
  p < b -> b <= String.length text ->
  chunk_invariant text p st -> coverage text p st ->
  coverage text b (SemanticChunker.chunk_step self text st (p, b)).
Proof.
  intros Hpb Hb (s & Hstart & Hsp & Htext & _) Hcov q c Hq Hc Hns.
  unfold SemanticChunker.chunk_step. rewrite !Htext, !Hstart.
  set (overlap_text := if (_ >? 0)%Z then _ else _).
  clearbody overlap_text.
  destruct (_ >? _)%Z;
    cbn [SemanticChunker.chunks SemanticChunker.current_chunk_start].
  - destruct (Nat.lt_ge_cases q p) as [Hlt|Hge]; [|right; lia].
    destruct (Hcov q c Hlt Hc Hns) as [(chunk & Hin & Hcovers)|Hwin].
    + left. exists chunk. split; [|done].
      destruct (Str.nonempty _); [|done]. apply elem_of_app. by left.
    + rewrite Hstart in Hwin.
      destruct (Str.nonempty (Str.strip (Str.slice s p text))) eqn:Hne.
      * left. eexists. split; [apply elem_of_app; right; left|].
        split; cbn; lia.
      * pose proof (blank_window text s p q c Hne ltac:(lia) Hc). congruence.
  - destruct (Nat.lt_ge_cases q p) as [Hlt|Hge]; [|right; lia].
    destruct (Hcov q c Hlt Hc Hns) as [?|Hwin]; [by left|right].
    by rewrite <- Hstart.
Qed.

Lemma chunk_loop_coverage (self : SemanticChunker.t) (text : string)
    (bs : list nat) (a : nat) (st : SemanticChunker.State) :
  StronglySorted lt (a :: bs) ->
  Forall (fun x => x <= String.length text) (a :: bs) ->
  chunk_invariant text a st -> coverage text a st ->
  coverage text (List.last bs a)
    (foldl (SemanticChunker.chunk_step self text) st
       (SemanticChunker.consecutive (a :: bs))).
Proof.
  revert a st. induction bs as [|b bs IH]; intros a st Hsorted Hle Hinv Hcov.
  { done. }
  apply StronglySorted_inv in Hsorted as [Hsorted Ha].
  apply Forall_cons_1 in Ha as [Hab _].
  apply Forall_cons_1 in Hle as [_ Hle].
  pose proof Hle as [Hb _]%Forall_cons_1.
  rewrite last_cons_default.
  change (SemanticChunker.consecutive (a :: b :: bs))
    with ((a, b) :: SemanticChunker.consecutive (b :: bs)).
  cbn [foldl]. apply IH; [done|done| |].
  - by apply chunk_step_invariant.
  - by apply chunk_step_coverage.
Qed.

(** Property X28. No text is lost by [chunk]: every character of the text
    that is not white space lies between the offsets of one of the chunks,
    whatever the sizes and the overlap. *)
Theorem no_text_is_lost (self : SemanticChunker.t) (text : string)
    (q : nat) (c : ascii) :
  String.get q text = Some c -> Str.is_space c = false ->
  exists chunk, chunk ∈ SemanticChunker.chunk self text /\ covers chunk q.
Proof.
  intros Hc Hns.
  assert (Hq : q < String.length text).
  { clear Hns. revert q Hc. induction text as [|a text IH]; intros q; [done|].
    destruct q as [|q]; cbn; [lia|]. intros H%IH. lia. }
  destruct (boundaries_shape text) as (bs & Hbs & Hsorted & Hlast).
  assert (Hle : Forall (fun x => x <= String.length text) (0 :: bs)).
  { apply Forall_forall. intros x Hx. apply boundaries_le. by rewrite Hbs. }
  assert (Hend : List.last bs 0 = String.length text).
  { pose proof (last_elem bs 0) as Hin.
    rewrite Forall_forall in Hle. apply Hle in Hin. lia. }
  assert (Hinit : chunk_invariant text 0
            (SemanticChunker.mkState [] 0 EmptyString)).
  { exists 0. split; [done|]. split; [done|].
    split; [by rewrite slice_empty|]. repeat split; constructor. }
  pose proof (chunk_loop_coverage self text bs 0 _ Hsorted Hle Hinit) as Hcov.
  pose proof (chunk_loop_invariant self text bs 0 _ Hsorted Hle Hinit) as Hinv.
  rewrite Hend in Hcov, Hinv.
  unfold SemanticChunker.chunk, SemanticChunker.finish,
    SemanticChunker.chunk_loop.
  rewrite Hbs. set (st := foldl _ _ _) in *.
  destruct Hinv as (s & Hstart & Hsp & Htext & _).
  destruct (Hcov ltac:(intros ? ? ?; lia) q c Hq Hc Hns)
    as [(chunk & Hin & Hcovers)|Hwin].
  - exists chunk. split; [|done].
    destruct (Str.nonempty _); [|done]. apply elem_of_app. by left.
  - rewrite Hstart in Hwin. rewrite Htext, Hstart.
    destruct (Str.nonempty (Str.strip (Str.slice s _ text))) eqn:Hne.
    + eexists. split; [apply elem_of_app; right; left|]. split; cbn; lia.
    + pose proof (blank_window text s _ q c Hne ltac:(lia) Hc). congruence.
Qed.

Lemma no_text_is_lost_witness :
  exists chunk,
    chunk ∈ SemanticChunker.chunk SemanticChunker.create
              "Xin chao. Ban khoe khong?"
    /\ covers chunk 4.
Proof.
  apply (no_text_is_lost SemanticChunker.create "Xin chao. Ban khoe khong?"
           4 "c"); reflexivity.
Defined.
